(** * NSGA-II / R-NSGA-II survival and selection (hypernets/searchers/nsga_searcher.py)

    A shallow embedding of the searcher's core: individuals are heap objects
    addressed by identity, their bookkeeping fields are mutated in place, and
    every method is a computation over that heap which either returns or
    raises.  Scores and distances are IEEE-754 binary64 numbers (Python floats
    and numpy float64), so NaN and infinities behave as they do in the code. *)

From Stdlib Require Import List ZArith Bool Lia Floats Permutation Sorted PeanoNat.
Import ListNotations.

(* Decimal literals such as 0.1 denote the nearest binary64 number, as in Python. *)
Set Warnings "-inexact-float".

(** ** Python outcomes: a call returns a value or raises *)

Inductive exn : Type := TypeError | ValueError | IndexError | RuntimeError.

(** [Unfinished] is the model's own third outcome: a [while] loop was cut off
    by the bound the model runs it with. *)
Inductive outcome (A : Type) : Type :=
| Ok (a : A)
| Raise (e : exn)
| Unfinished.

Arguments Ok {A} a.
Arguments Raise {A} e.
Arguments Unfinished {A}.

Definition obind {A B} (c : outcome A) (k : A -> outcome B) : outcome B :=
  match c with
  | Ok a => k a
  | Raise e => Raise e
  | Unfinished => Unfinished
  end.

Declare Scope py_scope.
Delimit Scope py_scope with py.
Notation "x <-! c ;; k" := (obind c (fun x => k))
  (at level 61, c at next level, right associativity) : py_scope.
Notation "' pat <-! c ;; k" := (obind c (fun x => match x with pat => k end))
  (at level 61, pat pattern, c at next level, right associativity) : py_scope.

(** [l[i]] with Python's negative indices and its IndexError. *)
Definition py_index {A} (l : list A) (i : Z) : outcome A :=
  let len := Z.of_nat (length l) in
  let j := if (i <? 0)%Z then (len + i)%Z else i in
  if ((j <? 0) || (len <=? j))%Z then Raise IndexError
  else match nth_error l (Z.to_nat j) with
       | Some a => Ok a
       | None => Raise IndexError
       end.

(** [l[:k]] : a negative bound counts from the end. *)
Definition py_slice_to {A} (l : list A) (k : Z) : list A :=
  if (k <? 0)%Z then firstn (Z.to_nat (Z.of_nat (length l) + k)) l
  else firstn (Z.to_nat k) l.

(** [sorted(l, key=...)] on keys compared with [<]: the stable sort.  Written
    as stable insertion; it agrees with Python's sort whenever [lt] is a strict
    weak order on the keys met (for floats: no NaN among them). *)
Section StableSort.
Context {A : Type} (lt : A -> A -> bool).

Fixpoint insert_sorted (x : A) (l : list A) : list A :=
  match l with
  | [] => [x]
  | h :: t => if lt x h then x :: h :: t else h :: insert_sorted x t
  end.

Definition sorted (l : list A) : list A :=
  fold_left (fun acc x => insert_sorted x acc) l [].
End StableSort.

(** ** The data model *)

Inductive OptimizeDirection : Type := Minimize | Maximize.

(** An objective score, or Python's [None] for a missing one. *)
Definition score : Type := option float.

(** Object identity of an individual (what [p == q] compares). *)
Definition ind_id : Type := nat.

(** [NSGAIndividual]: the score vector and the sort's bookkeeping fields
    ([dna] is opaque to the survival code and left out). *)
Module NSGAIndividual.
Record t : Type := mk {
  scores : list score;
  rank : Z;
  S : list ind_id;
  n : Z;
  T : list ind_id;
  distance : float
}.

Definition set_rank (r : Z) (x : t) : t :=
  mk (scores x) r (S x) (n x) (T x) (distance x).
Definition set_S (s : list ind_id) (x : t) : t :=
  mk (scores x) (rank x) s (n x) (T x) (distance x).
Definition set_n (k : Z) (x : t) : t :=
  mk (scores x) (rank x) (S x) k (T x) (distance x).
Definition set_T (l : list ind_id) (x : t) : t :=
  mk (scores x) (rank x) (S x) (n x) l (distance x).
Definition set_distance (d : float) (x : t) : t :=
  mk (scores x) (rank x) (S x) (n x) (T x) d.

(** [__init__] *)
Definition init (sc : list score) : t :=
  mk sc (-1) [] (-1) [] (-1)%float.

(** [reset] *)
Definition reset (x : t) : t :=
  mk (scores x) (-1) [] 0 [] (-1)%float.
End NSGAIndividual.

(** The heap: every identity denotes an object. *)
Definition Store : Type := ind_id -> NSGAIndividual.t.

Definition upd (st : Store) (p : ind_id) (v : NSGAIndividual.t) : Store :=
  fun q => if Nat.eqb q p then v else st q.

(** Computations over the heap. *)
Definition M (A : Type) : Type := Store -> outcome (A * Store).

Definition ret {A} (a : A) : M A := fun st => Ok (a, st).
Definition bind {A B} (c : M A) (k : A -> M B) : M B :=
  fun st => match c st with
            | Ok (a, st') => k a st'
            | Raise e => Raise e
            | Unfinished => Unfinished
            end.
Definition raise {A} (e : exn) : M A := fun _ => Raise e.
Definition unfinished {A} : M A := fun _ => Unfinished.
Definition lift {A} (c : outcome A) : M A :=
  fun st => obind c (fun a => Ok (a, st)).
Definition get (p : ind_id) : M NSGAIndividual.t := fun st => Ok (st p, st).
Definition modify (p : ind_id) (f : NSGAIndividual.t -> NSGAIndividual.t) : M unit :=
  fun st => Ok (tt, upd st p (f (st p))).

Notation "x <- c ;; k" := (bind c (fun x => k))
  (at level 61, c at next level, right associativity) : py_scope.
Notation "c ;;; k" := (bind c (fun _ => k))
  (at level 61, right associativity) : py_scope.

Local Open Scope py_scope.

(** [for x in l: body x] *)
Fixpoint for_each {A} (l : list A) (body : A -> M unit) : M unit :=
  match l with
  | [] => ret tt
  | x :: l' => body x ;;; for_each l' body
  end.

(** A loop that carries a local variable. *)
Fixpoint for_fold {A B} (l : list A) (acc : B) (body : B -> A -> M B) : M B :=
  match l with
  | [] => ret acc
  | x :: l' => acc' <- body acc x ;; for_fold l' acc' body
  end.

(** [p.reset()] *)
Definition reset (p : ind_id) : M unit := modify p NSGAIndividual.reset.

(** ** numpy on short float vectors *)

Module np.
Local Open Scope float_scope.

(** A missing score met by float arithmetic or comparison: TypeError. *)
Definition num (s : score) : outcome float :=
  match s with
  | Some x => Ok x
  | None => Raise TypeError
  end.

Fixpoint nums (row : list score) : outcome (list float) :=
  match row with
  | [] => Ok []
  | s :: row' => (x <-! num s ;; xs <-! nums row' ;; Ok (x :: xs))%py
  end.

Fixpoint all_nums (rows : list (list score)) : outcome (list (list float)) :=
  match rows with
  | [] => Ok []
  | r :: rows' => (x <-! nums r ;; xs <-! all_nums rows' ;; Ok (x :: xs))%py
  end.

(** [np.maximum] / [np.minimum]: NaN of the left operand propagates, and a
    NaN on the right fails the comparison and is returned. *)
Definition maximum (a b : float) : float :=
  if (b <=? a) || is_nan a then a else b.
Definition minimum (a b : float) : float :=
  if (a <=? b) || is_nan a then a else b.

Fixpoint map2 {A B C} (f : A -> B -> C) (l1 : list A) (l2 : list B) : list C :=
  match l1, l2 with
  | a :: l1', b :: l2' => f a b :: map2 f l1' l2'
  | _, _ => []
  end.

(** Element-wise operation with numpy's broadcasting of a one-element
    operand; other length mismatches are a ValueError. *)
Definition broadcast (f : float -> float -> float) (a b : list float)
  : outcome (list float) :=
  if Nat.eqb (length a) (length b) then Ok (map2 f a b)
  else match a, b with
       | [x], _ => Ok (map (f x) b)
       | _, [y] => Ok (map (fun x => f x y) a)
       | _, _ => Raise ValueError
       end.

(** [np.array(rows)]: the rows must have one length. *)
Definition rectangular {A} (rows : list (list A)) : bool :=
  match rows with
  | [] => true
  | r :: rows' => forallb (fun r' => Nat.eqb (length r') (length r)) rows'
  end.

(** A reduction along axis 0 of a two-dimensional float array: the first
    row is the start value; an empty array has none. *)
Definition reduce_axis0 (f : float -> float -> float) (rows : list (list float))
  : outcome (list float) :=
  match rows with
  | [] => Raise ValueError
  | r :: rows' => Ok (fold_left (map2 f) rows' r)
  end.

(** [np.max(l)] and [np.min(l)] of a list of floats. *)
Definition reduce (f : float -> float -> float) (l : list float) : outcome float :=
  match l with
  | [] => Raise ValueError
  | x :: l' => Ok (fold_left f l' x)
  end.

(** The loop of numpy's pairwise summation on a block of eight elements or
    more: eight running sums [r0] to [r7], one per position modulo eight, take
    every full group of eight; they are combined as a balanced tree, and the
    elements left over (fewer than eight) are then added one by one. *)
Fixpoint unrolled_sum (r0 r1 r2 r3 r4 r5 r6 r7 : float) (l : list float) : float :=
  match l with
  | a0 :: a1 :: a2 :: a3 :: a4 :: a5 :: a6 :: a7 :: l' =>
      unrolled_sum (r0 + a0) (r1 + a1) (r2 + a2) (r3 + a3)
                   (r4 + a4) (r5 + a5) (r6 + a6) (r7 + a7) l'
  | _ => fold_left add l (((r0 + r1) + (r2 + r3)) + ((r4 + r5) + (r6 + r7)))
  end.

(** numpy's pairwise summation of a contiguous float64 array: fewer than eight
    elements are added left to right from zero; up to 128 elements go through
    the eight running sums; a longer array is cut at [n/2] rounded down to a
    multiple of eight and the sums of the two parts are added.  Every cut
    halves the array, so [fuel] equal to its length is never used up. *)
Fixpoint pairwise_sum (fuel : nat) (l : list float) : float :=
  match l with
  | a0 :: a1 :: a2 :: a3 :: a4 :: a5 :: a6 :: a7 :: l' =>
      match fuel with
      | S fuel' =>
          if (length l <=? 128)%nat then unrolled_sum a0 a1 a2 a3 a4 a5 a6 a7 l'
          else let n2 := (length l / 2 - (length l / 2) mod 8)%nat in
               pairwise_sum fuel' (firstn n2 l) + pairwise_sum fuel' (skipn n2 l)
      | O => unrolled_sum a0 a1 a2 a3 a4 a5 a6 a7 l'
      end
  | _ => fold_left add l 0
  end.

(** [np.sum] of a one-dimensional float64 array: the reduction starts from
    zero and adds the pairwise sum of the array.  Below eight elements that
    is the sum from left to right. *)
Definition sum (l : list float) : float :=
  if (length l <? 8)%nat then fold_left add l 0
  else 0 + pairwise_sum (length l) l.

Definition square (l : list float) : list float := map (fun x => x * x) l.
End np.

(** ** Pareto dominance *)

Definition better_or_equal (d : OptimizeDirection) (a b : float) : bool :=
  match d with
  | Minimize => (a <=? b)%float
  | Maximize => (b <=? a)%float
  end.

Definition strictly_better (d : OptimizeDirection) (a b : float) : bool :=
  match d with
  | Minimize => (a <? b)%float
  | Maximize => (b <? a)%float
  end.

Fixpoint all_better_or_equal (dirs : list OptimizeDirection) (a b : list float) : bool :=
  match dirs, a, b with
  | d :: dirs', x :: a', y :: b' => better_or_equal d x y && all_better_or_equal dirs' a' b'
  | _, _, _ => true
  end.

Fixpoint some_strictly_better (dirs : list OptimizeDirection) (a b : list float) : bool :=
  match dirs, a, b with
  | d :: dirs', x :: a', y :: b' => strictly_better d x y || some_strictly_better dirs' a' b'
  | _, _, _ => false
  end.

(** Modelled from the spec: [pareto_dominate] of hypernets/core/pareto.py, which
    is not among the sources.  With a direction per index: [x1] dominates [x2]
    iff it is at least as good on every index and strictly better on one;
    vectors whose length differs from the number of directions abort with an
    error, and a missing score, for which the relation is undefined, surfaces
    as the TypeError Python raises on comparing [None] with a number. *)
Definition pareto_dominate_directed
  (x1 x2 : list score) (directions : list OptimizeDirection) : outcome bool :=
  if negb (Nat.eqb (length x1) (length directions) && Nat.eqb (length x2) (length directions))
  then Raise ValueError
  else (a <-! np.nums x1 ;; b <-! np.nums x2 ;;
        Ok (all_better_or_equal directions a b && some_strictly_better directions a b))%py.

(** ** The survival engines *)

(** [RankAndCrowdSortSurvival(directions, population_size, random_state)] and
    its subclass [RDominanceSurvival(..., ref_point, weights, threshold)]; the
    random state is not used by any survival method. *)
Inductive Survival : Type :=
| RankAndCrowdSortSurvival
    (directions : list OptimizeDirection) (population_size : Z)
| RDominanceSurvival
    (directions : list OptimizeDirection) (population_size : Z)
    (ref_point weights : list float) (threshold : float).

Definition directions (self : Survival) : list OptimizeDirection :=
  match self with
  | RankAndCrowdSortSurvival d _ => d
  | RDominanceSurvival d _ _ _ _ => d
  end.

Definition population_size (self : Survival) : Z :=
  match self with
  | RankAndCrowdSortSurvival _ k => k
  | RDominanceSurvival _ k _ _ _ => k
  end.

Definition reads {A} (f : Store -> A) : M A := fun st => Ok (f st, st).

Definition score_at (x : NSGAIndividual.t) (m : nat) : score :=
  nth m (NSGAIndividual.scores x) None.

(** The key comparison of [sorted(I, key=lambda v: v.scores[m])]. *)
Definition score_lt (st : Store) (m : nat) (a b : ind_id) : bool :=
  match score_at (st a) m, score_at (st b) m with
  | Some x, Some y => (x <? y)%float
  | _, _ => false
  end.

(** [np.max(scores_array, axis=0)] and [np.min(scores_array, axis=0)].  A
    one-row array is reduced without a comparison, so a missing score in it
    passes; from two rows on a missing score is compared and raises. *)
Definition column_extrema (rows : list (list score))
  : outcome (list score * list score) :=
  match rows with
  | [] => Raise ValueError
  | [r] => Ok (r, r)
  | _ => (fr <-! np.all_nums rows ;;
          mx <-! np.reduce_axis0 np.maximum fr ;;
          mn <-! np.reduce_axis0 np.minimum fr ;;
          Ok (map Some mx, map Some mn))%py
  end.

Module RankAndCrowdSort.

(** One interior point of [crowding_distance_assignment]:
    [sorted_I[i].distance += (sorted_I[i+1].scores[m] - sorted_I[i-1].scores[m])
                             / (maximum_array[m] - minimum_array[m])]. *)
Definition crowd_interior (sorted_I : list ind_id) (m : nat)
  (maximum_array minimum_array : list score) (i : nat) : M unit :=
  p <- lift (py_index sorted_I (Z.of_nat i)) ;;
  hi <- lift (py_index sorted_I (Z.of_nat i + 1)) ;;
  lo <- lift (py_index sorted_I (Z.of_nat i - 1)) ;;
  x <- get p ;; xh <- get hi ;; xl <- get lo ;;
  a <- lift (np.num (score_at xh m)) ;;
  b <- lift (np.num (score_at xl m)) ;;
  mx <- lift (np.num (nth m maximum_array None)) ;;
  mn <- lift (np.num (nth m minimum_array None)) ;;
  modify p (NSGAIndividual.set_distance
              (NSGAIndividual.distance x + (a - b) / (mx - mn))%float).

(** The body of [for m in range(len(I[0].scores))]. *)
Definition crowd_objective (I : list ind_id)
  (maximum_array minimum_array : list score) (m : nat) : M unit :=
  sorted_I <- reads (fun st => sorted (score_lt st m) I) ;;
  first <- lift (py_index sorted_I 0) ;;
  modify first (NSGAIndividual.set_distance infinity) ;;;
  last <- lift (py_index sorted_I (Z.of_nat (length I) - 1)) ;;
  modify last (NSGAIndividual.set_distance infinity) ;;;
  for_each (seq 1 (length I - 2)) (crowd_interior sorted_I m maximum_array minimum_array).

(** [crowding_distance_assignment(I)] *)
Definition crowding_distance_assignment (I : list ind_id) : M (list ind_id) :=
  rows <- reads (fun st => map (fun p => NSGAIndividual.scores (st p)) I) ;;
  if negb (np.rectangular rows) then raise ValueError else
  ext <- lift (column_extrema rows) ;;
  i0 <- lift (py_index I 0) ;;
  x0 <- get i0 ;;
  for_each (seq 0 (length (NSGAIndividual.scores x0)))
           (crowd_objective I (fst ext) (snd ext)) ;;;
  ret I.

(** [cmp_operator(s1, s2)]: lower rank first, then the larger distance. *)
Definition cmp_operator (s1 s2 : NSGAIndividual.t) : Z :=
  if (NSGAIndividual.rank s1 <? NSGAIndividual.rank s2)%Z then 1%Z
  else if (NSGAIndividual.rank s1 =? NSGAIndividual.rank s2)%Z then
    if (NSGAIndividual.distance s2 <? NSGAIndividual.distance s1)%float then 1%Z
    else if (NSGAIndividual.distance s1 =? NSGAIndividual.distance s2)%float then 0%Z
    else (-1)%Z
  else (-1)%Z.

End RankAndCrowdSort.

Module RDominance.

(** [np.sqrt(np.sum(np.square((scores - ref_point) / scores_extend) * weights))] *)
Definition reference_distance (ref_point weights scores_extend sc : list float)
  : outcome float :=
  (d <-! np.broadcast sub sc ref_point ;;
   q <-! np.broadcast div d scores_extend ;;
   w <-! np.broadcast mul (np.square q) weights ;;
   Ok (sqrt (np.sum w)))%py.

(** The last line of [dominate]. *)
Definition gap_below (d1 d2 dist_extent threshold : float) : bool :=
  ((d1 - d2) / dist_extent <? - threshold)%float.

(** [cmp_operator(s1, s2)]: lower rank first, then the smaller distance. *)
Definition cmp_operator (s1 s2 : NSGAIndividual.t) : Z :=
  if (NSGAIndividual.rank s1 <? NSGAIndividual.rank s2)%Z then 1%Z
  else if (NSGAIndividual.rank s1 =? NSGAIndividual.rank s2)%Z then
    if (NSGAIndividual.distance s1 <? NSGAIndividual.distance s2)%float then 1%Z
    else if (NSGAIndividual.distance s1 =? NSGAIndividual.distance s2)%float then 0%Z
    else (-1)%Z
  else (-1)%Z.

(** [sort_font(front)]: [sorted(front, key=lambda v: v.distance)]. *)
Definition sort_font (front : list ind_id) : M (list ind_id) :=
  reads (fun st =>
    sorted (fun a b => (NSGAIndividual.distance (st a) <? NSGAIndividual.distance (st b))%float)
           front).

End RDominance.

(** [cmp_operator] as reached through an instance. *)
Definition cmp_operator (self : Survival) (s1 s2 : NSGAIndividual.t) : Z :=
  match self with
  | RankAndCrowdSortSurvival _ _ => RankAndCrowdSort.cmp_operator s1 s2
  | RDominanceSurvival _ _ _ _ _ => RDominance.cmp_operator s1 s2
  end.

(** [sort_font] as reached through an instance. *)
Definition sort_font (self : Survival) (front : list ind_id) : M (list ind_id) :=
  match self with
  | RankAndCrowdSortSurvival _ _ => RankAndCrowdSort.crowding_distance_assignment front
  | RDominanceSurvival _ _ _ _ _ => RDominance.sort_font front
  end.

(** [sorted(l, key=cmp_to_key(cmp), reverse=True)]: Python reverses, sorts
    stably and reverses back; the key of [a] is below the key of [b] when
    [cmp(a, b) < 0]. *)
Definition sorted_cmp_reverse (cmp : NSGAIndividual.t -> NSGAIndividual.t -> Z)
  (st : Store) (l : list ind_id) : list ind_id :=
  rev (sorted (fun a b => (cmp (st a) (st b) <? 0)%Z) (rev l)).

(** The injected random source: a sequence of raw draws and a cursor. *)
Record RandomState : Type := mkRandomState {
  raw : nat -> Z;
  cursor : nat
}.

(** [random_state.randint(low, high, size=2)]: two integers of the half-open
    range [low, high); numpy raises ValueError when the range is empty. *)
Definition randint (low high : Z) (rs : RandomState) : outcome ((Z * Z) * RandomState) :=
  if (high <=? low)%Z then Raise ValueError
  else Ok ((low + raw rs (cursor rs) mod (high - low),
            low + raw rs (Datatypes.S (cursor rs)) mod (high - low))%Z,
           mkRandomState (raw rs) (2 + cursor rs)).

(** [first_inx in indi_inx] *)
Definition in_pair (i : Z) (inx : Z * Z) : bool :=
  ((fst inx =? i) || (snd inx =? i))%Z.

(** The retry loop raises once [try_times > 10000], that is on its 10002nd
    test of a pair that still holds the first index. *)
Definition retry_cap : nat := Z.to_nat 10001.

Section Searcher.

(** What [pareto_dominate] does when it is called with [directions=None]:
    the function is not among the sources and the specification is silent,
    so its behaviour there is left open. *)
Variable pareto_dominate_undirected : list score -> list score -> outcome bool.

(** [pareto_dominate(x1, x2, directions=None)] *)
Definition pareto_dominate (x1 x2 : list score)
  (directions : option (list OptimizeDirection)) : outcome bool :=
  match directions with
  | Some d => pareto_dominate_directed x1 x2 d
  | None => pareto_dominate_undirected x1 x2
  end.

(** [RankAndCrowdSortSurvival.dominate(ind1, ind2, pop)] *)
Definition RankAndCrowdSort_dominate (self_directions : list OptimizeDirection)
  (ind1 ind2 : ind_id) (pop : list ind_id) : M bool :=
  x1 <- get ind1 ;; x2 <- get ind2 ;;
  lift (pareto_dominate (NSGAIndividual.scores x1) (NSGAIndividual.scores x2)
                        (Some self_directions)).

(** The loop of [RDominanceSurvival.dominate] that stores every member's
    distance to the reference point and collects them. *)
Definition assign_reference_distances (ref_point weights scores_extend : list float)
  (pop : list ind_id) : M (list float) :=
  for_fold pop [] (fun distances indi =>
    x <- get indi ;;
    sc <- lift (np.nums (NSGAIndividual.scores x)) ;;
    d <- lift (RDominance.reference_distance ref_point weights scores_extend sc) ;;
    modify indi (NSGAIndividual.set_distance d) ;;;
    ret (distances ++ [d])).

(** [RDominanceSurvival.dominate(ind1, ind2, pop, directions=None)] *)
Definition RDominance_dominate (ref_point weights : list float) (threshold : float)
  (ind1 ind2 : ind_id) (pop : list ind_id)
  (directions : option (list OptimizeDirection)) : M bool :=
  x1 <- get ind1 ;; x2 <- get ind2 ;;
  b1 <- lift (pareto_dominate (NSGAIndividual.scores x1) (NSGAIndividual.scores x2) directions) ;;
  if b1 : bool then ret true else
  b2 <- lift (pareto_dominate (NSGAIndividual.scores x2) (NSGAIndividual.scores x1) directions) ;;
  if b2 : bool then ret false else
  rows <- reads (fun st => map (fun p => NSGAIndividual.scores (st p)) pop) ;;
  if negb (np.rectangular rows) then raise ValueError else
  fr <- lift (np.all_nums rows) ;;
  mx <- lift (np.reduce_axis0 np.maximum fr) ;;
  mn <- lift (np.reduce_axis0 np.minimum fr) ;;
  let scores_extend := np.map2 sub mx mn in
  distances <- assign_reference_distances ref_point weights scores_extend pop ;;
  dmax <- lift (np.reduce np.maximum distances) ;;
  dmin <- lift (np.reduce np.minimum distances) ;;
  let dist_extent := (dmax - dmin)%float in
  y1 <- get ind1 ;; y2 <- get ind2 ;;
  ret (RDominance.gap_below (NSGAIndividual.distance y1) (NSGAIndividual.distance y2)
                            dist_extent threshold).

(** [self.dominate(ind1, ind2, pop=pop)] as the sort and
    [calc_nondominated_set] call it: no [directions] argument is passed. *)
Definition dominate (self : Survival) (ind1 ind2 : ind_id) (pop : list ind_id) : M bool :=
  match self with
  | RankAndCrowdSortSurvival d _ => RankAndCrowdSort_dominate d ind1 ind2 pop
  | RDominanceSurvival _ _ ref_point weights threshold =>
      RDominance_dominate ref_point weights threshold ind1 ind2 pop None
  end.

(** *** fast_non_dominated_sort *)

(** The body of [for q in pop] inside [for p in pop]. *)
Definition compare_pair (self : Survival) (pop : list ind_id) (p q : ind_id) : M unit :=
  if Nat.eqb p q then ret tt else
  b1 <- dominate self p q pop ;;
  (if b1 : bool
   then modify p (fun x => NSGAIndividual.set_S (NSGAIndividual.S x ++ [q]) x)
   else ret tt) ;;;
  b2 <- dominate self q p pop ;;
  if b2 : bool
  then modify p (fun x => NSGAIndividual.set_T (NSGAIndividual.T x ++ [q]) x) ;;;
       modify p (fun x => NSGAIndividual.set_n (NSGAIndividual.n x + 1) x)
  else ret tt.

(** The body of [for p in pop]; [F_1] is the front under construction. *)
Definition count_dominators (self : Survival) (pop : list ind_id)
  (F_1 : list ind_id) (p : ind_id) : M (list ind_id) :=
  modify p (NSGAIndividual.set_n 0) ;;;
  for_each pop (compare_pair self pop p) ;;;
  x <- get p ;;
  if (NSGAIndividual.n x =? 0)%Z
  then modify p (NSGAIndividual.set_rank 0) ;;; ret (F_1 ++ [p])
  else ret F_1.

(** The body of [for q in p.S]. *)
Definition release (i : Z) (Q : list ind_id) (q : ind_id) : M (list ind_id) :=
  modify q (fun x => NSGAIndividual.set_n (NSGAIndividual.n x - 1) x) ;;;
  x <- get q ;;
  if (NSGAIndividual.n x =? 0)%Z
  then modify q (NSGAIndividual.set_rank (i + 1)) ;;; ret (Q ++ [q])
  else ret Q.

(** [Q] after [for p in F[i]: for q in p.S: ...]. *)
Definition next_front (i : Z) (front : list ind_id) : M (list ind_id) :=
  for_fold front [] (fun Q p =>
    x <- get p ;; for_fold (NSGAIndividual.S x) Q (release i)).

(** The [while True] loop; [cur] is [F[i]], the front appended last. *)
Fixpoint peel (fuel : nat) (i : Z) (F : list (list ind_id)) (cur : list ind_id)
  : M (list (list ind_id)) :=
  match fuel with
  | O => unfinished
  | Datatypes.S fuel' =>
      Q <- next_front i cur ;;
      if Nat.eqb (length Q) 0 then ret F
      else peel fuel' (i + 1) (F ++ [Q]) Q
  end.

(** [fast_non_dominated_sort(pop)]; the loop is run at most [len(pop) + 1]
    times, which the theorems show to be enough. *)
Definition fast_non_dominated_sort (self : Survival) (pop : list ind_id)
  : M (list (list ind_id)) :=
  for_each pop reset ;;;
  F_1 <- for_fold pop [] (count_dominators self pop) ;;
  peel (Datatypes.S (length pop)) 0 [F_1] F_1.

(** *** update *)

(** The walk over the fronts in [update]. *)
Fixpoint select_fronts (self : Survival) (p_sorted : list (list ind_id))
  (p_selected : list ind_id) : M (list ind_id) :=
  match p_sorted with
  | [] => ret p_selected
  | P_front :: rest =>
      if Nat.eqb (length P_front) 0 then ret p_selected else
      individuals <- sort_font self P_front ;;
      let p_selected' := p_selected ++ individuals in
      if (population_size self <=? Z.of_nat (length p_selected'))%Z
      then ret p_selected'
      else select_fronts self rest p_selected'
  end.

(** [update(pop, challengers)] *)
Definition update (self : Survival) (pop challengers : list ind_id) : M (list ind_id) :=
  let temp_pop := pop ++ challengers in
  if (Z.of_nat (length pop) <? population_size self)%Z then ret temp_pop else
  p_sorted <- fast_non_dominated_sort self temp_pop ;;
  p_selected <- select_fronts self p_sorted [] ;;
  p_cmp_sorted <- reads (fun st => sorted_cmp_reverse (cmp_operator self) st p_selected) ;;
  ret (py_slice_to p_cmp_sorted (population_size self)).

(** *** calc_nondominated_set *)

(** [(np.array(indi.scores) == None).any()] *)
Definition has_missing_score (x : NSGAIndividual.t) : bool :=
  existsb (fun s => match s with None => true | Some _ => false end)
          (NSGAIndividual.scores x).

(** The [for indi_ in population] loop of [find_non_dominated_solu]. *)
Fixpoint undominated_among (self : Survival) (population : list ind_id)
  (indi : ind_id) (rest : list ind_id) : M bool :=
  match rest with
  | [] => ret true
  | indi_ :: rest' =>
      if Nat.eqb indi_ indi then undominated_among self population indi rest' else
      b <- dominate self indi_ indi population ;;
      if b : bool then ret false
      else undominated_among self population indi rest'
  end.

Definition find_non_dominated_solu (self : Survival) (population : list ind_id)
  (indi : ind_id) : M bool :=
  x <- get indi ;;
  if has_missing_score x then ret false
  else undominated_among self population indi population.

(** [list(filter(f, l))] for a predicate that reads and writes the heap. *)
Fixpoint filter_m (f : ind_id -> M bool) (l : list ind_id) : M (list ind_id) :=
  match l with
  | [] => ret []
  | x :: l' =>
      b <- f x ;; r <- filter_m f l' ;;
      ret (if b : bool then x :: r else r)
  end.

Definition calc_nondominated_set (self : Survival) (population : list ind_id)
  : M (list ind_id) :=
  filter_m (find_non_dominated_solu self population) population.

(** *** NSGAIISearcher *)

Record NSGAIISearcher : Type := mkSearcher {
  population : list ind_id;
  survival : Survival;
  historical_individuals : list ind_id;
  random_state : RandomState
}.

Definition get_historical_population (s : NSGAIISearcher) : list ind_id :=
  historical_individuals s.

(** [get_nondominated_set()] *)
Definition get_nondominated_set (s : NSGAIISearcher) : M (list ind_id) :=
  calc_nondominated_set (survival s) (get_historical_population s).

(** [update_result(space, result)]; [indi] is the identity of the object
    the constructor returns, new to the heap. *)
Definition update_result (s : NSGAIISearcher) (indi : ind_id) (result : list score)
  : M NSGAIISearcher :=
  modify indi (fun _ => NSGAIndividual.init result) ;;;
  let history := historical_individuals s ++ [indi] in
  p <- update (survival s) (population s) [indi] ;;
  ret (mkSearcher p (survival s) history (random_state s)).

(** The [while first_inx in indi_inx] loop; [remaining] counts the redraws
    still allowed, [10001 - try_times]. *)
Fixpoint redraw (remaining : nat) (len : Z) (first_inx : Z) (indi_inx : Z * Z)
  (rs : RandomState) : outcome ((Z * Z) * RandomState) :=
  if in_pair first_inx indi_inx then
    match remaining with
    | O => Raise RuntimeError
    | Datatypes.S remaining' =>
        ('(indi_inx', rs') <-! randint 0 (len - 1) rs ;;
         redraw remaining' len first_inx indi_inx' rs')%py
    end
  else Ok (indi_inx, rs).

(** The two indices [binary_tournament_select] settles on. *)
Definition binary_tournament_indices (self : Survival) (population : list ind_id)
  (st : Store) (rs : RandomState) : outcome ((Z * Z) * RandomState) :=
  (let len := Z.of_nat (length population) in
   '(indi_inx, rs1) <-! randint 0 (len - 1) rs ;;
   p1 <-! py_index population (fst indi_inx) ;;
   p2 <-! py_index population (snd indi_inx) ;;
   let first_inx :=
     if (0 <=? cmp_operator self (st p1) (st p2))%Z then fst indi_inx else snd indi_inx in
   '(indi_inx2, rs2) <-! randint 0 (len - 1) rs1 ;;
   '(indi_inx3, rs3) <-! redraw retry_cap len first_inx indi_inx2 rs2 ;;
   let second_inx :=
     if (0 <=? cmp_operator self (st p1) (st p2))%Z then fst indi_inx3 else snd indi_inx3 in
   Ok ((first_inx, second_inx), rs3))%py.

(** [binary_tournament_select(population)] *)
Definition binary_tournament_select (self : Survival) (population : list ind_id)
  (st : Store) (rs : RandomState) : outcome ((ind_id * ind_id) * RandomState) :=
  ('(inx, rs') <-! binary_tournament_indices self population st rs ;;
   a <-! py_index population (fst inx) ;;
   b <-! py_index population (snd inx) ;;
   Ok ((a, b), rs'))%py.

End Searcher.

(** ** Predicates the statements use *)

(** Every score is present and there is one per direction: the data model's
    invariant on an evaluated individual. *)
Definition fully_scored (dirs : list OptimizeDirection) (x : NSGAIndividual.t) : bool :=
  Nat.eqb (length (NSGAIndividual.scores x)) (length dirs)
  && forallb (fun s => match s with Some _ => true | None => false end)
             (NSGAIndividual.scores x).

(** The float scores of a fully scored individual. *)
Definition score_values (x : NSGAIndividual.t) : list float :=
  map (fun s => match s with Some v => v | None => nan end) (NSGAIndividual.scores x).

(** Pareto dominance between two float vectors. *)
Definition dominates (dirs : list OptimizeDirection) (a b : list float) : bool :=
  all_better_or_equal dirs a b && some_strictly_better dirs a b.

(** Membership of an identity in a list. *)
Definition mem (p : ind_id) (l : list ind_id) : bool := existsb (Nat.eqb p) l.

(** A computation returned this value (in some heap). *)
Definition returns {A} (r : outcome (A * Store)) (a : A) : Prop :=
  exists st', r = Ok (a, st').

(** [q] dominates [p] / [p] dominates [q], for two different objects, under a
    relation [Rel] on identities. *)
Definition dominated_by (Rel : ind_id -> ind_id -> bool) (p q : ind_id) : bool :=
  negb (Nat.eqb p q) && Rel q p.
Definition dominating (Rel : ind_id -> ind_id -> bool) (p q : ind_id) : bool :=
  negb (Nat.eqb p q) && Rel p q.

(** The members of [pop] that dominate [p], and those that [p] dominates. *)
Definition dominators (Rel : ind_id -> ind_id -> bool) (pop : list ind_id) (p : ind_id)
  : list ind_id := filter (dominated_by Rel p) pop.
Definition dominated (Rel : ind_id -> ind_id -> bool) (pop : list ind_id) (p : ind_id)
  : list ind_id := filter (dominating Rel p) pop.

(** What the inner loop of the sort adds to an individual's fields. *)
Definition extend_sets (s t : list ind_id) (x : NSGAIndividual.t) : NSGAIndividual.t :=
  NSGAIndividual.mk (NSGAIndividual.scores x) (NSGAIndividual.rank x)
    (NSGAIndividual.S x ++ s) (NSGAIndividual.n x + Z.of_nat (length t))
    (NSGAIndividual.T x ++ t) (NSGAIndividual.distance x).

(** The fields of [p] when the first loop of the sort is over. *)
Definition counted (Rel : ind_id -> ind_id -> bool) (pop : list ind_id)
  (sc : list score) (p : ind_id) : NSGAIndividual.t :=
  NSGAIndividual.mk sc
    (if Nat.eqb (length (dominators Rel pop p)) 0 then 0%Z else (-1)%Z)
    (dominated Rel pop p) (Z.of_nat (length (dominators Rel pop p)))
    (dominators Rel pop p) (-1)%float.

(** Front 0 as the first loop leaves it. *)
Definition first_front (Rel : ind_id -> ind_id -> bool) (pop : list ind_id) : list ind_id :=
  filter (fun p => Nat.eqb (length (dominators Rel pop p)) 0) pop.

(** Two states of an object that differ at most in [n] and [rank]. *)
Definition same_static (x y : NSGAIndividual.t) : Prop :=
  NSGAIndividual.scores x = NSGAIndividual.scores y
  /\ NSGAIndividual.S x = NSGAIndividual.S y
  /\ NSGAIndividual.T x = NSGAIndividual.T y
  /\ NSGAIndividual.distance x = NSGAIndividual.distance y.

(** The dominators of [q] that are not yet in a front. *)
Definition pending (Rel : ind_id -> ind_id -> bool) (pop done : list ind_id) (q : ind_id)
  : list ind_id :=
  filter (fun p => dominated_by Rel q p && negb (mem p done)) pop.

(** Every member of front [k] carries rank [k]. *)
Definition ranked (F : list (list ind_id)) (st : Store) : Prop :=
  forall k front q, nth_error F k = Some front -> In q front ->
    NSGAIndividual.rank (st q) = Z.of_nat k.

(** The loop invariant of the sort's [while]: [done] are the members of the
    fronts already walked, [cur] is the front being walked. *)
Definition sort_invariant (Rel : ind_id -> ind_id -> bool) (pop done cur : list ind_id)
  (st : Store) : Prop :=
  NoDup (done ++ cur)
  /\ incl (done ++ cur) pop
  /\ (forall p, In p pop -> NSGAIndividual.S (st p) = dominated Rel pop p)
  /\ (forall q, In q pop ->
        NSGAIndividual.n (st q) = Z.of_nat (length (pending Rel pop done q)))
  /\ (forall q, In q pop -> (In q (done ++ cur) <-> NSGAIndividual.n (st q) = 0%Z)).

(** Two heaps hold the same objects at the identities of [pop]. *)
Definition agree_on (pop : list ind_id) (st st' : Store) : Prop :=
  forall p, In p pop -> st p = st' p.

(** Pareto dominance between the objects at two identities of a heap. *)
Definition pareto_rel (dirs : list OptimizeDirection) (st : Store) (p q : ind_id) : bool :=
  dominates dirs (score_values (st p)) (score_values (st q)).

(** One behaviour [pareto_dominate] may have without directions: every
    objective minimized.  The examples run the code with it. *)
Definition minimize_all (x1 x2 : list score) : outcome bool :=
  pareto_dominate_directed x1 x2 (map (fun _ => Minimize) x1).

(** A heap of freshly constructed individuals, the [i]-th with the [i]-th
    score vector. *)
Definition heap_of (l : list (list score)) : Store :=
  fun i => NSGAIndividual.init (nth i l []).

(** A heap whose [i]-th object has the [i]-th rank of a list, no scores and
    the distance of a reset individual. *)
Definition heap_of_ranks (ranks : list Z) : Store :=
  fun i => NSGAIndividual.mk [] (nth i ranks (-1)%Z) [] 0 [] (-1)%float.

(** A random source that replays a list of raw draws (and zeros after it). *)
Definition replay (draws : list Z) : RandomState :=
  mkRandomState (fun i => nth i draws 0%Z) 0.

(** The value of a call that also returns the random state. *)
Definition selected {A} (r : outcome (A * RandomState)) : outcome A :=
  match r with
  | Ok (a, _) => Ok a
  | Raise e => Raise e
  | Unfinished => Unfinished
  end.

(** The float at index [m] of a fully scored individual. *)
Definition score_value (x : NSGAIndividual.t) (m : nat) : float :=
  nth m (score_values x) nan.

(** [np.max(scores_array, axis=0)] and [np.min(scores_array, axis=0)] of a
    float array. *)
Definition column_max (vals : list (list float)) : list float :=
  fold_left (np.map2 np.maximum) (tl vals) (hd [] vals).
Definition column_min (vals : list (list float)) : list float :=
  fold_left (np.map2 np.minimum) (tl vals) (hd [] vals).

(** The term added at position [i] of a sorted front [s] for objective [m],
    [mx] and [mn] being the objective's extremes. *)
Definition interior_term (st : Store) (s : list ind_id) (m : nat) (mx mn : float)
  (i : nat) : float :=
  ((score_value (st (nth (i + 1) s 0%nat)) m - score_value (st (nth (i - 1) s 0%nat)) m)
   / (mx - mn))%float.

(** What objective [m] adds to the distance of the individual at position [i]
    of the front sorted by that objective. *)
Definition contribution (st : Store) (I : list ind_id) (m i : nat) : float :=
  let vals := map (fun p => score_values (st p)) I in
  interior_term st (sorted (score_lt st m) I) m
    (nth m (column_max vals) nan) (nth m (column_min vals) nan) i.

(** [c] is neither NaN nor minus infinity, so that [inf + c] is [inf]. *)
Definition keeps_infinity (c : float) : bool :=
  negb (is_nan c) && negb (c =? neg_infinity)%float.

(** No interior contribution of the first [M] objectives is NaN or minus
    infinity. *)
Definition contributions_keep_infinity (st : Store) (I : list ind_id) (M : nat) : bool :=
  forallb (fun m =>
             forallb (fun i => keeps_infinity (contribution st I m i))
                     (seq 1 (length I - 2)))
          (seq 0 M).

(** Two states of an object that differ at most in [distance]. *)
Definition same_but_distance (x y : NSGAIndividual.t) : Prop :=
  x = NSGAIndividual.set_distance (NSGAIndividual.distance x) y.

(** The distances a computation leaves in the objects of [l]. *)
Definition final_distances {A} (r : outcome (A * Store)) (l : list ind_id)
  : outcome (list float) :=
  match r with
  | Ok (_, st) => Ok (map (fun p => NSGAIndividual.distance (st p)) l)
  | Raise e => Raise e
  | Unfinished => Unfinished
  end.

(** [scores_extend] of [RDominanceSurvival.dominate]: the per-objective range
    of a float array. *)
Definition scores_extend (vals : list (list float)) : list float :=
  np.map2 sub (column_max vals) (column_min vals).

(** The weighted, normalized Euclidean distance of a score vector to the
    reference point. *)
Definition weighted_distance (ref_point weights ext sc : list float) : float :=
  sqrt (np.sum (np.map2 mul (np.square (np.map2 div (np.map2 sub sc ref_point) ext))
                        weights)).

(** That distance for the individual [p] of a heap, within the population
    [pop]. *)
Definition reference_distance_of (ref_point weights : list float) (st : Store)
  (pop : list ind_id) (p : ind_id) : float :=
  weighted_distance ref_point weights
    (scores_extend (map (fun q => score_values (st q)) pop)) (score_values (st p)).

(** [np.max(distances) - np.min(distances)] *)
Definition distance_spread (ds : list float) : float :=
  match ds with
  | [] => nan
  | d :: ds' => (fold_left np.maximum ds' d - fold_left np.minimum ds' d)%float
  end.

(** [np.max(distances)] and [np.min(distances)] *)
Definition distances_max (ds : list float) : float :=
  match ds with
  | [] => nan
  | d :: ds' => fold_left np.maximum ds' d
  end.
Definition distances_min (ds : list float) : float :=
  match ds with
  | [] => nan
  | d :: ds' => fold_left np.minimum ds' d
  end.

(** ** More of the source, and what the further statements use *)

(** [sort_population(population)].  The base class passes the two-argument
    [cmp_operator] as [key], so [sorted] calls it with one element and Python
    raises TypeError as soon as there is an element; the subclass wraps it in
    [cmp_to_key]. *)
Definition sort_population (self : Survival) (population : list ind_id) : M (list ind_id) :=
  match self with
  | RankAndCrowdSortSurvival _ _ =>
      match population with
      | [] => ret []
      | _ :: _ => raise TypeError
      end
  | RDominanceSurvival _ _ _ _ _ =>
      reads (fun st => sorted_cmp_reverse RDominance.cmp_operator st population)
  end.

(** [NSGAIISearcher.create_survival()] *)
Definition create_survival (directions : list OptimizeDirection) (population_size : Z)
  : Survival :=
  RankAndCrowdSortSurvival directions population_size.

(** The fields [NSGAIISearcher.__init__] sets that the survival and the
    selection read: an empty population, the survival and an empty history. *)
Definition NSGAIISearcher_init (directions : list OptimizeDirection) (population_size : Z)
  (random_state : RandomState) : NSGAIISearcher :=
  mkSearcher [] (create_survival directions population_size) [] random_state.

(** [get_population()] *)
Definition get_population (s : NSGAIISearcher) : list ind_id := population s.

(** A run of the searcher: one [update_result] per reported result, each on
    the identity of the individual constructed for it. *)
Fixpoint record_results
  (pareto_dominate_undirected : list score -> list score -> outcome bool)
  (s : NSGAIISearcher) (results : list (ind_id * list score)) : M NSGAIISearcher :=
  match results with
  | [] => ret s
  | (indi, result) :: rest =>
      bind (update_result pareto_dominate_undirected s indi result)
           (fun s' => record_results pareto_dominate_undirected s' rest)
  end.

(** The fronts are the layers of the dominance order [Rel]: the dominators of
    a member of front [k] all sit in earlier fronts, and, for [k > 0], one of
    them sits in front [k - 1]. *)
Definition layered (Rel : ind_id -> ind_id -> bool) (pop : list ind_id)
  (F : list (list ind_id)) : Prop :=
  forall k f q, nth_error F k = Some f -> In q f ->
    (forall p, In p pop -> dominated_by Rel q p = true ->
       exists j g, (j < k)%nat /\ nth_error F j = Some g /\ In p g)
    /\ (forall k', k = Datatypes.S k' ->
          exists g p, nth_error F k' = Some g /\ In p g /\ dominated_by Rel q p = true).

(** The index at which [p] first occurs in a list (the length of the list
    when it does not occur). *)
Fixpoint position (p : ind_id) (l : list ind_id) : nat :=
  match l with
  | [] => 0%nat
  | x :: l' => if Nat.eqb x p then 0%nat else Datatypes.S (position p l')
  end.

(** The distance of [r] with the terms of the first [M] objectives added to
    it in objective order, each taken at the position of [r] in the front
    sorted by that objective. *)
Definition accumulated_distance (st : Store) (I : list ind_id) (M : nat) (r : ind_id)
  : float :=
  fold_left (fun d m =>
               (d + contribution st I m (position r (sorted (score_lt st m) I)))%float)
            (seq 0 M) (NSGAIndividual.distance (st r)).

(** Every score of the individual is a number other than NaN, so that the
    scores of a front of such individuals are totally ordered on every
    objective. *)
Definition no_nan_scores (x : NSGAIndividual.t) : bool :=
  forallb (fun v => negb (is_nan v)) (score_values x).

(** * Facts about binary64 comparison

    The primitive comparisons are related to [SFcompare] by the library's
    specification of the primitive floats. *)

Module FloatOrder.

Lemma SFcompare_antisym x y c :
  SFcompare x y = Some c -> SFcompare y x = Some (CompOpp c).
Proof.
  destruct x as [sx|sx| |sx mx ex], y as [sy|sy| |sy my ey]; simpl; try discriminate;
    try (destruct sx); try (destruct sy); intros H; inversion H; clear H; subst;
    simpl; try reflexivity.
  all: rewrite (Z.compare_antisym ey ex); destruct (ey ?= ex)%Z; simpl; try reflexivity.
  all: fold (Pos.compare mx my); fold (Pos.compare my mx);
    rewrite (Pos.compare_antisym my mx); destruct (my ?= mx)%positive; reflexivity.
Qed.

Ltac cmp_cases :=
  repeat match goal with
  | H : context [Pos.compare_cont Eq ?a ?b] |- _ =>
      change (Pos.compare_cont Eq a b) with (Pos.compare a b) in H
  | |- context [Pos.compare_cont Eq ?a ?b] =>
      change (Pos.compare_cont Eq a b) with (Pos.compare a b)
  end;
  repeat match goal with
  | H : context [Z.compare ?a ?b] |- _ => destruct (Z.compare_spec a b); simpl in H
  | |- context [Z.compare ?a ?b] => destruct (Z.compare_spec a b); simpl
  | H : context [Pos.compare ?a ?b] |- _ => destruct (Pos.compare_spec a b); simpl in H
  | |- context [Pos.compare ?a ?b] => destruct (Pos.compare_spec a b); simpl
  end; subst; try discriminate; try reflexivity; try lia.

Lemma SFcompare_lt_trans x y z :
  SFcompare x y = Some Lt -> SFcompare y z = Some Lt -> SFcompare x z = Some Lt.
Proof.
  destruct x as [sx|sx| |sx mx ex], y as [sy|sy| |sy my ey], z as [sz|sz| |sz mz ez];
    simpl; try discriminate;
    try (destruct sx); try (destruct sy); try (destruct sz); simpl;
    try discriminate; try reflexivity;
    intros H1 H2; injection H1 as H1; injection H2 as H2; f_equal; cmp_cases.
Qed.

Lemma SFcompare_eq_l x y z c :
  SFcompare x y = Some Eq -> SFcompare y z = Some c -> SFcompare x z = Some c.
Proof.
  destruct x as [sx|sx| |sx mx ex], y as [sy|sy| |sy my ey], z as [sz|sz| |sz mz ez];
    simpl; try discriminate;
    try (destruct sx); try (destruct sy); try (destruct sz); simpl;
    try discriminate; try (intros _ H; exact H);
    intros H1 H2; injection H1 as H1; injection H2 as H2; subst c; f_equal; cmp_cases.
Qed.

Lemma SFcompare_eq_r x y z c :
  SFcompare x y = Some c -> SFcompare y z = Some Eq -> SFcompare x z = Some c.
Proof.
  intros H1 H2.
  apply SFcompare_antisym in H1. apply SFcompare_antisym in H2. simpl in H2.
  pose proof (SFcompare_eq_l _ _ _ _ H2 H1) as H.
  apply SFcompare_antisym in H. now rewrite CompOpp_involutive in H.
Qed.

Lemma SFcompare_refl x c : SFcompare x x = Some c -> c = Eq.
Proof.
  intros H. pose proof (SFcompare_antisym _ _ _ H) as H'.
  rewrite H in H'. destruct c; simpl in H'; congruence.
Qed.

Lemma SFcompare_some x y :
  x <> S754_nan -> y <> S754_nan -> exists c, SFcompare x y = Some c.
Proof.
  destruct x, y; simpl; intros; try congruence; eauto.
Qed.

(** The view of a primitive comparison the proofs work with. *)
Definition cmp (x y : float) : option comparison := SFcompare (Prim2SF x) (Prim2SF y).

Lemma ltb_cmp x y : (x <? y)%float = true <-> cmp x y = Some Lt.
Proof.
  rewrite ltb_spec. unfold SFltb, cmp. destruct (SFcompare _ _) as [[]|]; split; congruence.
Qed.

Lemma leb_cmp x y : (x <=? y)%float = true <-> (cmp x y = Some Lt \/ cmp x y = Some Eq).
Proof.
  rewrite leb_spec. unfold SFleb, cmp.
  destruct (SFcompare _ _) as [[]|]; split; intros; try tauto; try congruence;
    destruct H; congruence.
Qed.

Lemma eqb_cmp x y : (x =? y)%float = true <-> cmp x y = Some Eq.
Proof.
  rewrite eqb_spec. unfold SFeqb, cmp. destruct (SFcompare _ _) as [[]|]; split; congruence.
Qed.

Lemma is_nan_cmp x : is_nan x = false <-> Prim2SF x <> S754_nan.
Proof.
  unfold is_nan. rewrite negb_false_iff, eqb_cmp. unfold cmp. split.
  - intros H E. rewrite E in H. discriminate.
  - intros H. destruct (SFcompare_some _ _ H H) as [c Hc].
    rewrite Hc. f_equal. eapply SFcompare_refl; eauto.
Qed.

Lemma ltb_irrefl x : (x <? x)%float = false.
Proof.
  destruct (x <? x)%float eqn:E; [|reflexivity].
  apply ltb_cmp in E. apply SFcompare_refl in E. discriminate.
Qed.

Lemma ltb_asym x y : (x <? y)%float = true -> (y <? x)%float = false.
Proof.
  intros H. destruct (y <? x)%float eqn:E; [|reflexivity].
  apply ltb_cmp in H, E. apply SFcompare_antisym in H. unfold cmp in E.
  rewrite H in E. discriminate.
Qed.

Lemma leb_trans x y z :
  (x <=? y)%float = true -> (y <=? z)%float = true -> (x <=? z)%float = true.
Proof.
  rewrite !leb_cmp. unfold cmp. intros [H1|H1] [H2|H2].
  - left. eapply SFcompare_lt_trans; eauto.
  - left. eapply SFcompare_eq_r; eauto.
  - left. eapply SFcompare_eq_l; eauto.
  - right. eapply SFcompare_eq_l; eauto.
Qed.

Lemma ltb_leb_trans x y z :
  (x <? y)%float = true -> (y <=? z)%float = true -> (x <? z)%float = true.
Proof.
  rewrite leb_cmp, !ltb_cmp. unfold cmp. intros H1 [H2|H2].
  - eapply SFcompare_lt_trans; eauto.
  - eapply SFcompare_eq_r; eauto.
Qed.

Lemma leb_ltb_trans x y z :
  (x <=? y)%float = true -> (y <? z)%float = true -> (x <? z)%float = true.
Proof.
  rewrite leb_cmp, !ltb_cmp. unfold cmp. intros [H1|H1] H2.
  - eapply SFcompare_lt_trans; eauto.
  - eapply SFcompare_eq_l; eauto.
Qed.

End FloatOrder.

(** * numpy's pairwise summation never runs out of fuel *)

Lemma pairwise_sum_fuel : forall f1 f2 (l : list float),
  (length l <= f1)%nat -> (length l <= f2)%nat ->
  np.pairwise_sum f1 l = np.pairwise_sum f2 l.
Proof.
  induction f1 as [|f1 IH]; intros f2 l H1 H2.
  - destruct l; [|simpl in H1; lia]. destruct f2; reflexivity.
  - destruct l as [|a0 [|a1 [|a2 [|a3 [|a4 [|a5 [|a6 [|a7 l']]]]]]]];
      try (destruct f2; reflexivity).
    destruct f2 as [|f2]; [simpl in H2; lia|].
    set (l := a0 :: a1 :: a2 :: a3 :: a4 :: a5 :: a6 :: a7 :: l') in *.
    change (np.pairwise_sum (S f1) l)
      with (if (length l <=? 128)%nat then np.unrolled_sum a0 a1 a2 a3 a4 a5 a6 a7 l'
            else (np.pairwise_sum f1 (firstn (length l / 2 - (length l / 2) mod 8) l)
                  + np.pairwise_sum f1 (skipn (length l / 2 - (length l / 2) mod 8) l))%float).
    change (np.pairwise_sum (S f2) l)
      with (if (length l <=? 128)%nat then np.unrolled_sum a0 a1 a2 a3 a4 a5 a6 a7 l'
            else (np.pairwise_sum f2 (firstn (length l / 2 - (length l / 2) mod 8) l)
                  + np.pairwise_sum f2 (skipn (length l / 2 - (length l / 2) mod 8) l))%float).
    destruct (Nat.leb_spec (length l) 128) as [Hle|Hgt]; [reflexivity|].
    assert (Hhalf : (length l / 2 <= length l)%nat) by (apply Nat.Div0.div_le_upper_bound; lia).
    assert (Hhalf2 : (2 * (length l / 2) <= length l)%nat)
      by (apply Nat.Div0.mul_div_le).
    assert (Hhalf3 : (length l < 2 * (length l / 2) + 2)%nat).
    { pose proof (Nat.div_mod_eq (length l) 2) as Hd.
      pose proof (Nat.mod_upper_bound (length l) 2 ltac:(lia)). lia. }
    assert (Hmod : ((length l / 2) mod 8 < 8)%nat) by (apply Nat.mod_upper_bound; lia).
    assert (Hmod2 : ((length l / 2) mod 8 <= length l / 2)%nat)
      by (apply Nat.Div0.mod_le).
    f_equal.
    + apply IH; rewrite length_firstn; lia.
    + apply IH; rewrite length_skipn; lia.
Qed.

(** * Pareto dominance is a strict partial order on vectors of one length *)

Lemma some_strictly_better_irrefl dirs a : some_strictly_better dirs a a = false.
Proof.
  revert a. induction dirs as [|d dirs IH]; intros [|x a]; simpl; auto.
  rewrite IH, orb_false_r. destruct d; simpl; apply FloatOrder.ltb_irrefl.
Qed.

Lemma dominates_irrefl dirs a : dominates dirs a a = false.
Proof.
  unfold dominates. now rewrite some_strictly_better_irrefl, andb_false_r.
Qed.

Lemma all_better_or_equal_trans dirs : forall a b c,
  length b = length dirs ->
  all_better_or_equal dirs a b = true -> all_better_or_equal dirs b c = true ->
  all_better_or_equal dirs a c = true.
Proof.
  induction dirs as [|d dirs IH]; intros [|x a] [|y b] [|z c] Hb; simpl; auto;
    try discriminate.
  injection Hb as Hb.
  rewrite !andb_true_iff. intros [H1 H2] [H3 H4]. split.
  - destruct d; simpl in *; eapply FloatOrder.leb_trans; eauto.
  - apply (IH a b c); assumption.
Qed.

Lemma some_strictly_better_trans dirs : forall a b c,
  length b = length dirs -> length c = length dirs ->
  all_better_or_equal dirs a b = true -> some_strictly_better dirs a b = true ->
  all_better_or_equal dirs b c = true ->
  some_strictly_better dirs a c = true.
Proof.
  induction dirs as [|d dirs IH]; intros [|x a] [|y b] [|z c] Hb Hc; simpl in *;
    try easy.
  injection Hb as Hb. injection Hc as Hc.
  rewrite !andb_true_iff, !orb_true_iff. intros [H1 H2] [H3|H3] [H4 H5].
  - left. destruct d; simpl in *.
    + eapply FloatOrder.ltb_leb_trans; eauto.
    + eapply FloatOrder.leb_ltb_trans; eauto.
  - right. apply (IH a b c); assumption.
Qed.

Lemma dominates_trans dirs a b c :
  length b = length dirs -> length c = length dirs ->
  dominates dirs a b = true -> dominates dirs b c = true -> dominates dirs a c = true.
Proof.
  unfold dominates. rewrite !andb_true_iff. intros Hb Hc [H1 H2] [H3 H4]. split.
  - apply (all_better_or_equal_trans dirs a b c); assumption.
  - apply (some_strictly_better_trans dirs a b c); assumption.
Qed.

(** * Reasoning about heap computations *)

Lemma bind_Ok {A B} (c : M A) (k : A -> M B) {st a st'} :
  c st = Ok (a, st') -> bind c k st = k a st'.
Proof. unfold bind. now intros ->. Qed.

Lemma upd_same st p v : upd st p v p = v.
Proof. unfold upd. now rewrite Nat.eqb_refl. Qed.

Lemma upd_other st p v q : q <> p -> upd st p v q = st q.
Proof. unfold upd. intros H. apply Nat.eqb_neq in H. now rewrite H. Qed.

Lemma mem_In p l : mem p l = true <-> In p l.
Proof.
  unfold mem. rewrite existsb_exists. split.
  - intros [x [H1 H2]]. apply Nat.eqb_eq in H2. now subst.
  - intros H. exists p. split; auto. apply Nat.eqb_refl.
Qed.

Lemma mem_app p l1 l2 : mem p (l1 ++ l2) = mem p l1 || mem p l2.
Proof. unfold mem. apply existsb_app. Qed.

Lemma mem_false p l : mem p l = false <-> ~ In p l.
Proof.
  rewrite <- mem_In. destruct (mem p l); split; congruence.
Qed.

Lemma nums_fully_scored dirs x :
  fully_scored dirs x = true -> np.nums (NSGAIndividual.scores x) = Ok (score_values x).
Proof.
  unfold fully_scored, score_values. rewrite andb_true_iff. intros [_ H].
  induction (NSGAIndividual.scores x) as [|[v|] l IH]; simpl in *; try discriminate; auto.
  now rewrite IH.
Qed.

Lemma score_values_length dirs x :
  fully_scored dirs x = true -> length (score_values x) = length dirs.
Proof.
  unfold fully_scored, score_values. rewrite andb_true_iff, Nat.eqb_eq.
  intros [H _]. now rewrite length_map.
Qed.

Lemma pareto_dominate_fully_scored dirs x y :
  fully_scored dirs x = true -> fully_scored dirs y = true ->
  pareto_dominate_directed (NSGAIndividual.scores x) (NSGAIndividual.scores y) dirs
  = Ok (dominates dirs (score_values x) (score_values y)).
Proof.
  intros Hx Hy. unfold pareto_dominate_directed.
  rewrite (nums_fully_scored _ _ Hx), (nums_fully_scored _ _ Hy).
  unfold fully_scored in Hx, Hy. apply andb_true_iff in Hx, Hy.
  destruct Hx as [Hx _], Hy as [Hy _]. rewrite Hx, Hy. reflexivity.
Qed.

(** * The first loop of the sort: dominance counts *)

Section DominanceCounts.
Variable pareto_dominate_undirected : list score -> list score -> outcome bool.
Variable self : Survival.
Variable pop : list ind_id.
Variable Rel : ind_id -> ind_id -> bool.
Variable sc0 : ind_id -> list score.

Definition same_scores (st : Store) : Prop :=
  forall i, In i pop -> NSGAIndividual.scores (st i) = sc0 i.

(** [dominate] answers by [Rel] and leaves the heap alone. *)
Hypothesis dominate_pure : forall st p q,
  same_scores st -> In p pop -> In q pop ->
  dominate pareto_dominate_undirected self p q pop st = Ok (Rel p q, st).

Lemma same_scores_upd st p x :
  same_scores st -> NSGAIndividual.scores x = NSGAIndividual.scores (st p) ->
  same_scores (upd st p x).
Proof.
  intros H Hx i Hi. unfold upd. destruct (Nat.eqb i p) eqn:E.
  - apply Nat.eqb_eq in E. subst. rewrite Hx. now apply H.
  - now apply H.
Qed.

Ltac same_scores_tac :=
  repeat (apply same_scores_upd; [|reflexivity]); auto.

Ltac fields_eq :=
  unfold extend_sets, NSGAIndividual.set_S, NSGAIndividual.set_T,
    NSGAIndividual.set_n, NSGAIndividual.set_rank, NSGAIndividual.set_distance;
  simpl; rewrite ?app_nil_r, ?Z.add_0_r; try reflexivity; f_equal; lia.

Lemma extend_sets_nil x : extend_sets [] [] x = x.
Proof.
  destruct x. unfold extend_sets. simpl. rewrite !app_nil_r. f_equal. lia.
Qed.

Lemma extend_sets_app s t s' t' x :
  extend_sets s' t' (extend_sets s t x) = extend_sets (s ++ s') (t ++ t') x.
Proof.
  unfold extend_sets. simpl. rewrite !app_assoc, length_app. f_equal. lia.
Qed.

Lemma compare_pair_spec {p q st} :
  same_scores st -> In p pop -> In q pop ->
  exists st',
    compare_pair pareto_dominate_undirected self pop p q st = Ok (tt, st')
    /\ same_scores st'
    /\ (forall i, i <> p -> st' i = st i)
    /\ st' p = extend_sets (filter (dominating Rel p) [q])
                           (filter (dominated_by Rel p) [q]) (st p).
Proof.
  intros Hsc Hp Hq. unfold compare_pair, dominating, dominated_by. simpl filter.
  destruct (Nat.eqb p q) eqn:E; simpl negb; simpl andb.
  - exists st. rewrite extend_sets_nil. repeat split; auto.
  - rewrite (bind_Ok _ _ (dominate_pure _ _ _ Hsc Hp Hq)).
    destruct (Rel p q) eqn:E1.
    + erewrite bind_Ok by reflexivity.
      set (st1 := upd st p _).
      assert (Hsc1 : same_scores st1) by (unfold st1; same_scores_tac).
      rewrite (bind_Ok _ _ (dominate_pure _ _ _ Hsc1 Hq Hp)).
      destruct (Rel q p) eqn:E2.
      * erewrite bind_Ok by reflexivity.
        eexists. split; [reflexivity|]. split; [|split].
        -- same_scores_tac.
        -- intros i Hi. unfold st1. now rewrite !upd_other.
        -- rewrite !upd_same. unfold st1. rewrite !upd_same. fields_eq.
      * eexists. split; [reflexivity|]. split; [|split]; auto.
        -- intros i Hi. unfold st1. now rewrite upd_other.
        -- unfold st1. rewrite upd_same. fields_eq.
    + erewrite bind_Ok by reflexivity.
      rewrite (bind_Ok _ _ (dominate_pure _ _ _ Hsc Hq Hp)).
      destruct (Rel q p) eqn:E2.
      * erewrite bind_Ok by reflexivity.
        eexists. split; [reflexivity|]. split; [|split].
        -- same_scores_tac.
        -- intros i Hi. now rewrite !upd_other.
        -- rewrite !upd_same. fields_eq.
      * exists st. rewrite extend_sets_nil. repeat split; auto.
Qed.

Lemma compare_loop_spec {p} : In p pop -> forall {l}, incl l pop -> forall {st},
  same_scores st ->
  exists st',
    for_each l (compare_pair pareto_dominate_undirected self pop p) st = Ok (tt, st')
    /\ same_scores st'
    /\ (forall i, i <> p -> st' i = st i)
    /\ st' p = extend_sets (filter (dominating Rel p) l)
                           (filter (dominated_by Rel p) l) (st p).
Proof.
  intros Hp. induction l as [|q l IH]; intros Hl st Hsc.
  - exists st. simpl. rewrite extend_sets_nil. repeat split; auto.
  - assert (Hq : In q pop) by (apply Hl; now left).
    assert (Hl' : incl l pop) by (intros i Hi; apply Hl; now right).
    destruct (compare_pair_spec Hsc Hp Hq) as (st1 & E1 & Hsc1 & Hfr1 & Hp1).
    destruct (IH Hl' st1 Hsc1) as (st2 & E2 & Hsc2 & Hfr2 & Hp2).
    exists st2. split; [|split; [|split]]; auto.
    + cbn [for_each]. now rewrite (bind_Ok _ _ E1).
    + intros i Hi. now rewrite Hfr2, Hfr1.
    + rewrite Hp2, Hp1, extend_sets_app.
      change (q :: l) with ([q] ++ l). now rewrite !filter_app.
Qed.

Lemma count_dominators_spec F_1 {p st} :
  same_scores st -> In p pop ->
  NSGAIndividual.S (st p) = [] -> NSGAIndividual.T (st p) = [] ->
  exists st',
    count_dominators pareto_dominate_undirected self pop F_1 p st
    = Ok (F_1 ++ filter (fun p => Nat.eqb (length (dominators Rel pop p)) 0) [p], st')
    /\ same_scores st'
    /\ (forall i, i <> p -> st' i = st i)
    /\ st' p = NSGAIndividual.mk (NSGAIndividual.scores (st p))
                 (if Nat.eqb (length (dominators Rel pop p)) 0 then 0%Z
                  else NSGAIndividual.rank (st p))
                 (dominated Rel pop p) (Z.of_nat (length (dominators Rel pop p)))
                 (dominators Rel pop p) (NSGAIndividual.distance (st p)).
Proof.
  intros Hsc Hp HS HT. unfold count_dominators.
  erewrite bind_Ok by reflexivity.
  set (st0 := upd st p _).
  assert (Hsc0 : same_scores st0) by (unfold st0; same_scores_tac).
  destruct (compare_loop_spec Hp (incl_refl pop) Hsc0) as (st1 & E1 & Hsc1 & Hfr1 & Hp1).
  rewrite (bind_Ok _ _ E1).
  erewrite bind_Ok by reflexivity.
  assert (Hn : NSGAIndividual.n (st1 p) = Z.of_nat (length (dominators Rel pop p))).
  { rewrite Hp1. unfold st0. rewrite upd_same. reflexivity. }
  rewrite Hn. simpl filter.
  destruct (length (dominators Rel pop p)) as [|k] eqn:Ek.
  - simpl. erewrite bind_Ok by reflexivity.
    eexists. split; [reflexivity|]. split; [|split].
    + same_scores_tac.
    + intros i Hi. rewrite upd_other, Hfr1 by auto. unfold st0. now rewrite upd_other.
    + rewrite upd_same, Hp1. unfold st0. rewrite upd_same.
      unfold extend_sets, NSGAIndividual.set_rank, NSGAIndividual.set_n. simpl.
      rewrite HS, HT. unfold dominators in Ek. fold (dominated Rel pop p).
      fold (dominators Rel pop p). unfold dominators at 1. rewrite Ek. reflexivity.
  - replace (Z.of_nat (Datatypes.S k) =? 0)%Z with false by (symmetry; apply Z.eqb_neq; lia).
    simpl. rewrite app_nil_r.
    exists st1. split; [reflexivity|]. split; [|split]; auto.
    + intros i Hi. rewrite Hfr1 by auto. unfold st0. now rewrite upd_other.
    + rewrite Hp1. unfold st0. rewrite upd_same.
      unfold extend_sets, NSGAIndividual.set_n. simpl.
      rewrite HS, HT. fold (dominated Rel pop p). fold (dominators Rel pop p).
      rewrite Ek. simpl. reflexivity.
Qed.

Lemma count_loop_spec : forall l, NoDup l -> incl l pop -> forall F_1 st,
  same_scores st ->
  (forall p, In p l -> st p = NSGAIndividual.reset (st p)) ->
  exists st',
    for_fold l F_1 (count_dominators pareto_dominate_undirected self pop) st
    = Ok (F_1 ++ filter (fun p => Nat.eqb (length (dominators Rel pop p)) 0) l, st')
    /\ same_scores st'
    /\ (forall i, ~ In i l -> st' i = st i)
    /\ (forall p, In p l -> st' p = counted Rel pop (sc0 p) p).
Proof.
  induction l as [|p l IH]; intros Hnd Hl F_1 st Hsc Hreset.
  - exists st. simpl. rewrite app_nil_r. repeat split; auto. intros p [].
  - inversion Hnd as [|? ? Hnotin Hnd']; subst.
    assert (Hp : In p pop) by (apply Hl; now left).
    assert (Hl' : incl l pop) by (intros i Hi; apply Hl; now right).
    assert (Hrp : st p = NSGAIndividual.reset (st p)) by (apply Hreset; now left).
    assert (HS : NSGAIndividual.S (st p) = []) by (rewrite Hrp; reflexivity).
    assert (HT : NSGAIndividual.T (st p) = []) by (rewrite Hrp; reflexivity).
    destruct (count_dominators_spec F_1 Hsc Hp HS HT) as (st1 & E1 & Hsc1 & Hfr1 & Hp1).
    assert (Hreset1 : forall q, In q l -> st1 q = NSGAIndividual.reset (st1 q)).
    { intros q Hq. assert (q <> p) by (intros ->; contradiction).
      rewrite Hfr1 by auto. apply Hreset. now right. }
    destruct (IH Hnd' Hl'
                (F_1 ++ filter (fun p => Nat.eqb (length (dominators Rel pop p)) 0) [p])
                st1 Hsc1 Hreset1) as (st2 & E2 & Hsc2 & Hfr2 & Hp2).
    exists st2. split; [|split; [|split]]; auto.
    + cbn [for_fold]. rewrite (bind_Ok _ _ E1), E2.
      change (p :: l) with ([p] ++ l). now rewrite filter_app, app_assoc.
    + intros i Hi. rewrite Hfr2, Hfr1; auto.
      * intros ->. apply Hi. now left.
      * intros Hi'. apply Hi. now right.
    + intros q [E|Hq]; [subst q|now apply Hp2].
      rewrite Hfr2, Hp1 by auto. unfold counted.
      rewrite Hrp. simpl. rewrite (Hsc p Hp).
      destruct (Nat.eqb _ 0); reflexivity.
Qed.

Lemma reset_loop_spec : forall l st, same_scores st ->
  exists st',
    for_each l reset st = Ok (tt, st')
    /\ same_scores st'
    /\ (forall i, ~ In i l -> st' i = st i)
    /\ (forall p, In p l -> st' p = NSGAIndividual.reset (st p)).
Proof.
  induction l as [|p l IH]; intros st Hsc.
  - exists st. simpl. repeat split; auto. intros p [].
  - set (st1 := upd st p (NSGAIndividual.reset (st p))).
    assert (Hsc1 : same_scores st1) by (unfold st1; same_scores_tac).
    destruct (IH st1 Hsc1) as (st2 & E2 & Hsc2 & Hfr2 & Hp2).
    exists st2. split; [exact E2|split; [exact Hsc2|split]].
    + intros i Hi. rewrite Hfr2.
      * unfold st1. rewrite upd_other; auto. intros ->. apply Hi. now left.
      * intros Hi'. apply Hi. now right.
    + intros q Hq. destruct (in_dec Nat.eq_dec q l) as [Hin|Hnin].
      * rewrite (Hp2 _ Hin). unfold st1, upd.
        destruct (Nat.eqb q p) eqn:E; [|reflexivity].
        apply Nat.eqb_eq in E. subst q. reflexivity.
      * destruct Hq as [->|Hq]; [|contradiction].
        rewrite (Hfr2 _ Hnin). unfold st1. now rewrite upd_same.
Qed.

(** The heap and front 0 when the first loop of the sort is over. *)
Lemma first_loop_spec st :
  NoDup pop -> same_scores st ->
  exists st',
    bind (for_each pop reset)
         (fun _ => for_fold pop [] (count_dominators pareto_dominate_undirected self pop)) st
    = Ok (first_front Rel pop, st')
    /\ same_scores st'
    /\ (forall i, ~ In i pop -> st' i = st i)
    /\ (forall p, In p pop -> st' p = counted Rel pop (sc0 p) p).
Proof.
  intros Hnd Hsc.
  destruct (reset_loop_spec pop st Hsc) as (st1 & E1 & Hsc1 & Hfr1 & Hp1).
  assert (Hreset : forall p, In p pop -> st1 p = NSGAIndividual.reset (st1 p)).
  { intros p Hp. rewrite (Hp1 _ Hp). reflexivity. }
  destruct (count_loop_spec pop Hnd (incl_refl pop) [] st1 Hsc1 Hreset)
    as (st2 & E2 & Hsc2 & Hfr2 & Hp2).
  exists st2. split; [|split; [|split]]; auto.
  - rewrite (bind_Ok _ _ E1). exact E2.
  - intros i Hi. now rewrite Hfr2, Hfr1.
Qed.

End DominanceCounts.

(** * The second loop of the sort: peeling the fronts *)

Lemma individual_ext (x y : NSGAIndividual.t) :
  same_static x y -> NSGAIndividual.rank x = NSGAIndividual.rank y ->
  NSGAIndividual.n x = NSGAIndividual.n y -> x = y.
Proof.
  destruct x, y. unfold same_static. simpl. intros (-> & -> & -> & ->) -> ->. reflexivity.
Qed.

Lemma same_static_refl x : same_static x x.
Proof. unfold same_static. auto. Qed.

Lemma same_static_trans x y z : same_static x y -> same_static y z -> same_static x z.
Proof.
  unfold same_static. intros (a & b & c & d) (a' & b' & c' & d').
  repeat split; congruence.
Qed.

Lemma release_spec i Q q st :
  exists st',
    release i Q q st
    = Ok (Q ++ (if (NSGAIndividual.n (st q) - 1 =? 0)%Z then [q] else []), st')
    /\ (forall r, same_static (st' r) (st r))
    /\ (forall r, NSGAIndividual.n (st' r)
                  = if Nat.eqb r q then (NSGAIndividual.n (st r) - 1)%Z
                    else NSGAIndividual.n (st r))
    /\ (forall r, NSGAIndividual.rank (st' r)
                  = if Nat.eqb r q && (NSGAIndividual.n (st q) - 1 =? 0)%Z then (i + 1)%Z
                    else NSGAIndividual.rank (st r)).
Proof.
  unfold release.
  erewrite bind_Ok by reflexivity. erewrite bind_Ok by reflexivity.
  rewrite upd_same. cbn [NSGAIndividual.n NSGAIndividual.set_n].
  destruct (NSGAIndividual.n (st q) - 1 =? 0)%Z eqn:E.
  - erewrite bind_Ok by reflexivity.
    eexists. split; [reflexivity|]. split; [|split]; intros r; unfold upd;
      destruct (Nat.eqb r q) eqn:Er; try apply same_static_refl; try reflexivity;
      apply Nat.eqb_eq in Er; subst r; rewrite ?Nat.eqb_refl;
      unfold same_static; simpl; auto.
  - rewrite app_nil_r.
    eexists. split; [reflexivity|]. split; [|split]; intros r; unfold upd;
      destruct (Nat.eqb r q) eqn:Er; try apply same_static_refl; try reflexivity;
      apply Nat.eqb_eq in Er; subst r; unfold same_static; simpl; auto.
Qed.

Lemma release_loop_spec i : forall L Q st,
  exists Q' st',
    for_fold L Q (release i) st = Ok (Q ++ Q', st')
    /\ (forall r, same_static (st' r) (st r))
    /\ (forall r, NSGAIndividual.n (st' r)
                  = (NSGAIndividual.n (st r) - Z.of_nat (count_occ Nat.eq_dec L r))%Z)
    /\ (forall r, NSGAIndividual.rank (st' r)
                  = if mem r Q' then (i + 1)%Z else NSGAIndividual.rank (st r))
    /\ incl Q' L
    /\ ((forall r, In r L ->
           (Z.of_nat (count_occ Nat.eq_dec L r) <= NSGAIndividual.n (st r))%Z) ->
        NoDup Q'
        /\ forall r, In r Q' <->
             (In r L /\ NSGAIndividual.n (st r) = Z.of_nat (count_occ Nat.eq_dec L r))).
Proof.
  induction L as [|q L IH]; intros Q st.
  - exists [], st. simpl. rewrite app_nil_r.
    split; [reflexivity|]. split; [intros; apply same_static_refl|].
    split; [intros; lia|]. split; [reflexivity|]. split; [apply incl_refl|].
    intros _. split; [constructor|]. intros r. split; [intros []|intros [[] _]].
  - destruct (release_spec i Q q st) as (st1 & E1 & Hs1 & Hn1 & Hr1).
    set (hit := (NSGAIndividual.n (st q) - 1 =? 0)%Z) in *.
    set (Q1 := if hit then [q] else []) in *.
    destruct (IH (Q ++ Q1) st1) as (Q2 & st2 & E2 & Hs2 & Hn2 & Hr2 & Hincl2 & Hchar2).
    exists (Q1 ++ Q2), st2.
    split; [|split; [|split; [|split; [|split]]]].
    + cbn [for_fold]. rewrite (bind_Ok _ _ E1), E2. now rewrite app_assoc.
    + intros r. eapply same_static_trans; [apply Hs2|apply Hs1].
    + intros r. rewrite Hn2, Hn1. cbn [count_occ].
      destruct (Nat.eq_dec q r) as [->|Hne].
      * rewrite Nat.eqb_refl. lia.
      * replace (Nat.eqb r q) with false by (symmetry; apply Nat.eqb_neq; congruence). lia.
    + intros r. rewrite Hr2, Hr1, mem_app.
      destruct (mem r Q2); [now rewrite orb_true_r|]. rewrite orb_false_r.
      unfold Q1. destruct hit; simpl; rewrite ?andb_false_r, ?andb_true_r, ?orb_false_r;
        reflexivity.
    + intros r Hr. apply in_app_or in Hr. destruct Hr as [Hr|Hr].
      * unfold Q1 in Hr. destruct hit; [|contradiction]. destruct Hr as [->|[]]. now left.
      * right. now apply Hincl2.
    + intros Hb.
      assert (Hb1 : forall r, In r L ->
                (Z.of_nat (count_occ Nat.eq_dec L r) <= NSGAIndividual.n (st1 r))%Z).
      { intros r Hr. specialize (Hb r (or_intror Hr)). rewrite Hn1.
        cbn [count_occ] in Hb. destruct (Nat.eq_dec q r) as [->|Hne].
        - rewrite Nat.eqb_refl. lia.
        - replace (Nat.eqb r q) with false by (symmetry; apply Nat.eqb_neq; congruence). lia. }
      destruct (Hchar2 Hb1) as [Hnd2 Hin2].
      assert (Hq := Hb q (or_introl eq_refl)). cbn [count_occ] in Hq.
      destruct (Nat.eq_dec q q) as [_|]; [|congruence].
      assert (Hstep : forall r, r <> q -> NSGAIndividual.n (st1 r) = NSGAIndividual.n (st r)).
      { intros r Hne. rewrite Hn1.
        now replace (Nat.eqb r q) with false by (symmetry; apply Nat.eqb_neq; congruence). }
      assert (Hstepq : NSGAIndividual.n (st1 q) = (NSGAIndividual.n (st q) - 1)%Z).
      { rewrite Hn1. now rewrite Nat.eqb_refl. }
      unfold Q1. destruct hit eqn:Ehit; unfold hit in Ehit.
      * apply Z.eqb_eq in Ehit.
        assert (Hc0 : count_occ Nat.eq_dec L q = 0%nat) by lia.
        assert (HnotL : ~ In q L) by (now apply count_occ_not_In in Hc0).
        split.
        -- simpl. constructor; [rewrite Hin2; tauto|exact Hnd2].
        -- intros r. simpl. rewrite Hin2. cbn [count_occ].
           destruct (Nat.eq_dec q r) as [->|Hne].
           ++ rewrite Hc0. split; [intros _; split; [now left|lia]|intros _; now left].
           ++ rewrite Hstep by congruence. tauto.
      * apply Z.eqb_neq in Ehit. split; [exact Hnd2|].
        intros r. simpl. rewrite Hin2. cbn [count_occ].
        destruct (Nat.eq_dec q r) as [->|Hne].
        -- rewrite Hstepq. split.
           ++ intros [HinL Hn]. split; [now left|lia].
           ++ intros [_ Hn]. split; [|lia].
              apply (count_occ_In Nat.eq_dec). lia.
        -- rewrite Hstep by congruence. tauto.
Qed.

Lemma for_fold_app {A B} (f : B -> A -> M B) : forall l1 l2 acc st,
  for_fold (l1 ++ l2) acc f st = bind (for_fold l1 acc f) (fun a => for_fold l2 a f) st.
Proof.
  induction l1 as [|x l1 IH]; intros l2 acc st.
  - reflexivity.
  - cbn [for_fold app]. unfold bind.
    destruct (f acc x st) as [[a s]| |]; [apply IH|reflexivity|reflexivity].
Qed.

Lemma next_front_eq i : forall front Q st,
  for_fold front Q
    (fun Q p => bind (get p) (fun x => for_fold (NSGAIndividual.S x) Q (release i))) st
  = for_fold (flat_map (fun p => NSGAIndividual.S (st p)) front) Q (release i) st.
Proof.
  induction front as [|p front IH]; intros Q st.
  - reflexivity.
  - cbn [for_fold flat_map]. rewrite for_fold_app.
    destruct (release_loop_spec i (NSGAIndividual.S (st p)) Q st)
      as (Q' & st1 & E & Hs & _).
    rewrite (bind_Ok _ _ E).
    assert (E' : bind (get p) (fun x => for_fold (NSGAIndividual.S x) Q (release i)) st
                 = Ok (Q ++ Q', st1)) by exact E.
    rewrite (bind_Ok _ _ E'), IH.
    replace (flat_map (fun p0 => NSGAIndividual.S (st1 p0)) front)
      with (flat_map (fun p0 => NSGAIndividual.S (st p0)) front); [reflexivity|].
    apply flat_map_ext. intros a. symmetry. apply Hs.
Qed.

Lemma count_occ_filter_NoDup (f : ind_id -> bool) : forall l q, NoDup l ->
  count_occ Nat.eq_dec (filter f l) q = if f q && mem q l then 1%nat else 0%nat.
Proof.
  induction l as [|x l IH]; intros q Hnd.
  - simpl. now rewrite andb_false_r.
  - inversion Hnd as [|? ? Hx Hnd']; subst. specialize (IH q Hnd').
    cbn [filter mem existsb]. fold (mem q l).
    destruct (Nat.eqb q x) eqn:E.
    + apply Nat.eqb_eq in E. subst x.
      assert (Hm : mem q l = false) by (now apply mem_false).
      rewrite Hm, andb_false_r in IH. rewrite orb_true_l, andb_true_r.
      destruct (f q); [|exact IH].
      cbn [count_occ]. destruct (Nat.eq_dec q q); [|congruence]. now rewrite IH.
    + rewrite orb_false_l. apply Nat.eqb_neq in E.
      destruct (f x); [|exact IH].
      cbn [count_occ]. destruct (Nat.eq_dec x q); [congruence|exact IH].
Qed.

Lemma filter_length_split {A} (f g : A -> bool) : forall l,
  length (filter f l)
  = (length (filter (fun x => f x && g x) l)
     + length (filter (fun x => f x && negb (g x)) l))%nat.
Proof.
  induction l as [|x l IH]; simpl; auto.
  destruct (f x), (g x); simpl; lia.
Qed.

Lemma filter_length_lt {A} (f g : A -> bool) : forall l,
  (forall x, In x l -> f x = true -> g x = true) ->
  (exists x, In x l /\ g x = true /\ f x = false) ->
  (length (filter f l) < length (filter g l))%nat.
Proof.
  induction l as [|x l IH]; intros Himp [y [Hy [Hg Hf]]]; [destruct Hy|].
  assert (Hle : forall l', (forall x, In x l' -> f x = true -> g x = true) ->
                (length (filter f l') <= length (filter g l'))%nat).
  { induction l' as [|z l' IH']; intros H; simpl; auto.
    assert (H' : forall x, In x l' -> f x = true -> g x = true)
      by (intros; apply H; [now right|auto]).
    specialize (IH' H'). specialize (H z (or_introl eq_refl)).
    destruct (f z), (g z); simpl; try lia; try (now specialize (H eq_refl)). }
  assert (Himp' : forall x, In x l -> f x = true -> g x = true)
    by (intros; apply Himp; [now right|auto]).
  simpl. destruct Hy as [->|Hy].
  - rewrite Hg, Hf. simpl. specialize (Hle l Himp'). lia.
  - assert (IH' := IH Himp' (ex_intro _ y (conj Hy (conj Hg Hf)))).
    specialize (Himp x (or_introl eq_refl)).
    destruct (f x), (g x); simpl; try lia; try (now specialize (Himp eq_refl)).
Qed.

Section Peeling.
Variable pop : list ind_id.
Variable Rel : ind_id -> ind_id -> bool.
Hypothesis pop_nodup : NoDup pop.
Hypothesis Rel_trans : forall p q r, In p pop -> In q pop -> In r pop ->
  Rel p q = true -> Rel q r = true -> Rel p r = true.
Hypothesis Rel_irrefl : forall p, In p pop -> Rel p p = false.

Lemma dominating_dominated_by p q : dominating Rel p q = dominated_by Rel q p.
Proof. unfold dominating, dominated_by. now rewrite Nat.eqb_sym. Qed.

Lemma count_released q : forall cur,
  count_occ Nat.eq_dec (flat_map (dominated Rel pop) cur) q
  = if mem q pop then length (filter (dominated_by Rel q) cur) else 0%nat.
Proof.
  induction cur as [|p cur IH].
  - simpl. now destruct (mem q pop).
  - change (flat_map (dominated Rel pop) (p :: cur))
      with (dominated Rel pop p ++ flat_map (dominated Rel pop) cur).
    cbn [filter]. rewrite count_occ_app. unfold ind_id in *. rewrite IH. unfold dominated.
    rewrite count_occ_filter_NoDup by exact pop_nodup.
    rewrite dominating_dominated_by.
    destruct (dominated_by Rel q p), (mem q pop); simpl; lia.
Qed.

Lemma pending_split done cur q :
  NoDup cur -> incl cur pop -> (forall p, In p cur -> ~ In p done) ->
  length (pending Rel pop done q)
  = (length (filter (dominated_by Rel q) cur)
     + length (pending Rel pop (done ++ cur) q))%nat.
Proof.
  intros Hnd Hincl Hdisj. unfold pending.
  rewrite (filter_length_split _ (fun p => mem p cur)). f_equal.
  - apply Permutation_length. apply NoDup_Permutation.
    + now apply NoDup_filter.
    + now apply NoDup_filter.
    + intros x. rewrite !filter_In, !andb_true_iff, negb_true_iff, mem_In, mem_false.
      split.
      * intros [_ [[H1 _] H2]]. tauto.
      * intros [H1 H2]. specialize (Hincl x H1). specialize (Hdisj x H1). tauto.
  - f_equal. apply filter_ext. intros x.
    now rewrite mem_app, negb_orb, andb_assoc.
Qed.

Lemma pending_nil q : pending Rel pop [] q = dominators Rel pop q.
Proof.
  unfold pending, dominators. apply filter_ext. intros x. simpl. now rewrite andb_true_r.
Qed.

Lemma dominators_fewer p q :
  In p pop -> In q pop -> dominated_by Rel q p = true ->
  (length (dominators Rel pop p) < length (dominators Rel pop q))%nat.
Proof.
  intros Hp Hq Hpq. unfold dominators. apply filter_length_lt.
  - intros x Hx Hxp. unfold dominated_by in *.
    apply andb_true_iff in Hxp, Hpq. destruct Hxp as [Hne1 Hxp], Hpq as [Hne2 Hpq].
    apply andb_true_iff. split.
    + apply negb_true_iff, Nat.eqb_neq. intros E. subst x.
      assert (Hpp : Rel p p = true) by (apply (Rel_trans p q p); auto).
      rewrite (Rel_irrefl p Hp) in Hpp. discriminate.
    + apply (Rel_trans x p q); auto.
  - exists p. split; [exact Hp|]. split; [exact Hpq|].
    unfold dominated_by. now rewrite Nat.eqb_refl.
Qed.

Lemma all_seen seen :
  (forall q, In q pop -> (In q seen <-> length (pending Rel pop seen q) = 0%nat)) ->
  forall q, In q pop -> In q seen.
Proof.
  intros Hseen.
  assert (H : forall k q, (length (dominators Rel pop q) < k)%nat -> In q pop -> In q seen).
  { induction k as [|k IH]; intros q Hk Hq; [lia|].
    apply (Hseen q Hq).
    destruct (pending Rel pop seen q) as [|p rest] eqn:E; [reflexivity|].
    assert (Hin : In p (pending Rel pop seen q)) by (rewrite E; now left).
    unfold pending in Hin. apply filter_In in Hin. destruct Hin as [Hp Hf].
    apply andb_true_iff in Hf. destruct Hf as [Hdom Hns].
    apply negb_true_iff, mem_false in Hns. exfalso. apply Hns.
    apply IH; auto. pose proof (dominators_fewer p q Hp Hq Hdom). lia. }
  intros q Hq. apply (H (Datatypes.S (length (dominators Rel pop q)))); auto.
Qed.

Lemma NoDup_app_disjoint (l l' : list ind_id) x :
  NoDup (l ++ l') -> In x l -> In x l' -> False.
Proof.
  induction l as [|a l IH]; intros Hnd Hl Hl'; [destruct Hl|].
  inversion Hnd as [|? ? Ha Hnd']; subst. destruct Hl as [->|Hl].
  - apply Ha. apply in_or_app. now right.
  - now apply IH.
Qed.

Lemma next_front_spec i done cur st :
  sort_invariant Rel pop done cur st ->
  exists Q st',
    next_front i cur st = Ok (Q, st')
    /\ sort_invariant Rel pop (done ++ cur) Q st'
    /\ (forall r, same_static (st' r) (st r))
    /\ (forall r, NSGAIndividual.rank (st' r)
                  = if mem r Q then (i + 1)%Z else NSGAIndividual.rank (st r))
    /\ (forall r, ~ In r pop -> st' r = st r).
Proof.
  intros (Hnd & Hincl & HS & Hn & Hseen).
  assert (Hcur_nd : NoDup cur) by (eapply NoDup_app_remove_l; eauto).
  assert (Hcur_incl : incl cur pop) by (intros x Hx; apply Hincl, in_or_app; now right).
  assert (Hdisj : forall p, In p cur -> ~ In p done).
  { intros p Hp Hd. eapply NoDup_app_disjoint; eauto. }
  unfold next_front. rewrite next_front_eq.
  assert (HL : flat_map (fun p => NSGAIndividual.S (st p)) cur
               = flat_map (dominated Rel pop) cur).
  { clear - HS Hcur_incl. induction cur as [|p c IH]; [reflexivity|].
    simpl. rewrite HS by (apply Hcur_incl; now left). f_equal.
    apply IH. intros x Hx. apply Hcur_incl. now right. }
  rewrite HL. set (L := flat_map (dominated Rel pop) cur).
  destruct (release_loop_spec i L [] st)
    as (Q & st' & E & Hs & Hn' & Hr & HinclQ & Hchar).
  simpl in E. exists Q, st'.
  assert (HLpop : forall r, In r L -> In r pop).
  { intros r Hr'. unfold L in Hr'. apply in_flat_map in Hr'.
    destruct Hr' as [p [_ Hp]]. unfold dominated in Hp. now apply filter_In in Hp. }
  assert (Hcount : forall r, In r pop ->
            count_occ Nat.eq_dec L r = length (filter (dominated_by Rel r) cur)).
  { intros r Hr'. unfold L. rewrite count_released.
    now replace (mem r pop) with true by (symmetry; now apply mem_In). }
  assert (Hsplit : forall r, In r pop ->
            NSGAIndividual.n (st r)
            = Z.of_nat (count_occ Nat.eq_dec L r
                        + length (pending Rel pop (done ++ cur) r))).
  { intros r Hr'. rewrite (Hn r Hr'), (Hcount r Hr').
    now rewrite (pending_split done cur r Hcur_nd Hcur_incl Hdisj). }
  assert (Hbound : forall r, In r L ->
            (Z.of_nat (count_occ Nat.eq_dec L r) <= NSGAIndividual.n (st r))%Z).
  { intros r Hr'. rewrite (Hsplit r (HLpop r Hr')). lia. }
  destruct (Hchar Hbound) as [HQnd HinQ].
  assert (Hn'pop : forall q, In q pop ->
            NSGAIndividual.n (st' q)
            = Z.of_nat (length (pending Rel pop (done ++ cur) q))).
  { intros q Hq. rewrite Hn', (Hsplit q Hq). lia. }
  split; [exact E|]. split; [|split; [exact Hs|split; [exact Hr|]]].
  - unfold sort_invariant. split; [|split; [|split; [|split]]].
    + apply NoDup_app; auto. intros a Ha HaQ.
      apply HinQ in HaQ. destruct HaQ as [HaL HaN].
      assert (Hapop : In a pop) by (now apply Hincl).
      apply (Hseen a Hapop) in Ha.
      apply (count_occ_In Nat.eq_dec) in HaL. lia.
    + apply incl_app; auto. intros x Hx. apply HLpop. now apply HinclQ.
    + intros p0 Hp0. destruct (Hs p0) as (_ & HS' & _). rewrite HS'. now apply HS.
    + exact Hn'pop.
    + intros q Hq. rewrite in_app_iff, (Hseen q Hq), HinQ, Hn'.
      pose proof (Hsplit q Hq) as Hq'.
      split.
      * intros [H0|[_ H0]]; lia.
      * intros H0.
        destruct (count_occ Nat.eq_dec L q) as [|c] eqn:Ec; [left; lia|].
        right. split; [|lia]. apply (count_occ_In Nat.eq_dec). lia.
  - intros r Hr'. apply individual_ext.
    + apply Hs.
    + rewrite Hr. replace (mem r Q) with false; [reflexivity|].
      symmetry. apply mem_false. intros HQ. apply Hr'. apply HLpop. now apply HinclQ.
    + rewrite Hn'. assert (Hc : count_occ Nat.eq_dec L r = 0%nat).
      { apply count_occ_not_In. intros HL'. apply Hr'. now apply HLpop. }
      rewrite Hc. lia.
Qed.

Lemma peel_spec : forall fuel i Fdone cur st,
  i = Z.of_nat (length Fdone) ->
  sort_invariant Rel pop (concat Fdone) cur st ->
  ranked (Fdone ++ [cur]) st ->
  (length pop < fuel + length (concat Fdone ++ cur))%nat ->
  exists F' st',
    peel fuel i (Fdone ++ [cur]) cur st = Ok ((Fdone ++ [cur]) ++ F', st')
    /\ Permutation (concat ((Fdone ++ [cur]) ++ F')) pop
    /\ ranked ((Fdone ++ [cur]) ++ F') st'
    /\ Forall (fun f => f <> []) F'
    /\ (forall r, same_static (st' r) (st r))
    /\ (forall r, ~ In r pop -> st' r = st r).
Proof.
  induction fuel as [|fuel IH]; intros i Fdone cur st Hi Hinv Hrk Hfuel.
  - destruct Hinv as (Hnd & Hincl & _).
    pose proof (NoDup_incl_length Hnd Hincl). lia.
  - cbn [peel].
    destruct (next_front_spec i (concat Fdone) cur st Hinv)
      as (Q & st1 & E & Hinv1 & Hs1 & Hr1 & Hfr1).
    rewrite (bind_Ok _ _ E).
    assert (Hcat : concat (Fdone ++ [cur]) = concat Fdone ++ cur).
    { rewrite concat_app. simpl. now rewrite app_nil_r. }
    destruct Q as [|q0 Q'].
    + cbn [length Nat.eqb]. exists [], st1. rewrite app_nil_r.
      split; [reflexivity|]. split; [|split; [|split; [|split]]]; auto.
      * rewrite Hcat. destruct Hinv1 as (Hnd1 & Hincl1 & _ & Hn1 & Hseen1).
        rewrite app_nil_r in Hnd1, Hincl1.
        apply NoDup_Permutation; auto. intros x. split; [apply Hincl1|].
        apply all_seen. intros q Hq.
        specialize (Hseen1 q Hq). rewrite app_nil_r, (Hn1 q Hq) in Hseen1.
        rewrite Hseen1. lia.
      * intros k front q Hk Hq. rewrite Hr1. simpl. eapply Hrk; eauto.
    + cbn [length Nat.eqb]. set (Q := q0 :: Q') in *.
      assert (Hi' : (i + 1)%Z = Z.of_nat (length (Fdone ++ [cur]))).
      { rewrite length_app. simpl. lia. }
      assert (Hinv' : sort_invariant Rel pop (concat (Fdone ++ [cur])) Q st1)
        by (now rewrite Hcat).
      assert (Hrk' : ranked ((Fdone ++ [cur]) ++ [Q]) st1).
      { intros k front q Hk Hq. rewrite Hr1.
        destruct (Nat.lt_ge_cases k (length (Fdone ++ [cur]))) as [Hlt|Hge].
        - rewrite nth_error_app1 in Hk by exact Hlt.
          replace (mem q Q) with false; [eapply Hrk; eauto|].
          symmetry. apply mem_false. intros HQ.
          destruct Hinv1 as (Hnd1 & _).
          apply (NoDup_app_disjoint _ _ q Hnd1); auto.
          rewrite <- Hcat. apply in_concat. exists front. split; auto.
          eapply nth_error_In; eauto.
        - rewrite nth_error_app2 in Hk by exact Hge.
          destruct (k - length (Fdone ++ [cur]))%nat as [|k'] eqn:Ek.
          + simpl in Hk. injection Hk as <-.
            replace (mem q Q) with true by (symmetry; now apply mem_In). lia.
          + simpl in Hk. destruct k'; discriminate. }
      assert (Hfuel' : (length pop < fuel + length (concat (Fdone ++ [cur]) ++ Q))%nat).
      { rewrite Hcat, length_app. unfold Q. simpl. lia. }
      destruct (IH (i + 1)%Z (Fdone ++ [cur]) Q st1 Hi' Hinv' Hrk' Hfuel')
        as (F'' & st2 & E2 & Hperm & Hrk2 & Hne & Hs2 & Hfr2).
      exists (Q :: F''), st2.
      replace ((Fdone ++ [cur]) ++ Q :: F'') with (((Fdone ++ [cur]) ++ [Q]) ++ F'')
        by (now rewrite <- app_assoc).
      split; [exact E2|]. split; [exact Hperm|]. split; [exact Hrk2|].
      split; [constructor; [discriminate|exact Hne]|]. split.
      * intros r. eapply same_static_trans; [apply Hs2|apply Hs1].
      * intros r Hr. now rewrite Hfr2, Hfr1.
Qed.

End Peeling.

(** * The loop reads and writes the population's objects only *)

Lemma same_static_sym x y : same_static x y -> same_static y x.
Proof. unfold same_static. intros (a & b & c & d). repeat split; congruence. Qed.

Lemma release_loop_agree pop i : forall L Q st st2,
  incl L pop -> agree_on pop st st2 ->
  exists Q' s s2,
    for_fold L Q (release i) st = Ok (Q ++ Q', s)
    /\ for_fold L Q (release i) st2 = Ok (Q ++ Q', s2)
    /\ agree_on pop s s2
    /\ (forall r, same_static (s r) (st r))
    /\ incl Q' L.
Proof.
  induction L as [|q L IH]; intros Q st st2 HL Hag.
  - exists [], st, st2. simpl. rewrite app_nil_r.
    repeat split; auto. apply incl_refl.
  - assert (Hq : In q pop) by (apply HL; now left).
    assert (HL' : incl L pop) by (intros x Hx; apply HL; now right).
    destruct (release_spec i Q q st) as (s1 & E1 & Hs1 & Hn1 & Hr1).
    destruct (release_spec i Q q st2) as (s1' & E1' & Hs1' & Hn1' & Hr1').
    rewrite <- (Hag q Hq) in E1', Hr1'.
    assert (Hag1 : agree_on pop s1 s1').
    { intros r Hr. apply individual_ext.
      - eapply same_static_trans; [apply Hs1|].
        rewrite (Hag r Hr). apply same_static_sym, Hs1'.
      - rewrite Hr1, Hr1'. now rewrite (Hag r Hr).
      - rewrite Hn1, Hn1'. now rewrite (Hag r Hr). }
    destruct (IH (Q ++ (if (NSGAIndividual.n (st q) - 1 =? 0)%Z then [q] else []))
                 s1 s1' HL' Hag1) as (Q' & s & s2 & E & E' & Hag' & Hs & Hincl).
    exists ((if (NSGAIndividual.n (st q) - 1 =? 0)%Z then [q] else []) ++ Q'), s, s2.
    split; [|split; [|split; [|split]]].
    + cbn [for_fold]. rewrite (bind_Ok _ _ E1), E. now rewrite app_assoc.
    + cbn [for_fold]. rewrite (bind_Ok _ _ E1'), E'. now rewrite app_assoc.
    + exact Hag'.
    + intros r. eapply same_static_trans; [apply Hs|apply Hs1].
    + intros x Hx. apply in_app_or in Hx. destruct Hx as [Hx|Hx].
      * destruct (NSGAIndividual.n (st q) - 1 =? 0)%Z; [|destruct Hx].
        destruct Hx as [->|[]]. now left.
      * right. now apply Hincl.
Qed.

Lemma peel_agree pop : forall fuel i F cur st st2 F1 s,
  incl cur pop ->
  (forall p, In p pop -> incl (NSGAIndividual.S (st p)) pop) ->
  agree_on pop st st2 ->
  peel fuel i F cur st = Ok (F1, s) ->
  exists s2, peel fuel i F cur st2 = Ok (F1, s2) /\ agree_on pop s s2.
Proof.
  induction fuel as [|fuel IH]; intros i F cur st st2 F1 s Hcur Hclosed Hag Hrun.
  - discriminate Hrun.
  - cbn [peel] in *. unfold next_front in *.
    assert (HL : incl (flat_map (fun p => NSGAIndividual.S (st p)) cur) pop).
    { intros x Hx. apply in_flat_map in Hx. destruct Hx as [p [Hp Hx]].
      apply (Hclosed p (Hcur p Hp)). exact Hx. }
    assert (HLeq : flat_map (fun p => NSGAIndividual.S (st2 p)) cur
                   = flat_map (fun p => NSGAIndividual.S (st p)) cur).
    { clear - Hcur Hag. induction cur as [|p c IHc]; [reflexivity|].
      simpl. rewrite (Hag p) by (apply Hcur; now left). f_equal.
      apply IHc. intros x Hx. apply Hcur. now right. }
    destruct (release_loop_agree pop i _ [] st st2 HL Hag)
      as (Q & s1 & s1' & E & E' & Hag1 & Hs1 & HQ).
    simpl in E, E'.
    rewrite (bind_Ok _ _ (eq_trans (next_front_eq i cur [] st) E)) in Hrun.
    rewrite <- HLeq in E'.
    rewrite (bind_Ok _ _ (eq_trans (next_front_eq i cur [] st2) E')).
    destruct (Nat.eqb (length Q) 0).
    + injection Hrun as <- <-. exists s1'. split; [reflexivity|exact Hag1].
    + apply (IH (i + 1)%Z (F ++ [Q]) Q s1 s1' F1 s); auto.
      * intros x Hx. apply HL. now apply HQ.
      * intros p Hp. destruct (Hs1 p) as (_ & HS & _). rewrite HS. now apply Hclosed.
Qed.

(** * The sort as a whole, for a dominance test that is a strict order *)

Lemma bind_assoc {A B C} (a : M A) (f : A -> M B) (g : B -> M C) st :
  bind (bind a f) g st = bind a (fun x => bind (f x) g) st.
Proof. unfold bind. destruct (a st) as [[x s]| |]; reflexivity. Qed.

Section SortSpec.
Variable pareto_dominate_undirected : list score -> list score -> outcome bool.
Variable self : Survival.
Variable pop : list ind_id.
Variable Rel : ind_id -> ind_id -> bool.
Variable sc0 : ind_id -> list score.

Hypothesis dominate_pure : forall st p q,
  same_scores pop sc0 st -> In p pop -> In q pop ->
  dominate pareto_dominate_undirected self p q pop st = Ok (Rel p q, st).
Hypothesis pop_nodup : NoDup pop.
Hypothesis Rel_trans : forall p q r, In p pop -> In q pop -> In r pop ->
  Rel p q = true -> Rel q r = true -> Rel p r = true.
Hypothesis Rel_irrefl : forall p, In p pop -> Rel p p = false.

Lemma sort_unfold st :
  fast_non_dominated_sort pareto_dominate_undirected self pop st
  = bind (bind (for_each pop reset)
               (fun _ => for_fold pop [] (count_dominators pareto_dominate_undirected self pop)))
         (fun F_1 => peel (Datatypes.S (length pop)) 0 [F_1] F_1) st.
Proof. unfold fast_non_dominated_sort. now rewrite bind_assoc. Qed.

Lemma counted_invariant st1 :
  (forall p, In p pop -> st1 p = counted Rel pop (sc0 p) p) ->
  sort_invariant Rel pop (concat []) (first_front Rel pop) st1
  /\ ranked ([] ++ [first_front Rel pop]) st1.
Proof.
  intros Hp. split.
  - unfold sort_invariant. simpl. split; [|split; [|split; [|split]]].
    + apply NoDup_filter. exact pop_nodup.
    + intros x Hx. unfold first_front in Hx. now apply filter_In in Hx.
    + intros p Hin. now rewrite (Hp p Hin).
    + intros q Hq. rewrite (Hp q Hq), pending_nil. reflexivity.
    + intros q Hq. rewrite (Hp q Hq). unfold first_front. rewrite filter_In. simpl.
      rewrite Nat.eqb_eq. split; [intros [_ H]; lia|intros H; split; [exact Hq|lia]].
  - intros k front q Hk Hq. destruct k as [|k]; simpl in Hk.
    + injection Hk as <-. unfold first_front in Hq. apply filter_In in Hq.
      destruct Hq as [Hq Hz]. rewrite (Hp q Hq). simpl. now rewrite Hz.
    + destruct k; discriminate.
Qed.

Lemma sort_spec st :
  same_scores pop sc0 st ->
  exists F' st',
    fast_non_dominated_sort pareto_dominate_undirected self pop st
    = Ok (first_front Rel pop :: F', st')
    /\ Permutation (concat (first_front Rel pop :: F')) pop
    /\ ranked (first_front Rel pop :: F') st'
    /\ Forall (fun f => f <> []) F'
    /\ (forall r, ~ In r pop -> st' r = st r)
    /\ (forall p, In p pop -> same_static (st' p) (counted Rel pop (sc0 p) p))
    /\ (first_front Rel pop = [] -> F' = []).
Proof.
  intros Hsc.
  destruct (first_loop_spec _ _ _ _ _ dominate_pure st pop_nodup Hsc)
    as (st1 & E1 & Hsc1 & Hfr1 & Hp1).
  destruct (counted_invariant st1 Hp1) as [Hinv Hrk].
  assert (Hfuel : (length pop
                   < Datatypes.S (length pop)
                     + length (concat [] ++ first_front Rel pop))%nat) by lia.
  destruct (peel_spec pop Rel pop_nodup Rel_trans Rel_irrefl (Datatypes.S (length pop)) 0 []
              (first_front Rel pop) st1 eq_refl Hinv Hrk Hfuel)
    as (F' & st2 & E2 & Hperm & Hrk2 & Hne & Hs2 & Hfr2).
  simpl in E2, Hperm, Hrk2.
  exists F', st2. rewrite sort_unfold, (bind_Ok _ _ E1).
  split; [exact E2|]. split; [exact Hperm|]. split; [exact Hrk2|].
  split; [exact Hne|]. split; [|split].
  - intros r Hr. now rewrite Hfr2, Hfr1.
  - intros p Hp. rewrite <- (Hp1 p Hp). apply Hs2.
  - intros Hnil. rewrite Hnil in E2. cbn in E2. injection E2 as HF _.
    destruct F'; [reflexivity|discriminate HF].
Qed.

Lemma sort_agree st st2 F s :
  same_scores pop sc0 st -> same_scores pop sc0 st2 ->
  fast_non_dominated_sort pareto_dominate_undirected self pop st = Ok (F, s) ->
  exists s2,
    fast_non_dominated_sort pareto_dominate_undirected self pop st2 = Ok (F, s2)
    /\ agree_on pop s s2.
Proof.
  intros Hsc Hsc2 Hrun.
  destruct (first_loop_spec _ _ _ _ _ dominate_pure st pop_nodup Hsc)
    as (st1 & E1 & _ & _ & Hp1).
  destruct (first_loop_spec _ _ _ _ _ dominate_pure st2 pop_nodup Hsc2)
    as (st1' & E1' & _ & _ & Hp1').
  rewrite sort_unfold, (bind_Ok _ _ E1) in Hrun.
  assert (Hag : agree_on pop st1 st1').
  { intros p Hp. now rewrite (Hp1 p Hp), (Hp1' p Hp). }
  assert (Hcur : incl (first_front Rel pop) pop).
  { intros x Hx. unfold first_front in Hx. now apply filter_In in Hx. }
  assert (Hclosed : forall p, In p pop -> incl (NSGAIndividual.S (st1 p)) pop).
  { intros p Hp x Hx. rewrite (Hp1 p Hp) in Hx. simpl in Hx.
    unfold dominated in Hx. now apply filter_In in Hx. }
  destruct (peel_agree pop _ _ _ _ _ _ _ _ Hcur Hclosed Hag Hrun) as (s2 & E2 & Hag2).
  exists s2. rewrite sort_unfold, (bind_Ok _ _ E1'). split; assumption.
Qed.

End SortSpec.

(** * fast_non_dominated_sort of [RankAndCrowdSortSurvival] *)

Lemma filter_length_zero {A} (f : A -> bool) l :
  length (filter f l) = 0%nat <-> forall x, In x l -> f x = false.
Proof.
  induction l as [|a l IH]; simpl.
  - split; auto. intros _ x [].
  - destruct (f a) eqn:E; simpl.
    + split; [discriminate|]. intros H. specialize (H a (or_introl eq_refl)). congruence.
    + rewrite IH. split.
      * intros H x [->|Hx]; auto.
      * intros H x Hx. apply H. now right.
Qed.

Section RankAndCrowdSortSort.
Variable pareto_dominate_undirected : list score -> list score -> outcome bool.
Variable dirs : list OptimizeDirection.
Variable size : Z.
Variable pop : list ind_id.
Variable st0 : Store.

Hypothesis pop_scored : forall p, In p pop -> fully_scored dirs (st0 p) = true.

Let self := RankAndCrowdSortSurvival dirs size.
Let sc0 := fun i => NSGAIndividual.scores (st0 i).

Lemma base_dominate_pure st p q :
  same_scores pop sc0 st -> In p pop -> In q pop ->
  dominate pareto_dominate_undirected self p q pop st = Ok (pareto_rel dirs st0 p q, st).
Proof.
  intros Hsc Hp Hq. unfold dominate, self, RankAndCrowdSort_dominate, pareto_dominate.
  unfold bind, get, lift. rewrite (Hsc p Hp), (Hsc q Hq). unfold sc0.
  rewrite (pareto_dominate_fully_scored dirs _ _ (pop_scored p Hp) (pop_scored q Hq)).
  reflexivity.
Qed.

Lemma pareto_rel_trans p q r :
  In p pop -> In q pop -> In r pop ->
  pareto_rel dirs st0 p q = true -> pareto_rel dirs st0 q r = true ->
  pareto_rel dirs st0 p r = true.
Proof.
  intros Hp Hq Hr. unfold pareto_rel. apply dominates_trans.
  - apply score_values_length. now apply pop_scored.
  - apply score_values_length. now apply pop_scored.
Qed.

Lemma pareto_rel_irrefl p : In p pop -> pareto_rel dirs st0 p p = false.
Proof. intros _. apply dominates_irrefl. Qed.

Lemma same_scores_refl : same_scores pop sc0 st0.
Proof. intros i _. reflexivity. Qed.

Lemma first_front_undominated q :
  In q (first_front (pareto_rel dirs st0) pop)
  <-> In q pop
      /\ forall p, In p pop -> p <> q ->
           dominate pareto_dominate_undirected self p q pop st0 = Ok (false, st0).
Proof.
  unfold first_front. rewrite filter_In, Nat.eqb_eq. unfold dominators.
  rewrite filter_length_zero. split.
  - intros [Hq H]. split; [exact Hq|]. intros p Hp Hne.
    rewrite (base_dominate_pure st0 p q same_scores_refl Hp Hq).
    specialize (H p Hp). unfold dominated_by in H.
    apply andb_false_iff in H. destruct H as [H|H].
    + apply negb_false_iff, Nat.eqb_eq in H. congruence.
    + now rewrite H.
  - intros [Hq H]. split; [exact Hq|]. intros p Hp. unfold dominated_by.
    destruct (Nat.eqb q p) eqn:E; [reflexivity|]. simpl.
    apply Nat.eqb_neq in E.
    specialize (H p Hp (fun e => E (eq_sym e))).
    rewrite (base_dominate_pure st0 p q same_scores_refl Hp Hq) in H. congruence.
Qed.

End RankAndCrowdSortSort.


(** * Binary tournament selection *)

Lemma randint_range low high rs a b rs' :
  randint low high rs = Ok ((a, b), rs') ->
  (low <= a < high /\ low <= b < high)%Z.
Proof.
  unfold randint. destruct (high <=? low)%Z eqn:E; [discriminate|].
  apply Z.leb_gt in E. intros H. injection H as <- <- _.
  pose proof (Z.mod_pos_bound (raw rs (cursor rs)) (high - low)).
  pose proof (Z.mod_pos_bound (raw rs (Datatypes.S (cursor rs))) (high - low)).
  lia.
Qed.

Lemma redraw_range len first : forall remaining inx rs r rs',
  redraw remaining len first inx rs = Ok (r, rs') ->
  (0 <= fst inx < len - 1 /\ 0 <= snd inx < len - 1)%Z ->
  (0 <= fst r < len - 1 /\ 0 <= snd r < len - 1)%Z /\ in_pair first r = false.
Proof.
  induction remaining as [|k IH]; intros inx rs r rs' H Hin; cbn [redraw] in H;
    destruct (in_pair first inx) eqn:E; try discriminate.
  - injection H as <- _. now split.
  - destruct (randint 0 (len - 1) rs) as [[[a b] rs1]| |] eqn:Er; try discriminate.
    simpl in H. apply randint_range in Er. eapply IH; eauto.
  - injection H as <- _. now split.
Qed.

Lemma binary_tournament_indices_range self population st rs i j rs' :
  binary_tournament_indices self population st rs = Ok ((i, j), rs') ->
  (0 <= i < Z.of_nat (length population) - 1
   /\ 0 <= j < Z.of_nat (length population) - 1 /\ i <> j)%Z.
Proof.
  unfold binary_tournament_indices.
  destruct (randint 0 (Z.of_nat (length population) - 1) rs)
    as [[[a b] rs1]| |] eqn:E1; try discriminate.
  cbn [obind fst snd].
  destruct (py_index population a) as [p1| |]; try discriminate.
  destruct (py_index population b) as [p2| |]; try discriminate.
  cbn [obind].
  destruct (randint 0 (Z.of_nat (length population) - 1) rs1)
    as [[[c d] rs2]| |] eqn:E2; try discriminate.
  cbn [obind].
  set (first := if (0 <=? cmp_operator self (st p1) (st p2))%Z then a else b).
  destruct (redraw retry_cap (Z.of_nat (length population)) first (c, d) rs2)
    as [[[e f] rs3]| |] eqn:E3; try discriminate.
  cbn [obind fst snd]. intros H. injection H as <- <- _.
  apply randint_range in E1, E2.
  destruct (redraw_range _ _ _ _ _ _ _ E3 E2) as [[He Hf] Hnot].
  cbn [fst snd] in He, Hf. unfold in_pair in Hnot. cbn [fst snd] in Hnot.
  apply orb_false_iff in Hnot. destruct Hnot as [Hn1 Hn2].
  apply Z.eqb_neq in Hn1, Hn2.
  unfold first in *. destruct (0 <=? cmp_operator self (st p1) (st p2))%Z; lia.
Qed.

Lemma py_index_nth {A} (l : list A) i a :
  (0 <= i)%Z -> py_index l i = Ok a -> nth_error l (Z.to_nat i) = Some a.
Proof.
  intros Hi. unfold py_index.
  replace (i <? 0)%Z with false by (symmetry; apply Z.ltb_ge; lia).
  destruct ((i <? 0) || (Z.of_nat (length l) <=? i))%Z; [discriminate|].
  destruct (nth_error l (Z.to_nat i)); [|discriminate]. congruence.
Qed.

Lemma randint_0_1 rs :
  randint 0 1 rs = Ok ((0, 0)%Z, mkRandomState (raw rs) (2 + cursor rs)).
Proof.
  unfold randint. change (1 <=? 0)%Z with false. change (1 - 0)%Z with 1%Z.
  now rewrite !Z.mod_1_r.
Qed.

(** A population of two can never yield a second parent: both draws are
    index 0, so the retry loop runs out. *)
Lemma binary_tournament_select_of_two self a b st rs :
  binary_tournament_select self [a; b] st rs = Raise RuntimeError.
Proof.
  assert (Hre : forall k rs0, redraw k 2 0 (0, 0)%Z rs0 = Raise RuntimeError).
  { induction k as [|k IH]; intros rs0; [reflexivity|].
    cbn [redraw in_pair fst snd Z.eqb orb].
    change (2 - 1)%Z with 1%Z. rewrite randint_0_1. cbn [obind]. apply IH. }
  unfold binary_tournament_select, binary_tournament_indices.
  change (Z.of_nat (length [a; b]) - 1)%Z with 1%Z.
  rewrite randint_0_1. cbn [obind fst snd].
  change (py_index [a; b] 0) with (Ok a). cbn [obind].
  rewrite randint_0_1. cbn [obind].
  replace (if (0 <=? cmp_operator self (st a) (st a))%Z then 0%Z else 0%Z) with 0%Z
    by (now destruct (0 <=? cmp_operator self (st a) (st a))%Z).
  change (Z.of_nat (length [a; b])) with 2%Z.
  rewrite (Hre retry_cap). reflexivity.
Qed.

(** C9. Both parents [binary_tournament_select] returns sit at indices 0 to
    [n - 2] of the population: the index draws have the exclusive upper bound
    [n - 1], so the individual at the last index is never selected (when the
    population holds no object twice, neither parent is that individual). *)
Theorem binary_tournament_select_never_last self population st rs a b rs' :
  (2 <= length population)%nat ->
  binary_tournament_select self population st rs = Ok ((a, b), rs') ->
  exists i j,
    (i < length population - 1)%nat /\ (j < length population - 1)%nat
    /\ nth_error population i = Some a /\ nth_error population j = Some b
    /\ (NoDup population -> forall z,
          nth_error population (length population - 1) = Some z -> a <> z /\ b <> z).
Proof.
  intros Hlen. unfold binary_tournament_select.
  destruct (binary_tournament_indices self population st rs)
    as [[[i j] rs1]| |] eqn:E; try discriminate.
  cbn [obind fst snd].
  destruct (py_index population i) as [a'| |] eqn:Ea; try discriminate.
  destruct (py_index population j) as [b'| |] eqn:Eb; try discriminate.
  cbn [obind]. intros H. injection H as <- <- _.
  apply binary_tournament_indices_range in E. destruct E as (Hi & Hj & _).
  apply py_index_nth in Ea; [|lia]. apply py_index_nth in Eb; [|lia].
  exists (Z.to_nat i), (Z.to_nat j).
  split; [lia|]. split; [lia|]. split; [exact Ea|]. split; [exact Eb|].
  intros Hnd z Hz. rewrite NoDup_nth_error in Hnd. split; intros <-.
  - assert (Z.to_nat i = (length population - 1)%nat); [|lia].
    apply Hnd; [lia|congruence].
  - assert (Z.to_nat j = (length population - 1)%nat); [|lia].
    apply Hnd; [lia|congruence].
Qed.

Lemma binary_tournament_select_never_last_witness :
  (2 <= length [0; 1; 2; 3]%nat)%nat
  /\ binary_tournament_select (RankAndCrowdSortSurvival [Minimize; Minimize] 4)
       [0; 1; 2; 3]%nat (heap_of_ranks [0; 0; 0; 0]%Z) (replay [0; 1; 1; 2]%Z)
     = Ok ((0, 1)%nat, mkRandomState (fun i => nth i [0; 1; 1; 2]%Z 0%Z) 4)
  /\ exists i j,
       (i < 3)%nat /\ (j < 3)%nat
       /\ nth_error [0; 1; 2; 3]%nat i = Some 0%nat
       /\ nth_error [0; 1; 2; 3]%nat j = Some 1%nat.
Proof.
  assert (Hlen : (2 <= length [0; 1; 2; 3]%nat)%nat) by (simpl; lia).
  assert (Hrun : binary_tournament_select (RankAndCrowdSortSurvival [Minimize; Minimize] 4)
                   [0; 1; 2; 3]%nat (heap_of_ranks [0; 0; 0; 0]%Z) (replay [0; 1; 1; 2]%Z)
                 = Ok ((0, 1)%nat, mkRandomState (fun i => nth i [0; 1; 1; 2]%Z 0%Z) 4))
    by reflexivity.
  split; [exact Hlen|]. split; [exact Hrun|].
  destruct (binary_tournament_select_never_last _ _ _ _ _ _ _ Hlen Hrun)
    as (i & j & Hi & Hj & Ha & Hb & _).
  exists i, j. repeat split; assumption.
Defined.

(** C6 (the code departs from the claim). With the draws (0, 1) and then
    (2, 3) on a population of five, the second parent is the individual at
    index 2 although the one at index 3 compares better: the second slot is
    decided by the comparison of the first slot's two individuals. *)
Theorem binary_tournament_select_second_slot_stale :
  selected (binary_tournament_select (RankAndCrowdSortSurvival [Minimize; Minimize] 5)
              [0; 1; 2; 3; 4]%nat (heap_of_ranks [0; 1; 1; 0; 0]%Z) (replay [0; 1; 2; 3]%Z))
  = Ok (0, 2)%nat
  /\ cmp_operator (RankAndCrowdSortSurvival [Minimize; Minimize] 5)
       (heap_of_ranks [0; 1; 1; 0; 0]%Z 2%nat) (heap_of_ranks [0; 1; 1; 0; 0]%Z 3%nat)
     = (-1)%Z.
Proof. split; reflexivity. Qed.


(** * Facts about binary64 addition with infinity and NaN *)

Module FloatSpecial.

Lemma add_nan_r x c : is_nan c = true -> is_nan (x + c)%float = true.
Proof.
  intros Hc. destruct (is_nan (x + c)%float) eqn:E; [reflexivity|].
  apply FloatOrder.is_nan_cmp in E. exfalso. apply E.
  rewrite add_spec.
  assert (Hn : Prim2SF c = S754_nan).
  { destruct (Prim2SF c) eqn:Ec; try reflexivity;
      assert (is_nan c = false) by (apply FloatOrder.is_nan_cmp; congruence); congruence. }
  rewrite Hn. unfold SF64add, SFadd. now destruct (Prim2SF x).
Qed.

Lemma add_nan_l x c : is_nan x = true -> is_nan (x + c)%float = true.
Proof.
  intros Hx. destruct (is_nan (x + c)%float) eqn:E; [reflexivity|].
  apply FloatOrder.is_nan_cmp in E. exfalso. apply E.
  rewrite add_spec.
  assert (Hn : Prim2SF x = S754_nan).
  { destruct (Prim2SF x) eqn:Ec; try reflexivity;
      assert (is_nan x = false) by (apply FloatOrder.is_nan_cmp; congruence); congruence. }
  rewrite Hn. reflexivity.
Qed.

Lemma infinity_add c : keeps_infinity c = true -> (infinity + c)%float = infinity.
Proof.
  unfold keeps_infinity. rewrite andb_true_iff, !negb_true_iff. intros [Hn Hm].
  apply Prim2SF_inj. rewrite add_spec.
  change (Prim2SF infinity) with (S754_infinity false).
  apply FloatOrder.is_nan_cmp in Hn.
  rewrite eqb_spec in Hm. change (Prim2SF neg_infinity) with (S754_infinity true) in Hm.
  unfold SF64add, SFadd.
  destruct (Prim2SF c) as [sc|sc| |sc mc ec]; try reflexivity; [|congruence].
  destruct sc; [discriminate Hm|reflexivity].
Qed.

Lemma infinity_not_nan : is_nan infinity = false.
Proof. reflexivity. Qed.

End FloatSpecial.


(** * Crowding distance assignment *)

Lemma lift_Ok {A} (c : outcome A) a st : c = Ok a -> lift c st = Ok (a, st).
Proof. intros ->. reflexivity. Qed. 

Lemma py_index_ok {A} (l : list A) (d : A) (k : nat) :
  (k < length l)%nat -> py_index l (Z.of_nat k) = Ok (nth k l d).
Proof.
  intros Hk. unfold py_index.
  assert (E1 : (Z.of_nat k <? 0)%Z = false) by (apply Z.ltb_ge; lia).
  assert (E2 : (Z.of_nat (length l) <=? Z.of_nat k)%Z = false) by (apply Z.leb_gt; lia).
  cbv zeta. rewrite E1. cbv iota. rewrite E1, E2. cbn [orb]. rewrite Nat2Z.id.
  destruct (nth_error l k) eqn:E.
  - f_equal. symmetry. now apply nth_error_nth.
  - apply nth_error_None in E. lia.
Qed.

Lemma insert_sorted_perm {A} (lt : A -> A -> bool) x l :
  Permutation (insert_sorted lt x l) (x :: l).
Proof.
  induction l as [|h t IH]; simpl; [reflexivity|].
  destruct (lt x h); [reflexivity|].
  rewrite IH. apply perm_swap.
Qed.

Lemma sorted_perm {A} (lt : A -> A -> bool) l : Permutation (sorted lt l) l.
Proof.
  unfold sorted.
  assert (H : forall l acc, Permutation (fold_left (fun acc x => insert_sorted lt x acc) l acc)
                              (acc ++ l)).
  { clear l. induction l as [|x l IH]; intros acc; simpl.
    - now rewrite app_nil_r.
    - rewrite IH. rewrite insert_sorted_perm. simpl.
      apply Permutation_middle. }
  apply (H l []).
Qed.

Lemma sorted_length {A} (lt : A -> A -> bool) l : length (sorted lt l) = length l.
Proof. apply Permutation_length, sorted_perm. Qed.

Lemma same_but_distance_refl x : same_but_distance x x.
Proof. unfold same_but_distance. now destruct x. Qed.

Lemma same_but_distance_trans x y z :
  same_but_distance x y -> same_but_distance y z -> same_but_distance x z.
Proof.
  unfold same_but_distance. intros H1 H2. rewrite H1 at 1. rewrite H2 at 1.
  now destruct z.
Qed.

Lemma same_but_distance_scores x y :
  same_but_distance x y -> NSGAIndividual.scores x = NSGAIndividual.scores y.
Proof. unfold same_but_distance. intros ->. reflexivity. Qed.

Lemma same_but_distance_rank x y :
  same_but_distance x y -> NSGAIndividual.rank x = NSGAIndividual.rank y.
Proof. unfold same_but_distance. intros ->. reflexivity. Qed.

Lemma fully_scored_ext dirs x y :
  NSGAIndividual.scores x = NSGAIndividual.scores y ->
  fully_scored dirs x = fully_scored dirs y.
Proof. unfold fully_scored. now intros ->. Qed.

Lemma score_value_ext x y m :
  NSGAIndividual.scores x = NSGAIndividual.scores y -> score_value x m = score_value y m.
Proof. unfold score_value, score_values. now intros ->. Qed.

Lemma score_value_list_ext x y :
  NSGAIndividual.scores x = NSGAIndividual.scores y -> score_values x = score_values y.
Proof. unfold score_values. now intros ->. Qed.

Lemma score_at_fully_scored dirs x m :
  fully_scored dirs x = true -> (m < length dirs)%nat ->
  score_at x m = Some (score_value x m).
Proof.
  unfold fully_scored, score_at, score_value, score_values.
  rewrite andb_true_iff, Nat.eqb_eq. intros [Hlen Hall] Hm. rewrite <- Hlen in Hm.
  clear Hlen. revert m Hm.
  induction (NSGAIndividual.scores x) as [|[v|] l IH]; intros m Hm; simpl in *;
    try lia; try discriminate.
  destruct m; [reflexivity|]. apply IH; [exact Hall|lia].
Qed.

Lemma interior_term_ext st st' s m mx mn i :
  (forall r, same_but_distance (st' r) (st r)) ->
  interior_term st' s m mx mn i = interior_term st s m mx mn i.
Proof.
  intros H. unfold interior_term.
  now rewrite !(score_value_ext (st' _) (st _) m (same_but_distance_scores _ _ (H _))).
Qed.

Lemma crowd_interior_spec dirs s m maxa mina mx mn i st :
  (1 <= i)%nat -> (i + 1 < length s)%nat ->
  (forall p, In p s -> fully_scored dirs (st p) = true) ->
  (m < length dirs)%nat ->
  nth m maxa None = Some mx -> nth m mina None = Some mn ->
  RankAndCrowdSort.crowd_interior s m maxa mina i st
  = Ok (tt, upd st (nth i s 0%nat)
              (NSGAIndividual.set_distance
                 (NSGAIndividual.distance (st (nth i s 0%nat))
                  + interior_term st s m mx mn i)%float
                 (st (nth i s 0%nat)))).
Proof.
  intros H1 H2 Hfs Hm Hmx Hmn. unfold RankAndCrowdSort.crowd_interior.
  rewrite (bind_Ok _ _ (lift_Ok _ _ st (py_index_ok s 0%nat i ltac:(lia)))).
  replace (Z.of_nat i + 1)%Z with (Z.of_nat (i + 1)) by lia.
  rewrite (bind_Ok _ _ (lift_Ok _ _ st (py_index_ok s 0%nat (i + 1) ltac:(lia)))).
  replace (Z.of_nat i - 1)%Z with (Z.of_nat (i - 1)) by lia.
  rewrite (bind_Ok _ _ (lift_Ok _ _ st (py_index_ok s 0%nat (i - 1) ltac:(lia)))).
  unfold bind at 1. unfold get at 1. unfold bind at 1. unfold get at 1.
  unfold bind at 1. unfold get at 1.
  assert (Hhi : In (nth (i + 1) s 0%nat) s) by (apply nth_In; lia).
  assert (Hlo : In (nth (i - 1) s 0%nat) s) by (apply nth_In; lia).
  rewrite (score_at_fully_scored dirs _ m (Hfs _ Hhi) Hm).
  rewrite (score_at_fully_scored dirs _ m (Hfs _ Hlo) Hm).
  unfold score in *. rewrite Hmx, Hmn. reflexivity.
Qed.

Lemma same_but_distance_upd st p d r :
  same_but_distance (upd st p (NSGAIndividual.set_distance d (st p)) r) (st r).
Proof.
  unfold upd. destruct (Nat.eqb r p) eqn:E.
  - apply Nat.eqb_eq in E. subst r. reflexivity.
  - apply same_but_distance_refl.
Qed.

Lemma fully_scored_preserved dirs st st' (l : list ind_id) :
  (forall r, same_but_distance (st' r) (st r)) ->
  (forall p, In p l -> fully_scored dirs (st p) = true) ->
  forall p, In p l -> fully_scored dirs (st' p) = true.
Proof.
  intros H Hfs p Hp.
  rewrite (fully_scored_ext dirs _ _ (same_but_distance_scores _ _ (H p))). now apply Hfs.
Qed.

Lemma interior_loop_spec dirs s m maxa mina mx mn :
  (m < length dirs)%nat -> nth m maxa None = Some mx -> nth m mina None = Some mn ->
  forall positions st,
    (forall i, In i positions -> (1 <= i /\ i + 1 < length s)%nat) ->
    (forall p, In p s -> fully_scored dirs (st p) = true) ->
    exists st',
      for_each positions (RankAndCrowdSort.crowd_interior s m maxa mina) st = Ok (tt, st')
      /\ (forall r, same_but_distance (st' r) (st r))
      /\ (forall r, ~ In r (map (fun i => nth i s 0%nat) positions) -> st' r = st r)
      /\ ((forall i, In i positions ->
             keeps_infinity (interior_term st s m mx mn i) = true) ->
          forall r, NSGAIndividual.distance (st r) = infinity ->
                    NSGAIndividual.distance (st' r) = infinity)
      /\ (forall r, is_nan (NSGAIndividual.distance (st r)) = true ->
                    is_nan (NSGAIndividual.distance (st' r)) = true)
      /\ ((forall i, In i positions -> is_nan (interior_term st s m mx mn i) = true) ->
          forall r, In r (map (fun i => nth i s 0%nat) positions) ->
                    is_nan (NSGAIndividual.distance (st' r)) = true).
Proof.
  intros Hm Hmx Hmn. induction positions as [|i rest IH]; intros st Hpos Hfs.
  - exists st. split; [reflexivity|]. split; [intros; apply same_but_distance_refl|].
    split; [reflexivity|]. split; [auto|]. split; [auto|]. intros _ r [].
  - destruct (Hpos i (or_introl eq_refl)) as [Hi1 Hi2].
    pose proof (crowd_interior_spec dirs s m maxa mina mx mn i st Hi1 Hi2 Hfs Hm Hmx Hmn) as E1.
    set (p := nth i s 0%nat) in *.
    set (st1 := upd st p _) in E1.
    assert (Hs1 : forall r, same_but_distance (st1 r) (st r))
      by (intros r; apply same_but_distance_upd).
    assert (Hfs1 : forall q, In q s -> fully_scored dirs (st1 q) = true)
      by (apply (fully_scored_preserved dirs st st1 s Hs1 Hfs)).
    assert (Hpos' : forall j, In j rest -> (1 <= j /\ j + 1 < length s)%nat)
      by (intros j Hj; apply Hpos; now right).
    destruct (IH st1 Hpos' Hfs1) as (st' & E & Hs & Hfr & Hkeep & Hsticky & Hnan).
    assert (Hsticky1 : forall r, is_nan (NSGAIndividual.distance (st r)) = true ->
                                 is_nan (NSGAIndividual.distance (st1 r)) = true).
    { intros r Hr. unfold st1, upd. destruct (Nat.eqb r p) eqn:Er; [|exact Hr].
      apply Nat.eqb_eq in Er. subst r.
      cbn [NSGAIndividual.distance NSGAIndividual.set_distance].
      now apply FloatSpecial.add_nan_l. }
    exists st'. split; [|split; [|split; [|split; [|split]]]].
    + cbn [for_each]. now rewrite (bind_Ok _ _ E1).
    + intros r. eapply same_but_distance_trans; [apply Hs|apply Hs1].
    + intros r Hr. cbn [map] in Hr. rewrite Hfr by (intros H; apply Hr; now right).
      unfold st1. apply upd_other. intros ->. apply Hr. now left.
    + intros Hk r Hr. apply Hkeep.
      * intros j Hj. rewrite (interior_term_ext st st1 s m mx mn j Hs1). apply Hk. now right.
      * unfold st1, upd. destruct (Nat.eqb r p) eqn:Er; [|exact Hr].
        apply Nat.eqb_eq in Er. subst r. cbn [NSGAIndividual.distance NSGAIndividual.set_distance].
        rewrite Hr. apply FloatSpecial.infinity_add. apply Hk. now left.
    + intros r Hr. apply Hsticky. now apply Hsticky1.
    + intros Hn r Hr.
      destruct (Nat.eq_dec r p) as [->|Hne].
      * apply Hsticky. unfold st1. rewrite upd_same.
        cbn [NSGAIndividual.distance NSGAIndividual.set_distance].
        apply FloatSpecial.add_nan_r. apply Hn. now left.
      * apply Hnan.
        -- intros j Hj. rewrite (interior_term_ext st st1 s m mx mn j Hs1).
           apply Hn. now right.
        -- cbn [map] in Hr.
           destruct Hr as [Hr|Hr]; [exfalso; apply Hne; symmetry; exact Hr|exact Hr].
Qed.

Lemma crowd_objective_spec dirs I maxa mina mx mn m st :
  I <> [] ->
  (forall p, In p I -> fully_scored dirs (st p) = true) ->
  (m < length dirs)%nat -> nth m maxa None = Some mx -> nth m mina None = Some mn ->
  exists st',
    RankAndCrowdSort.crowd_objective I maxa mina m st = Ok (tt, st')
    /\ (forall r, same_but_distance (st' r) (st r))
    /\ (forall r, ~ In r I -> st' r = st r)
    /\ ((forall i, In i (seq 1 (length I - 2)) ->
           keeps_infinity (interior_term st (sorted (score_lt st m) I) m mx mn i) = true) ->
        NSGAIndividual.distance (st' (nth 0 (sorted (score_lt st m) I) 0%nat)) = infinity
        /\ NSGAIndividual.distance
             (st' (nth (length I - 1) (sorted (score_lt st m) I) 0%nat)) = infinity
        /\ forall r, NSGAIndividual.distance (st r) = infinity ->
                     NSGAIndividual.distance (st' r) = infinity)
    /\ (forall r, is_nan (NSGAIndividual.distance (st r)) = true ->
                  r <> nth 0 (sorted (score_lt st m) I) 0%nat ->
                  r <> nth (length I - 1) (sorted (score_lt st m) I) 0%nat ->
                  is_nan (NSGAIndividual.distance (st' r)) = true)
    /\ ((forall i, In i (seq 1 (length I - 2)) ->
           is_nan (interior_term st (sorted (score_lt st m) I) m mx mn i) = true) ->
        forall i, In i (seq 1 (length I - 2)) ->
          is_nan (NSGAIndividual.distance (st' (nth i (sorted (score_lt st m) I) 0%nat)))
          = true).
Proof.
  intros Hne Hfs Hm Hmx Hmn.
  set (s := sorted (score_lt st m) I).
  assert (Hlen : length s = length I) by apply sorted_length.
  assert (Hpos : (0 < length I)%nat) by (destruct I; [congruence|simpl; lia]).
  assert (Hin : forall p, In p s -> In p I).
  { intros p Hp. eapply Permutation_in; [apply sorted_perm|exact Hp]. }
  unfold RankAndCrowdSort.crowd_objective.
  assert (E0 : reads (fun st0 => sorted (score_lt st0 m) I) st = Ok (s, st)) by reflexivity.
  rewrite (bind_Ok _ _ E0).
  rewrite (bind_Ok _ _ (lift_Ok _ _ st (py_index_ok s 0%nat 0 ltac:(lia)))).
  erewrite bind_Ok by reflexivity.
  set (first := nth 0 s 0%nat).
  set (st1 := upd st first _).
  replace (Z.of_nat (length I) - 1)%Z with (Z.of_nat (length I - 1)) by lia.
  rewrite (bind_Ok _ _ (lift_Ok _ _ st1 (py_index_ok s 0%nat (length I - 1) ltac:(lia)))).
  erewrite bind_Ok by reflexivity.
  set (last := nth (length I - 1) s 0%nat).
  set (st2 := upd st1 last _).
  assert (Hs1 : forall r, same_but_distance (st1 r) (st r))
    by (intros r; apply same_but_distance_upd).
  assert (Hs2 : forall r, same_but_distance (st2 r) (st r)).
  { intros r. eapply same_but_distance_trans; [apply same_but_distance_upd|apply Hs1]. }
  assert (Hfs2 : forall p, In p s -> fully_scored dirs (st2 p) = true).
  { intros p Hp. apply (fully_scored_preserved dirs st st2 I Hs2 Hfs). now apply Hin. }
  assert (Hrange : forall i, In i (seq 1 (length I - 2)) -> (1 <= i /\ i + 1 < length s)%nat).
  { intros i Hi. apply in_seq in Hi. lia. }
  destruct (interior_loop_spec dirs s m maxa mina mx mn Hm Hmx Hmn
              (seq 1 (length I - 2)) st2 Hrange Hfs2)
    as (st' & E & Hs & Hfr & Hkeep & Hsticky & Hnan).
  assert (Hinf2 : NSGAIndividual.distance (st2 first) = infinity
                  /\ NSGAIndividual.distance (st2 last) = infinity
                  /\ forall r, NSGAIndividual.distance (st r) = infinity ->
                               NSGAIndividual.distance (st2 r) = infinity).
  { unfold st2, st1, upd. split; [|split].
    - destruct (Nat.eqb first last); [reflexivity|]. now rewrite Nat.eqb_refl.
    - now rewrite Nat.eqb_refl.
    - intros r Hr. destruct (Nat.eqb r last); [reflexivity|].
      destruct (Nat.eqb r first); [reflexivity|exact Hr]. }
  exists st'. split; [exact E|]. split; [|split; [|split; [|split]]].
  - intros r. eapply same_but_distance_trans; [apply Hs|apply Hs2].
  - intros r Hr. rewrite Hfr.
    + unfold st2, st1. rewrite !upd_other; auto.
      * intros ->. apply Hr, Hin. apply nth_In. lia.
      * intros ->. apply Hr, Hin. apply nth_In. lia.
    + intros H. apply in_map_iff in H. destruct H as [i [<- Hi]].
      apply Hr, Hin. apply nth_In. apply Hrange in Hi. lia.
  - intros Hk.
    assert (Hk2 : forall i, In i (seq 1 (length I - 2)) ->
              keeps_infinity (interior_term st2 s m mx mn i) = true).
    { intros i Hi. rewrite (interior_term_ext st st2 s m mx mn i Hs2). now apply Hk. }
    destruct Hinf2 as (Hf & Hl & Hr).
    split; [now apply (Hkeep Hk2)|]. split; [now apply (Hkeep Hk2)|].
    intros r Hr'. apply (Hkeep Hk2). now apply Hr.
  - intros r Hr Hnf Hnl. apply Hsticky. unfold st2, st1. now rewrite !upd_other.
  - intros Hn i Hi.
    assert (Hn2 : forall i, In i (seq 1 (length I - 2)) ->
              is_nan (interior_term st2 s m mx mn i) = true).
    { intros j Hj. rewrite (interior_term_ext st st2 s m mx mn j Hs2). now apply Hn. }
    apply (Hnan Hn2). apply in_map_iff. exists i. split; [reflexivity|exact Hi].
Qed.

Lemma insert_sorted_ext {A} (lt lt' : A -> A -> bool) x l :
  (forall a b, lt a b = lt' a b) -> insert_sorted lt x l = insert_sorted lt' x l.
Proof.
  intros H. induction l as [|h t IH]; simpl; [reflexivity|]. now rewrite H, IH.
Qed.

Lemma sorted_ext {A} (lt lt' : A -> A -> bool) l :
  (forall a b, lt a b = lt' a b) -> sorted lt l = sorted lt' l.
Proof.
  intros H. unfold sorted. generalize (@nil A).
  induction l as [|x l IH]; intros acc; simpl; [reflexivity|].
  now rewrite (insert_sorted_ext lt lt' x acc H), IH.
Qed.

Lemma score_lt_ext st st' m a b :
  (forall r, same_but_distance (st' r) (st r)) -> score_lt st' m a b = score_lt st m a b.
Proof.
  intros H. unfold score_lt, score_at.
  now rewrite !(same_but_distance_scores _ _ (H _)).
Qed.

Section CrowdingLoop.
Variable dirs : list OptimizeDirection.
Variable I : list ind_id.
Variable st0 : Store.
Variables maxa mina : list score.
Variables mxs mns : list float.

Hypothesis front_nonempty : I <> [].
Hypothesis front_scored : forall p, In p I -> fully_scored dirs (st0 p) = true.
Hypothesis maxa_values : forall m, (m < length dirs)%nat -> nth m maxa None = Some (nth m mxs nan).
Hypothesis mina_values : forall m, (m < length dirs)%nat -> nth m mina None = Some (nth m mns nan).

(** The front sorted by objective [m], and the term objective [m] adds at
    position [i]. *)
Let sorted_by (m : nat) : list ind_id := sorted (score_lt st0 m) I.
Let term (m i : nat) : float :=
  interior_term st0 (sorted_by m) m (nth m mxs nan) (nth m mns nan) i.
Let ends_of (m : nat) (r : ind_id) : Prop :=
  r = nth 0 (sorted_by m) 0%nat \/ r = nth (length I - 1) (sorted_by m) 0%nat.

Lemma objectives_loop_spec : forall ms st,
  (forall m, In m ms -> (m < length dirs)%nat) ->
  (forall r, same_but_distance (st r) (st0 r)) ->
  exists st',
    for_each ms (RankAndCrowdSort.crowd_objective I maxa mina) st = Ok (tt, st')
    /\ (forall r, same_but_distance (st' r) (st r))
    /\ (forall r, ~ In r I -> st' r = st r)
    /\ ((forall m i, In m ms -> In i (seq 1 (length I - 2)) ->
           keeps_infinity (term m i) = true) ->
        (forall r, NSGAIndividual.distance (st r) = infinity ->
                   NSGAIndividual.distance (st' r) = infinity)
        /\ forall m r, In m ms -> ends_of m r ->
             NSGAIndividual.distance (st' r) = infinity)
    /\ (forall r, (forall m, In m ms -> ~ ends_of m r) ->
          is_nan (NSGAIndividual.distance (st r)) = true ->
          is_nan (NSGAIndividual.distance (st' r)) = true)
    /\ (forall ms1 m ms2 i, ms = ms1 ++ m :: ms2 ->
          (forall j, In j (seq 1 (length I - 2)) -> is_nan (term m j) = true) ->
          In i (seq 1 (length I - 2)) ->
          (forall m', In m' ms2 -> ~ ends_of m' (nth i (sorted_by m) 0%nat)) ->
          is_nan (NSGAIndividual.distance (st' (nth i (sorted_by m) 0%nat))) = true).
Proof.
  induction ms as [|m ms IH]; intros st Hms Hs0.
  - exists st. split; [reflexivity|]. split; [intros; apply same_but_distance_refl|].
    split; [reflexivity|]. split; [intros _; split; [auto|intros m r []]|].
    split; [auto|]. intros [|? ?] ? ? ? H; discriminate H.
  - assert (Hm : (m < length dirs)%nat) by (apply Hms; now left).
    assert (Hfs : forall p, In p I -> fully_scored dirs (st p) = true)
      by (apply (fully_scored_preserved dirs st0 st I Hs0 front_scored)).
    destruct (crowd_objective_spec dirs I maxa mina (nth m mxs nan) (nth m mns nan) m st
                front_nonempty Hfs Hm (maxa_values m Hm) (mina_values m Hm))
      as (st1 & E1 & Hs1 & Hfr1 & Hkeep1 & Hsticky1 & Hnan1).
    assert (Hsort : sorted (score_lt st m) I = sorted_by m)
      by (apply sorted_ext; intros a b; now apply score_lt_ext).
    rewrite Hsort in Hkeep1, Hsticky1, Hnan1.
    assert (Hterm : forall i, interior_term st (sorted_by m) m (nth m mxs nan) (nth m mns nan) i
                              = term m i)
      by (intros i; apply interior_term_ext; exact Hs0).
    assert (Hs01 : forall r, same_but_distance (st1 r) (st0 r)).
    { intros r. eapply same_but_distance_trans; [apply Hs1|apply Hs0]. }
    assert (Hms' : forall m', In m' ms -> (m' < length dirs)%nat)
      by (intros m' H; apply Hms; now right).
    destruct (IH st1 Hms' Hs01) as (st' & E & Hs & Hfr & Hkeep & Hsticky & Hnan).
    exists st'. split; [|split; [|split; [|split; [|split]]]].
    + cbn [for_each]. now rewrite (bind_Ok _ _ E1).
    + intros r. eapply same_but_distance_trans; [apply Hs|apply Hs1].
    + intros r Hr. now rewrite Hfr, Hfr1.
    + intros Hk.
      assert (Hk1 : forall i, In i (seq 1 (length I - 2)) ->
                keeps_infinity
                  (interior_term st (sorted_by m) m (nth m mxs nan) (nth m mns nan) i) = true).
      { intros i Hi. rewrite Hterm. apply Hk; [now left|exact Hi]. }
      destruct (Hkeep1 Hk1) as (Hf1 & Hl1 & Hp1).
      assert (Hk' : forall m' i, In m' ms -> In i (seq 1 (length I - 2)) ->
                keeps_infinity (term m' i) = true)
        by (intros m' i Hm' Hi; apply Hk; [now right|exact Hi]).
      destruct (Hkeep Hk') as (Hp & He).
      split.
      * intros r Hr. apply Hp. now apply Hp1.
      * intros m' r [<-|Hm'] Hends.
        -- apply Hp. destruct Hends as [->| ->]; assumption.
        -- now apply (He m' r).
    + intros r Hnot Hr. apply Hsticky.
      * intros m' Hm'. apply Hnot. now right.
      * apply Hsticky1; [exact Hr| |].
        -- intros H. apply (Hnot m (or_introl eq_refl)). now left.
        -- intros H. apply (Hnot m (or_introl eq_refl)). now right.
    + intros ms1 m0 ms2 i Heq Hn Hi Hnot.
      destruct ms1 as [|m1 ms1]; simpl in Heq; injection Heq as -> ->.
      * apply Hsticky; [exact Hnot|]. apply Hnan1; [|exact Hi].
        intros j Hj. rewrite Hterm. now apply Hn.
      * now apply (Hnan ms1 m0 ms2 i eq_refl).
Qed.

End CrowdingLoop.

Lemma values_as_scores dirs x :
  fully_scored dirs x = true -> map Some (score_values x) = NSGAIndividual.scores x.
Proof.
  unfold fully_scored, score_values. rewrite andb_true_iff. intros [_ H].
  induction (NSGAIndividual.scores x) as [|[v|] l IH]; simpl in *; try discriminate; auto.
  now rewrite IH.
Qed.

Lemma all_nums_fully_scored dirs st (I : list ind_id) :
  (forall p, In p I -> fully_scored dirs (st p) = true) ->
  np.all_nums (map (fun p => NSGAIndividual.scores (st p)) I)
  = Ok (map (fun p => score_values (st p)) I).
Proof.
  induction I as [|p I IH]; intros H; simpl; [reflexivity|].
  rewrite (nums_fully_scored dirs _ (H p (or_introl eq_refl))). simpl.
  rewrite IH by (intros q Hq; apply H; now right). reflexivity.
Qed.

Lemma column_extrema_fully_scored dirs st (I : list ind_id) :
  I <> [] ->
  (forall p, In p I -> fully_scored dirs (st p) = true) ->
  column_extrema (map (fun p => NSGAIndividual.scores (st p)) I)
  = Ok (map Some (column_max (map (fun p => score_values (st p)) I)),
        map Some (column_min (map (fun p => score_values (st p)) I))).
Proof.
  intros Hne Hfs. destruct I as [|p [|q I]]; [congruence| |].
  - simpl. unfold column_max, column_min. simpl.
    now rewrite (values_as_scores dirs _ (Hfs p (or_introl eq_refl))).
  - unfold column_extrema.
    change (map (fun p0 => NSGAIndividual.scores (st p0)) (p :: q :: I))
      with (NSGAIndividual.scores (st p)
            :: NSGAIndividual.scores (st q)
            :: map (fun p0 => NSGAIndividual.scores (st p0)) I).
    change (NSGAIndividual.scores (st p)
            :: NSGAIndividual.scores (st q)
            :: map (fun p0 => NSGAIndividual.scores (st p0)) I)
      with (map (fun p0 => NSGAIndividual.scores (st p0)) (p :: q :: I)).
    rewrite (all_nums_fully_scored dirs st (p :: q :: I) Hfs). reflexivity.
Qed.

Lemma map2_length {A B C} (f : A -> B -> C) : forall l1 l2,
  length l1 = length l2 -> length (np.map2 f l1 l2) = length l1.
Proof.
  induction l1 as [|a l1 IH]; intros [|b l2] H; simpl in *; try discriminate; auto.
Qed.

Lemma fold_map2_length (f : float -> float -> float) : forall rows r,
  (forall v, In v rows -> length v = length r) ->
  length (fold_left (np.map2 f) rows r) = length r.
Proof.
  induction rows as [|v rows IH]; intros r H; simpl; [reflexivity|].
  assert (Hv : length r = length v) by (symmetry; apply H; now left).
  rewrite IH.
  - now apply map2_length.
  - intros w Hw. rewrite map2_length by exact Hv. apply H. now right.
Qed.

Lemma column_length (f : float -> float -> float) dirs st (I : list ind_id) :
  I <> [] ->
  (forall p, In p I -> fully_scored dirs (st p) = true) ->
  length (fold_left (np.map2 f) (tl (map (fun p => score_values (st p)) I))
                    (hd [] (map (fun p => score_values (st p)) I)))
  = length dirs.
Proof.
  intros Hne Hfs. destruct I as [|p I]; [congruence|]. simpl.
  rewrite fold_map2_length.
  - apply score_values_length. apply Hfs. now left.
  - intros v Hv. apply in_map_iff in Hv. destruct Hv as [q [<- Hq]].
    rewrite (score_values_length dirs (st q)) by (apply Hfs; now right).
    rewrite (score_values_length dirs (st p)) by (apply Hfs; now left). reflexivity.
Qed.

Lemma nth_map_Some (l : list float) m :
  (m < length l)%nat -> nth m (map Some l) None = Some (nth m l nan).
Proof.
  revert m. induction l as [|x l IH]; intros [|m] H; simpl in *; try lia; auto.
  apply IH. lia.
Qed.

Lemma rectangular_fully_scored dirs st (I : list ind_id) :
  (forall p, In p I -> fully_scored dirs (st p) = true) ->
  np.rectangular (map (fun p => NSGAIndividual.scores (st p)) I) = true.
Proof.
  intros Hfs.
  assert (Hlen : forall p, In p I -> length (NSGAIndividual.scores (st p)) = length dirs).
  { intros p Hp. specialize (Hfs p Hp). unfold fully_scored in Hfs.
    apply andb_true_iff in Hfs. destruct Hfs as [H _]. now apply Nat.eqb_eq in H. }
  destruct I as [|p I]; [reflexivity|]. simpl. apply forallb_forall.
  intros r Hr. apply in_map_iff in Hr. destruct Hr as [q [<- Hq]].
  apply Nat.eqb_eq. rewrite !Hlen; auto; [now left|now right].
Qed.

(** [crowding_distance_assignment] on a non-empty front of fully scored
    individuals: it returns the front, changes distances only, and its
    distances are described by the terms the objectives add. *)
Lemma crowding_spec dirs (I : list ind_id) st :
  I <> [] ->
  (forall p, In p I -> fully_scored dirs (st p) = true) ->
  exists st',
    RankAndCrowdSort.crowding_distance_assignment I st = Ok (I, st')
    /\ (forall r, same_but_distance (st' r) (st r))
    /\ (forall r, ~ In r I -> st' r = st r)
    /\ (contributions_keep_infinity st I (length dirs) = true ->
        forall m, (m < length dirs)%nat ->
          NSGAIndividual.distance (st' (nth 0 (sorted (score_lt st m) I) 0%nat)) = infinity
          /\ NSGAIndividual.distance
               (st' (nth (length I - 1) (sorted (score_lt st m) I) 0%nat)) = infinity)
    /\ (forall m i, (m < length dirs)%nat -> In i (seq 1 (length I - 2)) ->
          (forall j, In j (seq 1 (length I - 2)) -> is_nan (contribution st I m j) = true) ->
          (forall m', (m < m' < length dirs)%nat ->
             nth i (sorted (score_lt st m) I) 0%nat <> nth 0 (sorted (score_lt st m') I) 0%nat
             /\ nth i (sorted (score_lt st m) I) 0%nat
                <> nth (length I - 1) (sorted (score_lt st m') I) 0%nat) ->
          is_nan (NSGAIndividual.distance (st' (nth i (sorted (score_lt st m) I) 0%nat)))
          = true).
Proof.
  intros Hne Hfs. unfold RankAndCrowdSort.crowding_distance_assignment.
  assert (E0 : reads (fun st0 => map (fun p => NSGAIndividual.scores (st0 p)) I) st
               = Ok (map (fun p => NSGAIndividual.scores (st p)) I, st)) by reflexivity.
  rewrite (bind_Ok _ _ E0).
  rewrite (rectangular_fully_scored dirs st I Hfs). cbn [negb].
  rewrite (bind_Ok _ _ (lift_Ok _ _ st (column_extrema_fully_scored dirs st I Hne Hfs))).
  assert (Hpos : (0 < length I)%nat) by (destruct I; [congruence|simpl; lia]).
  rewrite (bind_Ok _ _ (lift_Ok _ _ st (py_index_ok I 0%nat 0 Hpos))).
  unfold bind at 1. unfold get at 1.
  assert (Hlen0 : length (NSGAIndividual.scores (st (nth 0 I 0%nat))) = length dirs).
  { assert (H : In (nth 0 I 0%nat) I) by (now apply nth_In).
    specialize (Hfs _ H). unfold fully_scored in Hfs. apply andb_true_iff in Hfs.
    destruct Hfs as [Hl _]. now apply Nat.eqb_eq in Hl. }
  rewrite Hlen0. cbn [fst snd].
  set (vals := map (fun p => score_values (st p)) I).
  assert (Hmax : forall m, (m < length dirs)%nat ->
            nth m (map Some (column_max vals)) None = Some (nth m (column_max vals) nan)).
  { intros m Hm. apply nth_map_Some. unfold column_max, vals.
    now rewrite (column_length np.maximum dirs st I Hne Hfs). }
  assert (Hmin : forall m, (m < length dirs)%nat ->
            nth m (map Some (column_min vals)) None = Some (nth m (column_min vals) nan)).
  { intros m Hm. apply nth_map_Some. unfold column_min, vals.
    now rewrite (column_length np.minimum dirs st I Hne Hfs). }
  assert (Hms : forall m, In m (seq 0 (length dirs)) -> (m < length dirs)%nat)
    by (intros m Hm; apply in_seq in Hm; lia).
  destruct (objectives_loop_spec dirs I st (map Some (column_max vals))
              (map Some (column_min vals)) (column_max vals) (column_min vals)
              Hne Hfs Hmax Hmin (seq 0 (length dirs)) st Hms
              (fun r => same_but_distance_refl (st r)))
    as (st' & E & Hs & Hfr & Hkeep & _ & Hnan).
  rewrite (bind_Ok _ _ E).
  exists st'. split; [reflexivity|]. split; [exact Hs|]. split; [exact Hfr|]. split.
  - intros Hc m Hm.
    unfold contributions_keep_infinity in Hc. rewrite forallb_forall in Hc.
    assert (Hk : forall m i, In m (seq 0 (length dirs)) -> In i (seq 1 (length I - 2)) ->
              keeps_infinity
                (interior_term st (sorted (score_lt st m) I) m
                   (nth m (column_max vals) nan) (nth m (column_min vals) nan) i) = true).
    { intros m0 i Hm0 Hi. specialize (Hc m0 Hm0). rewrite forallb_forall in Hc.
      exact (Hc i Hi). }
    destruct (Hkeep Hk) as [_ He].
    assert (Hin : In m (seq 0 (length dirs))) by (apply in_seq; lia).
    split; apply (He m); auto.
  - intros m i Hm Hi Hn Hnot.
    assert (Hsplit : seq 0 (length dirs)
                     = seq 0 m ++ m :: seq (Datatypes.S m) (length dirs - m - 1)).
    { replace (length dirs) with (m + Datatypes.S (length dirs - m - 1))%nat at 1 by lia.
      rewrite seq_app. reflexivity. }
    apply (Hnan (seq 0 m) m (seq (Datatypes.S m) (length dirs - m - 1)) i Hsplit); auto.
    intros m' Hm' [H|H]; apply in_seq in Hm'; destruct (Hnot m' ltac:(lia)); contradiction.
Qed.


(** C7 (the code departs from the claim). In the front (2,2,5), (1,3,5),
    (3,1,5) the second individual has the least score on objective 0 and the
    greatest on objective 1, and it ends with distance NaN, not +infinity:
    objective 2 has one value only, the individual sits between the other two
    in its order, and the unguarded quotient 0/0 is added to the infinite
    distance the first two objectives gave it.  The two other individuals are
    at the ends of the order of objective 2 and keep +infinity. *)
Theorem crowding_boundary_overwritten :
  sorted (score_lt (heap_of [[Some 2; Some 2; Some 5]; [Some 1; Some 3; Some 5];
                             [Some 3; Some 1; Some 5]]%float) 0)
         [0; 1; 2]%nat = [1; 0; 2]%nat
  /\ sorted (score_lt (heap_of [[Some 2; Some 2; Some 5]; [Some 1; Some 3; Some 5];
                                [Some 3; Some 1; Some 5]]%float) 1)
            [0; 1; 2]%nat = [2; 0; 1]%nat
  /\ sorted (score_lt (heap_of [[Some 2; Some 2; Some 5]; [Some 1; Some 3; Some 5];
                                [Some 3; Some 1; Some 5]]%float) 2)
            [0; 1; 2]%nat = [0; 1; 2]%nat
  /\ contribution (heap_of [[Some 2; Some 2; Some 5]; [Some 1; Some 3; Some 5];
                            [Some 3; Some 1; Some 5]]%float) [0; 1; 2]%nat 2 1 = nan
  /\ final_distances
       (RankAndCrowdSort.crowding_distance_assignment [0; 1; 2]%nat
          (heap_of [[Some 2; Some 2; Some 5]; [Some 1; Some 3; Some 5];
                    [Some 3; Some 1; Some 5]]%float))
       [0; 1; 2]%nat
     = Ok [infinity; nan; infinity].
Proof. repeat split; vm_compute; reflexivity. Qed.

(** * The survival update *)

Lemma select_fronts_spec dirs size : forall fronts acc st,
  Forall (fun f => f <> []) fronts ->
  (forall f p, In f fronts -> In p f -> fully_scored dirs (st p) = true) ->
  exists sel st',
    select_fronts (RankAndCrowdSortSurvival dirs size) fronts acc st = Ok (sel, st')
    /\ (forall r, same_but_distance (st' r) (st r))
    /\ ((size <= Z.of_nat (length sel))%Z \/ sel = acc ++ concat fronts).
Proof.
  induction fronts as [|f rest IH]; intros acc st Hne Hfs.
  - exists acc, st. split; [reflexivity|]. split; [intros; apply same_but_distance_refl|].
    right. simpl. now rewrite app_nil_r.
  - inversion Hne as [|? ? Hf Hrest]; subst.
    assert (Hfs_f : forall p, In p f -> fully_scored dirs (st p) = true)
      by (intros p Hp; apply (Hfs f p); [now left|exact Hp]).
    destruct (crowding_spec dirs f st Hf Hfs_f) as (st1 & E1 & Hs1 & _).
    cbn [select_fronts].
    replace (Nat.eqb (length f) 0) with false
      by (destruct f; [congruence|reflexivity]).
    cbn [sort_font population_size]. rewrite (bind_Ok _ _ E1).
    destruct (size <=? Z.of_nat (length (acc ++ f)))%Z eqn:Esz.
    + exists (acc ++ f), st1. split; [reflexivity|]. split; [exact Hs1|].
      left. now apply Z.leb_le.
    + assert (Hfs1 : forall g p, In g rest -> In p g -> fully_scored dirs (st1 p) = true).
      { intros g p Hg Hp.
        rewrite (fully_scored_ext dirs _ _ (same_but_distance_scores _ _ (Hs1 p))).
        apply (Hfs g p); [now right|exact Hp]. }
      destruct (IH (acc ++ f) st1 Hrest Hfs1) as (sel & st' & E & Hs & Hlen).
      exists sel, st'. split; [exact E|]. split.
      * intros r. eapply same_but_distance_trans; [apply Hs|apply Hs1].
      * destruct Hlen as [Hlen| ->]; [now left|right].
        simpl. now rewrite app_assoc.
Qed.

Lemma sorted_cmp_reverse_length cmp st l : length (sorted_cmp_reverse cmp st l) = length l.
Proof. unfold sorted_cmp_reverse. now rewrite length_rev, sorted_length, length_rev. Qed.

Lemma py_slice_to_length {A} (l : list A) k :
  (0 <= k <= Z.of_nat (length l))%Z -> Z.of_nat (length (py_slice_to l k)) = k.
Proof.
  intros Hk. unfold py_slice_to.
  replace (k <? 0)%Z with false by (symmetry; apply Z.ltb_ge; lia).
  rewrite length_firstn. lia.
Qed.

(** C2, as the code has it. For distinct, fully scored individuals and a
    non-negative [population_size], [update] of [RankAndCrowdSortSurvival]
    returns a list whose length is [len(pop) + len(challengers)] while
    [len(pop) < population_size] (the challengers are appended without
    selection) and exactly [population_size] once
    [len(pop) >= population_size]. *)
Theorem update_length
  (pareto_dominate_undirected : list score -> list score -> outcome bool)
  (dirs : list OptimizeDirection) (size : Z) (pop challengers : list ind_id) (st : Store) :
  (0 <= size)%Z ->
  NoDup (pop ++ challengers) ->
  (forall p, In p (pop ++ challengers) -> fully_scored dirs (st p) = true) ->
  exists r st',
    update pareto_dominate_undirected (RankAndCrowdSortSurvival dirs size)
           pop challengers st = Ok (r, st')
    /\ Z.of_nat (length r)
       = (if (Z.of_nat (length pop) <? size)%Z
          then Z.of_nat (length pop) + Z.of_nat (length challengers)
          else size)%Z.
Proof.
  intros Hsize Hnd Hfs. unfold update. cbn [population_size].
  destruct (Z.of_nat (length pop) <? size)%Z eqn:Efull.
  - exists (pop ++ challengers), st. split; [reflexivity|]. rewrite length_app. lia.
  - apply Z.ltb_ge in Efull.
    set (temp_pop := pop ++ challengers) in *.
    pose proof (base_dominate_pure pareto_dominate_undirected dirs size temp_pop st Hfs)
      as Hpure.
    pose proof (pareto_rel_trans dirs temp_pop st Hfs) as Htr.
    pose proof (pareto_rel_irrefl dirs temp_pop st) as Hirr.
    destruct (sort_spec pareto_dominate_undirected (RankAndCrowdSortSurvival dirs size)
                temp_pop (pareto_rel dirs st) (fun i => NSGAIndividual.scores (st i))
                Hpure Hnd Htr Hirr st (same_scores_refl temp_pop st))
      as (F' & st1 & E & Hperm & _ & Hne & Hfr & Hstatic & Hnil).
    rewrite (bind_Ok _ _ E).
    set (first := first_front (pareto_rel dirs st) temp_pop) in *.
    assert (Hin : forall f p, In f (first :: F') -> In p f -> In p temp_pop).
    { intros f p Hf Hp. eapply Permutation_in; [exact Hperm|].
      apply in_concat. exists f. split; assumption. }
    assert (Hfs1 : forall f p, In f (first :: F') -> In p f ->
              fully_scored dirs (st1 p) = true).
    { intros f p Hf Hp. pose proof (Hin f p Hf Hp) as Hp'.
      destruct (Hstatic p Hp') as (Hsc & _).
      rewrite (fully_scored_ext dirs (st1 p) (st p)); [now apply Hfs|].
      rewrite Hsc. reflexivity. }
    assert (Hlen_all : length (concat (first :: F')) = length temp_pop)
      by (now apply Permutation_length).
    assert (Hlen_pop : (size <= Z.of_nat (length temp_pop))%Z).
    { unfold temp_pop. rewrite length_app. lia. }
    destruct first as [|p0 first'] eqn:Efirst.
    + rewrite (Hnil eq_refl) in *. cbn [select_fronts length Nat.eqb].
      erewrite bind_Ok by reflexivity. erewrite bind_Ok by reflexivity.
      eexists _, _. split; [reflexivity|].
      simpl in Hlen_all. apply py_slice_to_length. simpl. lia.
    + assert (Hne' : Forall (fun f => f <> []) ((p0 :: first') :: F'))
        by (constructor; [discriminate|exact Hne]).
      destruct (select_fronts_spec dirs size ((p0 :: first') :: F') [] st1 Hne' Hfs1)
        as (sel & st2 & E2 & _ & Hlen).
      rewrite (bind_Ok _ _ E2). erewrite bind_Ok by reflexivity.
      eexists _, _. split; [reflexivity|].
      apply py_slice_to_length. rewrite sorted_cmp_reverse_length.
      destruct Hlen as [Hlen| ->]; [lia|]. rewrite app_nil_l, Hlen_all. lia.
Qed.

Lemma update_length_witness :
  (0 <= 2)%Z
  /\ NoDup ([0; 1] ++ [2])%nat
  /\ (forall p, In p ([0; 1] ++ [2])%nat ->
        fully_scored [Minimize; Minimize]
          (heap_of [[Some 1; Some 1]; [Some 2; Some 2]; [Some 3; Some 3]]%float p) = true)
  /\ exists r st',
       update minimize_all (RankAndCrowdSortSurvival [Minimize; Minimize] 2)
         [0; 1]%nat [2]%nat
         (heap_of [[Some 1; Some 1]; [Some 2; Some 2]; [Some 3; Some 3]]%float) = Ok (r, st')
       /\ Z.of_nat (length r) = 2%Z.
Proof.
  assert (Hsize : (0 <= 2)%Z) by lia.
  assert (Hnd : NoDup ([0; 1] ++ [2])%nat).
  { simpl. repeat constructor; simpl; intuition discriminate. }
  assert (Hfs : forall p, In p ([0; 1] ++ [2])%nat ->
            fully_scored [Minimize; Minimize]
              (heap_of [[Some 1; Some 1]; [Some 2; Some 2]; [Some 3; Some 3]]%float p) = true).
  { intros p [<-|[<-|[<-|[]]]]; reflexivity. }
  split; [exact Hsize|]. split; [exact Hnd|]. split; [exact Hfs|].
  destruct (update_length minimize_all [Minimize; Minimize] 2 [0; 1]%nat [2]%nat _
              Hsize Hnd Hfs) as (r & st' & E & Hlen).
  exists r, st'. split; [exact E|exact Hlen].
Defined.

(** C2 fails as stated: with [population_size = 1] and an empty population,
    two challengers are both returned. *)
Lemma update_exceeds_population_size :
  exists st',
    update minimize_all (RankAndCrowdSortSurvival [Minimize; Minimize] 1) [] [0; 1]%nat
      (heap_of [[Some 1; Some 1]; [Some 2; Some 2]]%float) = Ok ([0; 1]%nat, st')
    /\ (population_size (RankAndCrowdSortSurvival [Minimize; Minimize] 1)
        < Z.of_nat (length [0; 1]%nat))%Z.
Proof. eexists. split; [reflexivity|simpl; lia]. Qed.


(** * RDominanceSurvival.dominate on a pareto-equivalent pair *)

Lemma broadcast_same_length f a b :
  length a = length b -> np.broadcast f a b = Ok (np.map2 f a b).
Proof. intros H. unfold np.broadcast. rewrite H, Nat.eqb_refl. reflexivity. Qed.

Lemma reference_distance_ok ref_point weights ext sc :
  length sc = length ref_point -> length ext = length ref_point ->
  length weights = length ref_point ->
  RDominance.reference_distance ref_point weights ext sc
  = Ok (weighted_distance ref_point weights ext sc).
Proof.
  intros H1 H2 H3. unfold RDominance.reference_distance, weighted_distance.
  rewrite (broadcast_same_length sub sc ref_point H1). cbn [obind].
  rewrite (broadcast_same_length div (np.map2 sub sc ref_point) ext)
    by (rewrite map2_length; congruence). cbn [obind].
  rewrite (broadcast_same_length mul) by
    (unfold np.square; rewrite length_map, map2_length;
     [rewrite map2_length; congruence|rewrite map2_length; congruence]).
  reflexivity.
Qed.

Section ReferenceDistances.
Variable dirs : list OptimizeDirection.
Variables ref_point weights : list float.
Variable pop : list ind_id.
Variable st0 : Store.

Hypothesis pop_scored : forall p, In p pop -> fully_scored dirs (st0 p) = true.
Hypothesis pop_nonempty : pop <> [].
Hypothesis ref_length : length ref_point = length dirs.
Hypothesis weights_length : length weights = length dirs.

Lemma assign_loop_spec : forall l acc st,
  incl l pop ->
  (forall r, same_but_distance (st r) (st0 r)) ->
  exists st',
    for_fold l acc (fun distances indi =>
      bind (get indi) (fun x =>
      bind (lift (np.nums (NSGAIndividual.scores x))) (fun sc =>
      bind (lift (RDominance.reference_distance ref_point weights
                    (scores_extend (map (fun q => score_values (st0 q)) pop)) sc)) (fun d =>
      bind (modify indi (NSGAIndividual.set_distance d)) (fun _ =>
      ret (distances ++ [d])))))) st
    = Ok (acc ++ map (reference_distance_of ref_point weights st0 pop) l, st')
    /\ (forall r, st' r = if mem r l
                          then NSGAIndividual.set_distance
                                 (reference_distance_of ref_point weights st0 pop r) (st r)
                          else st r).
Proof.
  induction l as [|p l IH]; intros acc st Hl Hs.
  - exists st. simpl. rewrite app_nil_r. split; [reflexivity|]. reflexivity.
  - assert (Hp : In p pop) by (apply Hl; now left).
    assert (Hl' : incl l pop) by (intros x Hx; apply Hl; now right).
    assert (Hsc : NSGAIndividual.scores (st p) = NSGAIndividual.scores (st0 p))
      by (apply same_but_distance_scores, Hs).
    assert (Hfs : fully_scored dirs (st p) = true).
    { rewrite (fully_scored_ext dirs _ _ Hsc). now apply pop_scored. }
    assert (Hd : RDominance.reference_distance ref_point weights
                   (scores_extend (map (fun q => score_values (st0 q)) pop))
                   (score_values (st p))
                 = Ok (reference_distance_of ref_point weights st0 pop p)).
    { unfold reference_distance_of.
      rewrite (score_value_list_ext (st p) (st0 p) Hsc).
      apply reference_distance_ok.
      - rewrite (score_values_length dirs) by (now apply pop_scored). congruence.
      - unfold scores_extend. rewrite map2_length.
        + unfold column_max.
          rewrite (column_length np.maximum dirs st0 pop pop_nonempty pop_scored).
          congruence.
        + unfold column_max, column_min.
          now rewrite (column_length np.maximum dirs st0 pop pop_nonempty pop_scored),
                      (column_length np.minimum dirs st0 pop pop_nonempty pop_scored).
      - congruence. }
    set (st1 := upd st p (NSGAIndividual.set_distance
                            (reference_distance_of ref_point weights st0 pop p) (st p))).
    cbn [for_fold].
    erewrite bind_Ok with (a := acc ++ [reference_distance_of ref_point weights st0 pop p])
                          (st' := st1).
    2:{ unfold bind, get, lift, modify, ret.
        rewrite (nums_fully_scored dirs (st p) Hfs). cbn [obind].
        rewrite Hd. reflexivity. }
    assert (Hs1 : forall r, same_but_distance (st1 r) (st0 r)).
    { intros r. eapply same_but_distance_trans; [apply same_but_distance_upd|apply Hs]. }
    destruct (IH (acc ++ [reference_distance_of ref_point weights st0 pop p]) st1 Hl' Hs1)
      as (st' & E & Hst').
    exists st'. split.
    + rewrite E. cbn [map]. now rewrite <- app_assoc.
    + intros r. rewrite Hst'. cbn [mem existsb]. fold (mem r l).
      unfold st1, upd. destruct (Nat.eqb r p) eqn:Er.
      * apply Nat.eqb_eq in Er. subst r. cbn [orb]. now destruct (mem p l).
      * reflexivity.
Qed.

End ReferenceDistances.

Lemma reduce_axis0_ok f (vals : list (list float)) :
  vals <> [] ->
  np.reduce_axis0 f vals = Ok (fold_left (np.map2 f) (tl vals) (hd [] vals)).
Proof. destruct vals; [congruence|reflexivity]. Qed.

(** On a pair that neither way is Pareto dominance, [dominate] stores every
    member's distance to the reference point and answers by the gap test. *)
Lemma RDominance_dominate_spec
  (pareto_dominate_undirected : list score -> list score -> outcome bool)
  dirs size ref_point weights threshold ind1 ind2 (pop : list ind_id) st :
  pop <> [] ->
  (forall p, In p pop -> fully_scored dirs (st p) = true) ->
  length ref_point = length dirs -> length weights = length dirs ->
  pareto_dominate_undirected (NSGAIndividual.scores (st ind1))
                             (NSGAIndividual.scores (st ind2)) = Ok false ->
  pareto_dominate_undirected (NSGAIndividual.scores (st ind2))
                             (NSGAIndividual.scores (st ind1)) = Ok false ->
  exists st',
    dominate pareto_dominate_undirected
      (RDominanceSurvival dirs size ref_point weights threshold) ind1 ind2 pop st
    = Ok (RDominance.gap_below
            (NSGAIndividual.distance (st' ind1)) (NSGAIndividual.distance (st' ind2))
            (distance_spread (map (reference_distance_of ref_point weights st pop) pop))
            threshold, st')
    /\ (forall r, st' r = if mem r pop
                          then NSGAIndividual.set_distance
                                 (reference_distance_of ref_point weights st pop r) (st r)
                          else st r).
Proof.
  intros Hne Hfs Href Hw H1 H2.
  destruct (assign_loop_spec dirs ref_point weights pop st Hfs Hne Href Hw pop [] st
              (incl_refl pop) (fun r => same_but_distance_refl (st r)))
    as (st' & E & Hst').
  exists st'. split; [|exact Hst'].
  unfold dominate, RDominance_dominate, assign_reference_distances, pareto_dominate.
  unfold bind at 1. unfold get at 1. unfold bind at 1. unfold get at 1.
  rewrite (bind_Ok _ _ (lift_Ok _ _ st H1)).
  rewrite (bind_Ok _ _ (lift_Ok _ _ st H2)).
  assert (E0 : reads (fun st0 => map (fun p => NSGAIndividual.scores (st0 p)) pop) st
               = Ok (map (fun p => NSGAIndividual.scores (st p)) pop, st)) by reflexivity.
  rewrite (bind_Ok _ _ E0).
  rewrite (rectangular_fully_scored dirs st pop Hfs). cbn [negb].
  rewrite (bind_Ok _ _ (lift_Ok _ _ st (all_nums_fully_scored dirs st pop Hfs))).
  set (vals := map (fun p => score_values (st p)) pop).
  assert (Hvals : vals <> []) by (unfold vals; destruct pop; [congruence|discriminate]).
  rewrite (bind_Ok _ _ (lift_Ok _ _ st (reduce_axis0_ok np.maximum vals Hvals))).
  rewrite (bind_Ok _ _ (lift_Ok _ _ st (reduce_axis0_ok np.minimum vals Hvals))).
  fold (column_max vals). fold (column_min vals). fold (scores_extend vals).
  unfold vals. rewrite (bind_Ok _ _ E). cbn [app].
  set (ds := map (reference_distance_of ref_point weights st pop) pop).
  assert (Hds : exists d ds', ds = d :: ds').
  { unfold ds. destruct pop; [congruence|]. simpl. eauto. }
  destruct Hds as (d & ds' & Hds). rewrite Hds.
  unfold np.reduce. unfold lift at 1. cbn [obind].
  unfold bind at 1. unfold lift at 1. cbn [obind].
  unfold bind at 1. unfold bind at 1. unfold get at 1. unfold bind at 1. unfold get at 1.
  reflexivity.
Qed.

(** * The stable sort orders by its comparison *)

Section SortedOrder.
Context {A : Type} (lt : A -> A -> bool).
Hypothesis lt_asym : forall a b, lt a b = true -> lt b a = false.

Lemma insert_sorted_HdRel h x l :
  HdRel (fun a b => lt b a = false) h l -> lt x h = false ->
  HdRel (fun a b => lt b a = false) h (insert_sorted lt x l).
Proof.
  intros Hl Hx. destruct l as [|y l]; simpl.
  - now constructor.
  - destruct (lt x y); constructor; auto. now inversion Hl.
Qed.

Lemma insert_sorted_Sorted x l :
  Sorted (fun a b => lt b a = false) l ->
  Sorted (fun a b => lt b a = false) (insert_sorted lt x l).
Proof.
  induction l as [|h t IH]; intros Hs; simpl.
  - repeat constructor.
  - inversion Hs as [|? ? Ht Hh]; subst.
    destruct (lt x h) eqn:E.
    + constructor; [exact Hs|]. constructor. now apply lt_asym.
    + constructor; [now apply IH|]. now apply insert_sorted_HdRel.
Qed.

Lemma sorted_Sorted l : Sorted (fun a b => lt b a = false) (sorted lt l).
Proof.
  unfold sorted.
  assert (H : forall l acc, Sorted (fun a b => lt b a = false) acc ->
                Sorted (fun a b => lt b a = false)
                       (fold_left (fun acc x => insert_sorted lt x acc) l acc)).
  { clear l. induction l as [|x l IH]; intros acc Hacc; simpl; [exact Hacc|].
    apply IH. now apply insert_sorted_Sorted. }
  apply H. constructor.
Qed.

End SortedOrder.

(** * RDominanceSurvival.dominate answers by the Pareto test it is handed *)

(** When [pareto_dominate(ind1.scores, ind2.scores, directions)] is true,
    [dominate] returns True at once, and False at once when the converse is
    true: the heap is not touched. *)
Lemma RDominance_dominate_first
  (pareto_dominate_undirected : list score -> list score -> outcome bool)
  dirs size ref_point weights threshold ind1 ind2 (pop : list ind_id) st :
  pareto_dominate_undirected (NSGAIndividual.scores (st ind1))
                             (NSGAIndividual.scores (st ind2)) = Ok true ->
  dominate pareto_dominate_undirected
    (RDominanceSurvival dirs size ref_point weights threshold) ind1 ind2 pop st
  = Ok (true, st).
Proof.
  intros H. unfold dominate, RDominance_dominate, pareto_dominate.
  unfold bind at 1. unfold get at 1. unfold bind at 1. unfold get at 1.
  rewrite (bind_Ok _ _ (lift_Ok _ _ st H)). reflexivity.
Qed.

Lemma RDominance_dominate_second
  (pareto_dominate_undirected : list score -> list score -> outcome bool)
  dirs size ref_point weights threshold ind1 ind2 (pop : list ind_id) st :
  pareto_dominate_undirected (NSGAIndividual.scores (st ind1))
                             (NSGAIndividual.scores (st ind2)) = Ok false ->
  pareto_dominate_undirected (NSGAIndividual.scores (st ind2))
                             (NSGAIndividual.scores (st ind1)) = Ok true ->
  dominate pareto_dominate_undirected
    (RDominanceSurvival dirs size ref_point weights threshold) ind1 ind2 pop st
  = Ok (false, st).
Proof.
  intros H1 H2. unfold dominate, RDominance_dominate, pareto_dominate.
  unfold bind at 1. unfold get at 1. unfold bind at 1. unfold get at 1.
  rewrite (bind_Ok _ _ (lift_Ok _ _ st H1)).
  rewrite (bind_Ok _ _ (lift_Ok _ _ st H2)). reflexivity.
Qed.

(** [dominate] returns only if the Pareto tests it runs return. *)
Lemma RDominance_dominate_returns
  (pareto_dominate_undirected : list score -> list score -> outcome bool)
  dirs size ref_point weights threshold ind1 ind2 (pop : list ind_id) st b :
  returns (dominate pareto_dominate_undirected
             (RDominanceSurvival dirs size ref_point weights threshold) ind1 ind2 pop st) b ->
  exists b1,
    pareto_dominate_undirected (NSGAIndividual.scores (st ind1))
                               (NSGAIndividual.scores (st ind2)) = Ok b1
    /\ (b1 = false ->
        exists b2,
          pareto_dominate_undirected (NSGAIndividual.scores (st ind2))
                                     (NSGAIndividual.scores (st ind1)) = Ok b2).
Proof.
  intros [st' H]. unfold dominate, RDominance_dominate, pareto_dominate in H.
  unfold bind at 1 in H. unfold get at 1 in H. unfold bind at 1 in H. unfold get at 1 in H.
  destruct (pareto_dominate_undirected (NSGAIndividual.scores (st ind1))
              (NSGAIndividual.scores (st ind2))) as [b1| |] eqn:E1.
  - exists b1. split; [reflexivity|]. intros ->.
    rewrite (bind_Ok _ _ (lift_Ok _ _ st eq_refl)) in H.
    destruct (pareto_dominate_undirected (NSGAIndividual.scores (st ind2))
                (NSGAIndividual.scores (st ind1))) as [b2| |] eqn:E2.
    + now exists b2.
    + unfold bind at 1 in H. unfold lift at 1 in H. cbn in H. discriminate.
    + unfold bind at 1 in H. unfold lift at 1 in H. cbn in H. discriminate.
  - unfold bind at 1 in H. unfold lift at 1 in H. cbn in H. discriminate.
  - unfold bind at 1 in H. unfold lift at 1 in H. cbn in H. discriminate.
Qed.

(** C1 (the code departs from the claim). [RDominanceSurvival] inherits
    [fast_non_dominated_sort] and runs it with its own [dominate], which is
    not an order.  With reference point (1,1), weights (0.2,0.8) and
    threshold 0.3, among the scores (0,0), (1,1), (-0.1,1.1) the first
    dominates the second by Pareto dominance, the second the third and the
    third the first by the distance gap -0.5, whenever [pareto_dominate]
    without directions answers on these vectors as Pareto dominance with
    every objective minimized does.  Every individual then counts one
    dominator, the first front is empty, and the sort returns the single
    empty front: no individual is in any front, and every rank stays -1.
    [update] on a population of these three, already at [population_size],
    then returns the empty population. *)
Theorem fast_non_dominated_sort_r_dominance_cycle :
  (forall pareto_dominate_undirected : list score -> list score -> outcome bool,
     pareto_dominate_undirected [Some 0; Some 0]%float [Some 1; Some 1]%float = Ok true ->
     pareto_dominate_undirected [Some 1; Some 1]%float [Some (-0.1); Some 1.1]%float = Ok false ->
     pareto_dominate_undirected [Some (-0.1); Some 1.1]%float [Some 1; Some 1]%float = Ok false ->
     pareto_dominate_undirected [Some (-0.1); Some 1.1]%float [Some 0; Some 0]%float = Ok false ->
     pareto_dominate_undirected [Some 0; Some 0]%float [Some (-0.1); Some 1.1]%float = Ok false ->
     forall a b, In (a, b) [(0, 1); (1, 2); (2, 0)]%nat ->
       returns (dominate pareto_dominate_undirected
                  (RDominanceSurvival [Minimize; Minimize] 3 [1; 1]%float [0.2; 0.8]%float
                     0.3%float)
                  a b [0; 1; 2]%nat
                  (heap_of [[Some 0; Some 0]; [Some 1; Some 1]; [Some (-0.1); Some 1.1]]%float))
               true)
  /\ map (fun xy => minimize_all (fst xy) (snd xy))
       [([Some 0; Some 0], [Some 1; Some 1]);
        ([Some 1; Some 1], [Some (-0.1); Some 1.1]);
        ([Some (-0.1); Some 1.1], [Some 1; Some 1]);
        ([Some (-0.1); Some 1.1], [Some 0; Some 0]);
        ([Some 0; Some 0], [Some (-0.1); Some 1.1])]%float
     = [Ok true; Ok false; Ok false; Ok false; Ok false]
  /\ returns (update minimize_all
                (RDominanceSurvival [Minimize; Minimize] 3 [1; 1]%float [0.2; 0.8]%float
                   0.3%float)
                [0; 1; 2]%nat []
                (heap_of [[Some 0; Some 0]; [Some 1; Some 1]; [Some (-0.1); Some 1.1]]%float))
             []
  /\ exists st',
       fast_non_dominated_sort minimize_all
         (RDominanceSurvival [Minimize; Minimize] 3 [1; 1]%float [0.2; 0.8]%float 0.3%float)
         [0; 1; 2]%nat
         (heap_of [[Some 0; Some 0]; [Some 1; Some 1]; [Some (-0.1); Some 1.1]]%float)
       = Ok ([[]], st')
       /\ map (fun p => NSGAIndividual.n (st' p)) [0; 1; 2]%nat = [1; 1; 1]%Z
       /\ map (fun p => NSGAIndividual.rank (st' p)) [0; 1; 2]%nat = [-1; -1; -1]%Z.
Proof.
  split.
  - intros pdu H01 H12 H21 H20 H02 a b Hab.
    assert (Hne : [0; 1; 2]%nat <> []) by discriminate.
    assert (Hfs : forall p, In p [0; 1; 2]%nat ->
              fully_scored [Minimize; Minimize]
                (heap_of [[Some 0; Some 0]; [Some 1; Some 1]; [Some (-0.1); Some 1.1]]%float p)
              = true).
    { intros p [<-|[<-|[<-|[]]]]; reflexivity. }
    destruct Hab as [E|[E|[E|[]]]]; injection E as <- <-.
    + exists (heap_of [[Some 0; Some 0]; [Some 1; Some 1]; [Some (-0.1); Some 1.1]]%float).
      now apply RDominance_dominate_first.
    + destruct (RDominance_dominate_spec pdu [Minimize; Minimize] 3 [1; 1]%float
                  [0.2; 0.8]%float 0.3%float 1%nat 2%nat [0; 1; 2]%nat _ Hne Hfs
                  eq_refl eq_refl H12 H21) as (st' & E & Hst').
      exists st'. rewrite E, !Hst'. vm_compute. reflexivity.
    + destruct (RDominance_dominate_spec pdu [Minimize; Minimize] 3 [1; 1]%float
                  [0.2; 0.8]%float 0.3%float 2%nat 0%nat [0; 1; 2]%nat _ Hne Hfs
                  eq_refl eq_refl H20 H02) as (st' & E & Hst').
      exists st'. rewrite E, !Hst'. vm_compute. reflexivity.
  - split; [vm_compute; reflexivity|]. split; [eexists; vm_compute; reflexivity|].
    eexists. split; [vm_compute; reflexivity|]. split; vm_compute; reflexivity.
Qed.

(** C4 (the code departs from the claim). Under the directions
    (minimize, maximize) the scores (1,1) and (2,2) are Pareto-equivalent.
    With reference point (3,3) and equal weights their distances are 2 and 1,
    the spread is 1, and the gap of the first against the second is +1, not
    below -0.3, while the gap of the second against the first is -1.  But
    [dominate] never sees the searcher's directions: whatever
    [pareto_dominate] does without directions, it cannot answer True for the
    minimizing searcher, where (1,1) Pareto-dominates (2,2), and False here;
    with every objective minimized it answers True for the first against the
    second and False for the second against the first, the opposite of the
    gap test.  The four evaluations of the claim's scenario (distances 0.10
    and 0.14, spread 0.20, thresholds 0.3 and 0.1) are as the claim says. *)
Theorem r_dominance_gap_test_bypassed :
  pareto_rel [Minimize; Maximize] (heap_of [[Some 1; Some 1]; [Some 2; Some 2]]%float) 0 1 = false
  /\ pareto_rel [Minimize; Maximize] (heap_of [[Some 1; Some 1]; [Some 2; Some 2]]%float) 1 0
     = false
  /\ map (reference_distance_of [3; 3]%float [0.5; 0.5]%float
            (heap_of [[Some 1; Some 1]; [Some 2; Some 2]]%float) [0; 1]%nat) [0; 1]%nat
     = [2; 1]%float
  /\ RDominance.gap_below 2 1 (distance_spread [2; 1]%float) 0.3 = false
  /\ RDominance.gap_below 1 2 (distance_spread [2; 1]%float) 0.3 = true
  /\ pareto_rel [Minimize; Minimize] (heap_of [[Some 1; Some 1]; [Some 2; Some 2]]%float) 0 1
     = true
  /\ (forall pareto_dominate_undirected,
        ~ (returns (dominate pareto_dominate_undirected
                      (RDominanceSurvival [Minimize; Minimize] 2 [3; 3]%float
                         [0.5; 0.5]%float 0.3%float)
                      0%nat 1%nat [0; 1]%nat
                      (heap_of [[Some 1; Some 1]; [Some 2; Some 2]]%float)) true
           /\ returns (dominate pareto_dominate_undirected
                         (RDominanceSurvival [Minimize; Maximize] 2 [3; 3]%float
                            [0.5; 0.5]%float 0.3%float)
                         0%nat 1%nat [0; 1]%nat
                         (heap_of [[Some 1; Some 1]; [Some 2; Some 2]]%float)) false))
  /\ returns (dominate minimize_all
                (RDominanceSurvival [Minimize; Maximize] 2 [3; 3]%float
                   [0.5; 0.5]%float 0.3%float)
                0%nat 1%nat [0; 1]%nat
                (heap_of [[Some 1; Some 1]; [Some 2; Some 2]]%float)) true
  /\ returns (dominate minimize_all
                (RDominanceSurvival [Minimize; Maximize] 2 [3; 3]%float
                   [0.5; 0.5]%float 0.3%float)
                1%nat 0%nat [0; 1]%nat
                (heap_of [[Some 1; Some 1]; [Some 2; Some 2]]%float)) false
  /\ RDominance.gap_below 0.10 0.14 0.20 0.3 = false
  /\ RDominance.gap_below 0.14 0.10 0.20 0.3 = false
  /\ RDominance.gap_below 0.10 0.14 0.20 0.1 = true
  /\ RDominance.gap_below 0.14 0.10 0.20 0.1 = false.
Proof.
  repeat match goal with |- _ /\ _ => split end; try (vm_compute; reflexivity).
  - intros pdu [[s1 H1] [s2 H2]].
    change (dominate pdu (RDominanceSurvival [Minimize; Maximize] 2 [3; 3]%float
                            [0.5; 0.5]%float 0.3%float) 0%nat 1%nat [0; 1]%nat
              (heap_of [[Some 1; Some 1]; [Some 2; Some 2]]%float))
      with (dominate pdu (RDominanceSurvival [Minimize; Minimize] 2 [3; 3]%float
                            [0.5; 0.5]%float 0.3%float) 0%nat 1%nat [0; 1]%nat
              (heap_of [[Some 1; Some 1]; [Some 2; Some 2]]%float)) in H2.
    rewrite H1 in H2. discriminate H2.
  - eexists. vm_compute. reflexivity.
  - eexists. vm_compute. reflexivity.
Qed.

(** C10 (the code departs from the claim). Under the directions
    (minimize, maximize) neither of (1,1) and (2,2) Pareto-dominates the
    other, yet [dominate], which never sees the searcher's directions,
    returns from its Pareto test before the loop that stores the distances:
    whenever it answers True for the minimizing searcher, as Pareto dominance
    requires there, it returns here with the heap untouched.  With every
    objective minimized both calls leave the two distances at -1.0, where the
    distances to the reference point (3,3) are 2 and 1.  On a pair that the
    direction-blind test does hold equivalent the distances are stored, and
    [sort_font] orders a front by them, nearest first. *)
Theorem r_dominance_returns_before_distances :
  pareto_rel [Minimize; Maximize] (heap_of [[Some 1; Some 1]; [Some 2; Some 2]]%float) 0 1 = false
  /\ pareto_rel [Minimize; Maximize] (heap_of [[Some 1; Some 1]; [Some 2; Some 2]]%float) 1 0
     = false
  /\ (forall pareto_dominate_undirected,
        returns (dominate pareto_dominate_undirected
                   (RDominanceSurvival [Minimize; Minimize] 2 [3; 3]%float
                      [0.5; 0.5]%float 0.3%float)
                   0%nat 1%nat [0; 1]%nat
                   (heap_of [[Some 1; Some 1]; [Some 2; Some 2]]%float)) true ->
        dominate pareto_dominate_undirected
          (RDominanceSurvival [Minimize; Maximize] 2 [3; 3]%float [0.5; 0.5]%float 0.3%float)
          0%nat 1%nat [0; 1]%nat (heap_of [[Some 1; Some 1]; [Some 2; Some 2]]%float)
        = Ok (true, heap_of [[Some 1; Some 1]; [Some 2; Some 2]]%float))
  /\ dominate minimize_all
       (RDominanceSurvival [Minimize; Maximize] 2 [3; 3]%float [0.5; 0.5]%float 0.3%float)
       0%nat 1%nat [0; 1]%nat (heap_of [[Some 1; Some 1]; [Some 2; Some 2]]%float)
     = Ok (true, heap_of [[Some 1; Some 1]; [Some 2; Some 2]]%float)
  /\ dominate minimize_all
       (RDominanceSurvival [Minimize; Maximize] 2 [3; 3]%float [0.5; 0.5]%float 0.3%float)
       1%nat 0%nat [0; 1]%nat (heap_of [[Some 1; Some 1]; [Some 2; Some 2]]%float)
     = Ok (false, heap_of [[Some 1; Some 1]; [Some 2; Some 2]]%float)
  /\ map (fun p => NSGAIndividual.distance
                     (heap_of [[Some 1; Some 1]; [Some 2; Some 2]]%float p)) [0; 1]%nat
     = [-1; -1]%float
  /\ map (reference_distance_of [3; 3]%float [0.5; 0.5]%float
            (heap_of [[Some 1; Some 1]; [Some 2; Some 2]]%float) [0; 1]%nat) [0; 1]%nat
     = [2; 1]%float
  /\ returns ((dominate minimize_all
                 (RDominanceSurvival [Minimize; Minimize] 4 [0; 0]%float [0.2; 0.8]%float
                    0.3%float)
                 0%nat 1%nat [0; 1; 2; 3]%nat ;;;
               sort_font
                 (RDominanceSurvival [Minimize; Minimize] 4 [0; 0]%float [0.2; 0.8]%float
                    0.3%float)
                 [0; 1; 2; 3]%nat)
                (heap_of [[Some 1; Some 4]; [Some 2; Some 3]; [Some 3; Some 2];
                          [Some 4; Some 1]]%float))
             [3; 2; 1; 0]%nat.
Proof.
  repeat match goal with |- _ /\ _ => split end; try (vm_compute; reflexivity).
  - intros pdu Hret.
    destruct (RDominance_dominate_returns pdu _ _ _ _ _ _ _ _ _ _ Hret) as (b1 & E1 & Hb).
    destruct b1.
    + now apply RDominance_dominate_first.
    + exfalso. destruct (Hb eq_refl) as (b2 & E2). destruct Hret as [s Hs].
      destruct b2.
      * rewrite (RDominance_dominate_second pdu _ _ _ _ _ _ _ _ _ E1 E2) in Hs. discriminate.
      * assert (Hne : [0; 1]%nat <> []) by discriminate.
        assert (Hfs : forall p, In p [0; 1]%nat ->
                  fully_scored [Minimize; Minimize]
                    (heap_of [[Some 1; Some 1]; [Some 2; Some 2]]%float p) = true).
        { intros p [<-|[<-|[]]]; reflexivity. }
        destruct (RDominance_dominate_spec pdu [Minimize; Minimize] 2 [3; 3]%float
                    [0.5; 0.5]%float 0.3%float 0%nat 1%nat [0; 1]%nat _ Hne Hfs
                    eq_refl eq_refl E1 E2) as (st' & E & Hst').
        rewrite E, !Hst' in Hs. vm_compute in Hs. discriminate.
  - eexists. vm_compute. reflexivity.
Qed.


(** C5 (the code departs from the claim). [dominate] of [RDominanceSurvival]
    never reads the searcher's directions: it hands [pareto_dominate] the
    [directions] argument it was called with, which is [None] when the sort
    calls it.  So whatever [pareto_dominate] does without directions, the
    answer for (1,1) against (2,2) cannot be both True for a minimizing and
    False for a maximizing searcher, as the claim requires; with every
    objective minimized by default it is True for the maximizing searcher,
    under whose directions (2,2) dominates (1,1). *)
Theorem r_dominance_ignores_searcher_directions :
  (forall pareto_dominate_undirected d1 d2 size ref_point weights threshold p q pop st,
     dominate pareto_dominate_undirected
       (RDominanceSurvival d1 size ref_point weights threshold) p q pop st
     = dominate pareto_dominate_undirected
         (RDominanceSurvival d2 size ref_point weights threshold) p q pop st)
  /\ (forall pareto_dominate_undirected,
        ~ (returns (dominate pareto_dominate_undirected
                      (RDominanceSurvival [Minimize; Minimize] 2 [0; 0]%float
                         [0.5; 0.5]%float 0.3%float)
                      0%nat 1%nat [0; 1]%nat
                      (heap_of [[Some 1; Some 1]; [Some 2; Some 2]]%float)) true
           /\ returns (dominate pareto_dominate_undirected
                         (RDominanceSurvival [Maximize; Maximize] 2 [0; 0]%float
                            [0.5; 0.5]%float 0.3%float)
                         0%nat 1%nat [0; 1]%nat
                         (heap_of [[Some 1; Some 1]; [Some 2; Some 2]]%float)) false))
  /\ pareto_dominate minimize_all [Some 1; Some 1]%float [Some 2; Some 2]%float
       (Some [Minimize; Minimize]) = Ok true
  /\ pareto_dominate minimize_all [Some 2; Some 2]%float [Some 1; Some 1]%float
       (Some [Maximize; Maximize]) = Ok true
  /\ returns (dominate minimize_all
                (RDominanceSurvival [Maximize; Maximize] 2 [0; 0]%float
                   [0.5; 0.5]%float 0.3%float)
                0%nat 1%nat [0; 1]%nat
                (heap_of [[Some 1; Some 1]; [Some 2; Some 2]]%float)) true.
Proof.
  split; [reflexivity|]. split.
  { intros pdu [[s1 H1] [s2 H2]].
    change (dominate pdu (RDominanceSurvival [Maximize; Maximize] 2 [0; 0]%float
                            [0.5; 0.5]%float 0.3%float) 0%nat 1%nat [0; 1]%nat
              (heap_of [[Some 1; Some 1]; [Some 2; Some 2]]%float))
      with (dominate pdu (RDominanceSurvival [Minimize; Minimize] 2 [0; 0]%float
                            [0.5; 0.5]%float 0.3%float) 0%nat 1%nat [0; 1]%nat
              (heap_of [[Some 1; Some 1]; [Some 2; Some 2]]%float)) in H2.
    rewrite H1 in H2. discriminate H2. }
  split; [vm_compute; reflexivity|]. split; [vm_compute; reflexivity|].
  eexists. reflexivity.
Qed.

(** * calc_nondominated_set *)

Lemma undominated_among_base_pure
  (pareto_dominate_undirected : list score -> list score -> outcome bool)
  dirs size population indi : forall rest st b st',
  undominated_among pareto_dominate_undirected (RankAndCrowdSortSurvival dirs size)
    population indi rest st = Ok (b, st') -> st' = st.
Proof.
  induction rest as [|q rest IH]; intros st b st' H; cbn [undominated_among] in H.
  - now injection H as _ <-.
  - destruct (Nat.eqb q indi); [now apply IH in H|].
    unfold bind in H. cbn [dominate] in H. unfold RankAndCrowdSort_dominate in H.
    unfold bind, get, lift in H.
    destruct (pareto_dominate pareto_dominate_undirected _ _ _) as [c| |];
      cbn [obind] in H; try discriminate.
    destruct c; [now injection H as _ <-|now apply IH in H].
Qed.

(** An individual with a missing score is in no result the base class's
    [calc_nondominated_set] returns. *)
Lemma calc_nondominated_set_excludes_missing
  (pareto_dominate_undirected : list score -> list score -> outcome bool)
  dirs size population : forall l st ns st',
  filter_m (find_non_dominated_solu pareto_dominate_undirected
              (RankAndCrowdSortSurvival dirs size) population) l st = Ok (ns, st') ->
  st' = st /\ forall p, In p ns -> has_missing_score (st p) = false.
Proof.
  induction l as [|x l IH]; intros st ns st' H; cbn [filter_m] in H.
  - injection H as <- <-. split; [reflexivity|intros p []].
  - unfold bind at 1 in H.
    destruct (find_non_dominated_solu _ _ _ x st) as [[b s1]| |] eqn:E1; try discriminate.
    assert (Hs1 : s1 = st /\ (b = true -> has_missing_score (st x) = false)).
    { unfold find_non_dominated_solu, bind, get in E1.
      destruct (has_missing_score (st x)) eqn:Em.
      - injection E1 as <- <-. split; [reflexivity|discriminate].
      - apply undominated_among_base_pure in E1. split; [exact E1|reflexivity]. }
    destruct Hs1 as [-> Hb]. unfold bind at 1 in H.
    destruct (filter_m _ l st) as [[r s2]| |] eqn:E2; try discriminate.
    apply IH in E2. destruct E2 as [-> Hr].
    injection H as <- <-. split; [reflexivity|].
    intros p Hp. destruct b; [|now apply Hr].
    destruct Hp as [<-|Hp]; [now apply Hb|now apply Hr].
Qed.

Lemma fully_scored_not_missing dirs x :
  fully_scored dirs x = true -> has_missing_score x = false.
Proof.
  unfold fully_scored, has_missing_score. rewrite andb_true_iff. intros [_ H].
  induction (NSGAIndividual.scores x) as [|[v|] l IH]; simpl in *; try discriminate; auto.
Qed.

Lemma undominated_among_fully_scored
  (pareto_dominate_undirected : list score -> list score -> outcome bool)
  dirs size (population : list ind_id) st indi :
  fully_scored dirs (st indi) = true ->
  forall rest, (forall p, In p rest -> fully_scored dirs (st p) = true) ->
  undominated_among pareto_dominate_undirected (RankAndCrowdSortSurvival dirs size)
    population indi rest st
  = Ok (Nat.eqb (length (filter (dominated_by (pareto_rel dirs st) indi) rest)) 0, st).
Proof.
  intros Hi. induction rest as [|q rest IH]; intros Hfs; [reflexivity|].
  cbn [undominated_among filter]. unfold dominated_by at 1.
  rewrite (Nat.eqb_sym indi q).
  destruct (Nat.eqb q indi) eqn:E; cbn [negb andb].
  - apply IH. intros p Hp. apply Hfs. now right.
  - unfold bind. cbn [dominate]. unfold RankAndCrowdSort_dominate, bind, get, lift, pareto_dominate.
    rewrite (pareto_dominate_fully_scored dirs _ _ (Hfs q (or_introl eq_refl)) Hi).
    fold (pareto_rel dirs st q indi).
    destruct (pareto_rel dirs st q indi); [reflexivity|].
    apply IH. intros p Hp. apply Hfs. now right.
Qed.

(** On a history without missing scores, [calc_nondominated_set] of the base
    class returns, in the order of the history, the individuals no other one
    dominates, and leaves the heap as it was. *)
Lemma calc_nondominated_set_fully_scored
  (pareto_dominate_undirected : list score -> list score -> outcome bool)
  dirs size (population : list ind_id) st :
  (forall p, In p population -> fully_scored dirs (st p) = true) ->
  calc_nondominated_set pareto_dominate_undirected (RankAndCrowdSortSurvival dirs size)
    population st
  = Ok (first_front (pareto_rel dirs st) population, st).
Proof.
  intros Hfs. unfold calc_nondominated_set, first_front, dominators.
  assert (H : forall l, (forall p, In p l -> In p population) ->
            filter_m (find_non_dominated_solu pareto_dominate_undirected
                        (RankAndCrowdSortSurvival dirs size) population) l st
            = Ok (filter (fun p => Nat.eqb (length (filter (dominated_by (pareto_rel dirs st) p)
                                                           population)) 0) l, st)).
  { induction l as [|x l IH]; intros Hl; [reflexivity|].
    assert (Ex : find_non_dominated_solu pareto_dominate_undirected
                   (RankAndCrowdSortSurvival dirs size) population x st
                 = Ok (Nat.eqb (length (filter (dominated_by (pareto_rel dirs st) x)
                                               population)) 0, st)).
    { unfold find_non_dominated_solu, bind, get.
      rewrite (fully_scored_not_missing dirs _ (Hfs x (Hl x (or_introl eq_refl)))).
      apply (undominated_among_fully_scored _ dirs size population st x
               (Hfs x (Hl x (or_introl eq_refl))) population Hfs). }
    cbn [filter_m filter]. unfold bind at 1. rewrite Ex.
    unfold bind at 1. rewrite IH by (intros p Hp; apply Hl; now right).
    reflexivity. }
  apply H. auto.
Qed.

(** The result set is a function of the history alone: the current
    population is not read. *)
Lemma get_nondominated_set_of_history
  (pareto_dominate_undirected : list score -> list score -> outcome bool)
  (s : NSGAIISearcher) pop' rs :
  get_nondominated_set pareto_dominate_undirected s
  = get_nondominated_set pareto_dominate_undirected
      (mkSearcher pop' (survival s) (historical_individuals s) rs).
Proof. reflexivity. Qed.

(** C8 (the code departs from the claim). When the history holds an
    individual with a missing score next to a fully scored one,
    [calc_nondominated_set] does not return the fully scored individual: the
    loop of [find_non_dominated_solu] compares it against every other
    individual, the one with the missing score included, and that comparison
    raises. *)
Theorem calc_nondominated_set_compares_missing_scores :
  calc_nondominated_set minimize_all (RankAndCrowdSortSurvival [Minimize; Minimize] 2)
    [0; 1]%nat (heap_of [[None; Some 1]; [Some 1; Some 1]]%float)
  = Raise TypeError
  /\ has_missing_score (heap_of [[None; Some 1]; [Some 1; Some 1]]%float 0%nat) = true
  /\ fully_scored [Minimize; Minimize]
       (heap_of [[None; Some 1]; [Some 1; Some 1]]%float 1%nat) = true.
Proof. repeat split; reflexivity. Qed.

(** * Degenerate ranges

    An objective with one value over the whole front, and reference
    distances with one value over the whole population: the quotients the
    code forms are 0/0. *)

Module FloatExtremes.
Import FloatOrder.

Lemma sub_cmp_eq x y :
  cmp x y = Some Eq ->
  (exists s, Prim2SF (x - y) = S754_zero s) \/ Prim2SF (x - y) = S754_nan.
Proof.
  unfold cmp. rewrite sub_spec. unfold SF64sub.
  destruct (Prim2SF x) as [sx|sx| |sx mx ex], (Prim2SF y) as [sy|sy| |sy my ey];
    simpl; try discriminate;
    try (destruct sx; discriminate); try (destruct sy; discriminate).
  - intros _. left. destruct sx, sy; simpl; eauto.
  - destruct sx, sy; simpl; try discriminate; intros _; right; reflexivity.
  - intros H. left. exists false.
    assert (E : sx = sy /\ ex = ey /\ mx = my).
    { destruct sx, sy; try discriminate; injection H as H;
        destruct (Z.compare_spec ex ey); try discriminate;
        change (Pos.compare_cont Eq mx my) with (Pos.compare mx my) in H;
        destruct (Pos.compare_spec mx my); try discriminate; auto. }
    destruct E as (-> & -> & ->). rewrite Z.sub_diag. reflexivity.
Qed.

Lemma div_zero_or_nan a b :
  ((exists s, Prim2SF a = S754_zero s) \/ Prim2SF a = S754_nan) ->
  ((exists s, Prim2SF b = S754_zero s) \/ Prim2SF b = S754_nan) ->
  Prim2SF (a / b) = S754_nan.
Proof.
  rewrite div_spec. unfold SF64div.
  intros [[s ->]| ->] [[s' ->]| ->]; reflexivity.
Qed.

Lemma is_nan_SF x : is_nan x = true <-> Prim2SF x = S754_nan.
Proof.
  pose proof (is_nan_cmp x) as H. split.
  - intros E. destruct (Prim2SF x) eqn:Ex; try reflexivity;
      rewrite E in H; assert (F : true = false) by (apply H; discriminate); discriminate.
  - intros E. destruct (is_nan x); [reflexivity|]. exfalso. apply (proj1 H); auto.
Qed.

Lemma ltb_nan_l x y : Prim2SF x = S754_nan -> (x <? y)%float = false.
Proof.
  intros E. destruct (x <? y)%float eqn:L; [|reflexivity].
  apply ltb_cmp in L. unfold cmp in L. rewrite E in L. discriminate.
Qed.

Lemma leb_not_nan x y : (x <=? y)%float = true -> is_nan x = false /\ is_nan y = false.
Proof.
  intros H. apply leb_cmp in H. unfold cmp in H. split; apply is_nan_cmp; intros E;
    rewrite E in H; [|destruct (Prim2SF x)]; destruct H; discriminate.
Qed.

Lemma leb_refl x : is_nan x = false -> (x <=? x)%float = true.
Proof.
  intros H. apply is_nan_cmp in H. apply leb_cmp. right.
  destruct (SFcompare_some _ _ H H) as [c Hc]. unfold cmp. rewrite Hc.
  f_equal. now apply SFcompare_refl in Hc.
Qed.

Lemma leb_total x y :
  is_nan x = false -> is_nan y = false -> (y <=? x)%float = false -> (x <=? y)%float = true.
Proof.
  intros Hx Hy H. apply is_nan_cmp in Hx, Hy.
  destruct (SFcompare_some _ _ Hx Hy) as [c Hc]. apply leb_cmp. unfold cmp.
  destruct c; auto. exfalso.
  apply SFcompare_antisym in Hc. simpl in Hc.
  assert (T : (y <=? x)%float = true) by (apply leb_cmp; left; exact Hc). congruence.
Qed.

Lemma leb_antisym x y :
  (x <=? y)%float = true -> (y <=? x)%float = true -> cmp x y = Some Eq.
Proof.
  intros H1 H2. apply leb_cmp in H1, H2. destruct H1 as [H1|H1]; [|exact H1].
  exfalso. apply SFcompare_antisym in H1. unfold cmp in H2. rewrite H1 in H2.
  destruct H2; discriminate.
Qed.

Lemma fold_maximum_bound : forall l a,
  is_nan (fold_left np.maximum l a) = false ->
  forall x, In x (a :: l) -> (x <=? fold_left np.maximum l a)%float = true.
Proof.
  induction l as [|b l IH]; intros a Hn x Hx; cbn [fold_left] in *.
  - destruct Hx as [<-|[]]. now apply leb_refl.
  - pose proof (IH _ Hn) as Hall.
    assert (Hm : (np.maximum a b <=? fold_left np.maximum l (np.maximum a b))%float = true)
      by (apply Hall; now left).
    destruct (leb_not_nan _ _ Hm) as [Hmn _].
    assert (Hab : (a <=? np.maximum a b)%float = true /\ (b <=? np.maximum a b)%float = true).
    { unfold np.maximum in *. destruct (b <=? a)%float eqn:E; cbn [orb] in *.
      - split; [now apply leb_refl|exact E].
      - destruct (is_nan a) eqn:Ea; [congruence|]. split; [|now apply leb_refl].
        apply leb_total; assumption. }
    destruct Hx as [<-|[<-|Hx]].
    + apply (leb_trans _ _ _ (proj1 Hab) Hm).
    + apply (leb_trans _ _ _ (proj2 Hab) Hm).
    + apply Hall. now right.
Qed.

Lemma fold_minimum_bound : forall l a,
  is_nan (fold_left np.minimum l a) = false ->
  forall x, In x (a :: l) -> (fold_left np.minimum l a <=? x)%float = true.
Proof.
  induction l as [|b l IH]; intros a Hn x Hx; cbn [fold_left] in *.
  - destruct Hx as [<-|[]]. now apply leb_refl.
  - pose proof (IH _ Hn) as Hall.
    assert (Hm : (fold_left np.minimum l (np.minimum a b) <=? np.minimum a b)%float = true)
      by (apply Hall; now left).
    destruct (leb_not_nan _ _ Hm) as [_ Hmn].
    assert (Hab : (np.minimum a b <=? a)%float = true /\ (np.minimum a b <=? b)%float = true).
    { unfold np.minimum in *. destruct (a <=? b)%float eqn:E; cbn [orb] in *.
      - split; [now apply leb_refl|exact E].
      - destruct (is_nan a) eqn:Ea; [congruence|]. split; [|now apply leb_refl].
        apply leb_total; assumption. }
    destruct Hx as [<-|[<-|Hx]].
    + apply (leb_trans _ _ _ Hm (proj1 Hab)).
    + apply (leb_trans _ _ _ Hm (proj2 Hab)).
    + apply Hall. now right.
Qed.

(** Values between two equal extremes compare equal. *)
Lemma squeezed_equal mx mn a b :
  (mx =? mn)%float = true ->
  (a <=? mx)%float = true -> (mn <=? a)%float = true ->
  (b <=? mx)%float = true -> (mn <=? b)%float = true ->
  cmp a b = Some Eq.
Proof.
  intros E Ha1 Ha2 Hb1 Hb2.
  assert (L : (mx <=? mn)%float = true) by (apply leb_cmp; right; now apply eqb_cmp).
  apply leb_antisym.
  - apply (leb_trans _ _ _ Ha1). apply (leb_trans _ _ _ L Hb2).
  - apply (leb_trans _ _ _ Hb1). apply (leb_trans _ _ _ L Ha2).
Qed.

Lemma degenerate_quotient mx mn a b :
  (mx =? mn)%float = true ->
  (a <=? mx)%float = true -> (mn <=? a)%float = true ->
  (b <=? mx)%float = true -> (mn <=? b)%float = true ->
  is_nan ((a - b) / (mx - mn)) = true.
Proof.
  intros E Ha1 Ha2 Hb1 Hb2. apply is_nan_SF. apply div_zero_or_nan.
  - apply sub_cmp_eq. apply (squeezed_equal mx mn); assumption.
  - apply sub_cmp_eq. now apply eqb_cmp.
Qed.
End FloatExtremes.

Section DegenerateRanges.
Import FloatOrder FloatExtremes.

Lemma nth_map2 (f : float -> float -> float) : forall l1 l2 m,
  (m < length l1)%nat -> length l1 = length l2 ->
  nth m (np.map2 f l1 l2) nan = f (nth m l1 nan) (nth m l2 nan).
Proof.
  induction l1 as [|a l1 IH]; intros [|b l2] [|m] Hm Hl; simpl in *; try lia; auto.
  apply IH; lia.
Qed.

Lemma nth_fold_map2 (f : float -> float -> float) m : forall rows r,
  (m < length r)%nat ->
  (forall v, In v rows -> length v = length r) ->
  nth m (fold_left (np.map2 f) rows r) nan
  = fold_left f (map (fun v => nth m v nan) rows) (nth m r nan).
Proof.
  induction rows as [|v rows IH]; intros r Hm H; simpl; [reflexivity|].
  assert (Hv : length r = length v) by (symmetry; apply H; now left).
  rewrite IH.
  - now rewrite nth_map2.
  - now rewrite map2_length.
  - intros w Hw. rewrite map2_length by exact Hv. apply H. now right.
Qed.

(** The extremes of column [m] bound the scores of the front at [m]. *)
Lemma column_bounds dirs st (I : list ind_id) m :
  (forall p, In p I -> fully_scored dirs (st p) = true) ->
  (m < length dirs)%nat ->
  (nth m (column_max (map (fun p => score_values (st p)) I)) nan
   =? nth m (column_min (map (fun p => score_values (st p)) I)) nan)%float = true ->
  forall p, In p I ->
    (score_value (st p) m <=? nth m (column_max (map (fun p => score_values (st p)) I)) nan)%float
    = true
    /\ (nth m (column_min (map (fun p => score_values (st p)) I)) nan <=? score_value (st p) m)%float
       = true.
Proof.
  intros Hfs Hm E p Hp. destruct I as [|p0 I]; [destruct Hp|].
  assert (Hlen : forall q, In q (p0 :: I) -> length (score_values (st q)) = length dirs)
    by (intros q Hq; apply score_values_length; now apply Hfs).
  assert (Hrows : forall v, In v (map (fun q => score_values (st q)) I) ->
                            length v = length (score_values (st p0))).
  { intros v Hv. apply in_map_iff in Hv. destruct Hv as [q [<- Hq]].
    rewrite !Hlen; [reflexivity|now left|now right]. }
  assert (Hm0 : (m < length (score_values (st p0)))%nat)
    by (rewrite Hlen; [exact Hm|now left]).
  unfold column_max, column_min in *. cbn [map tl hd] in *.
  rewrite !(nth_fold_map2 _ m _ _ Hm0 Hrows) in E.
  rewrite !(nth_fold_map2 _ m _ _ Hm0 Hrows).
  rewrite !map_map in E. rewrite !map_map.
  assert (Hin : In (score_value (st p) m)
                   (nth m (score_values (st p0)) nan
                    :: map (fun q => nth m (score_values (st q)) nan) I)).
  { destruct Hp as [<-|Hp]; [now left|right].
    apply in_map_iff. exists p. split; [reflexivity|exact Hp]. }
  apply eqb_cmp in E.
  assert (Hn : is_nan (fold_left np.maximum
                         (map (fun q => nth m (score_values (st q)) nan) I)
                         (nth m (score_values (st p0)) nan)) = false
               /\ is_nan (fold_left np.minimum
                            (map (fun q => nth m (score_values (st q)) nan) I)
                            (nth m (score_values (st p0)) nan)) = false).
  { split; apply is_nan_cmp; intros F; unfold cmp in E; rewrite F in E;
      [|destruct (Prim2SF _)]; discriminate. }
  split; [apply fold_maximum_bound|apply fold_minimum_bound]; tauto.
Qed.

Lemma nth_sorted_In st m (I : list ind_id) i :
  (i < length I)%nat -> In (nth i (sorted (score_lt st m) I) 0%nat) I.
Proof.
  intros Hi. apply (Permutation_in _ (sorted_perm (score_lt st m) I)).
  apply nth_In. now rewrite sorted_length.
Qed.

(** On an objective whose maximum over the front equals its minimum, every
    interior term is NaN. *)
Lemma degenerate_contribution dirs st (I : list ind_id) m i :
  (forall p, In p I -> fully_scored dirs (st p) = true) ->
  (m < length dirs)%nat ->
  (nth m (column_max (map (fun p => score_values (st p)) I)) nan
   =? nth m (column_min (map (fun p => score_values (st p)) I)) nan)%float = true ->
  In i (seq 1 (length I - 2)) ->
  is_nan (contribution st I m i) = true.
Proof.
  intros Hfs Hm E Hi. apply in_seq in Hi.
  pose proof (column_bounds dirs st I m Hfs Hm E) as Hb.
  unfold contribution, interior_term. cbv zeta.
  destruct (Hb (nth (i + 1) (sorted (score_lt st m) I) 0%nat)) as [Ha1 Ha2];
    [apply nth_sorted_In; lia|].
  destruct (Hb (nth (i - 1) (sorted (score_lt st m) I) 0%nat)) as [Hb1 Hb2];
    [apply nth_sorted_In; lia|].
  apply degenerate_quotient; assumption.
Qed.

Lemma distance_spread_extremes ds :
  distance_spread ds = (distances_max ds - distances_min ds)%float.
Proof. destruct ds; reflexivity. Qed.

Lemma degenerate_gap ds d1 d2 threshold :
  (distances_max ds =? distances_min ds)%float = true ->
  In d1 ds -> In d2 ds ->
  RDominance.gap_below d1 d2 (distance_spread ds) threshold = false.
Proof.
  intros E H1 H2. unfold RDominance.gap_below. apply ltb_nan_l. apply is_nan_SF.
  rewrite distance_spread_extremes. destruct ds as [|d ds]; [destruct H1|].
  cbn [distances_max distances_min] in *.
  assert (Hn : is_nan (fold_left np.maximum ds d) = false
               /\ is_nan (fold_left np.minimum ds d) = false).
  { apply eqb_cmp in E. split; apply is_nan_cmp; intros F; unfold cmp in E; rewrite F in E;
      [|destruct (Prim2SF _)]; discriminate. }
  apply degenerate_quotient; try exact E;
    solve [apply fold_maximum_bound; tauto | apply fold_minimum_bound; tauto].
Qed.

End DegenerateRanges.


(** C3 (the code departs from the claim). Neither degenerate range is
    given a zero.  In the front (1,4,7), (2,3,7), (3,2,7), (4,1,7) the third
    objective has the single value 7: its term for an interior individual is
    the unguarded quotient 0/0, a NaN, and the two interior individuals,
    which hold 1/3 after the first two objectives, end with distance NaN.
    In [dominate] of [RDominanceSurvival] on the scores (1,2) and (2,1), both
    at the same distance from the reference point (0,0), the gap is the NaN
    0/0 as well; it is compared with [-threshold], the comparison is false,
    and [dominate] answers False both ways without raising. *)
Theorem crowding_single_valued_objective_gives_nan :
  final_distances
    (RankAndCrowdSort.crowding_distance_assignment [0; 1; 2; 3]%nat
       (heap_of [[Some 1; Some 4; Some 7]; [Some 2; Some 3; Some 7];
                 [Some 3; Some 2; Some 7]; [Some 4; Some 1; Some 7]]%float))
    [0; 1; 2; 3]%nat
  = Ok [infinity; nan; nan; infinity]
  /\ contribution
       (heap_of [[Some 1; Some 4; Some 7]; [Some 2; Some 3; Some 7];
                 [Some 3; Some 2; Some 7]; [Some 4; Some 1; Some 7]]%float)
       [0; 1; 2; 3]%nat 2 1 = nan
  /\ accumulated_distance
       (heap_of [[Some 1; Some 4; Some 7]; [Some 2; Some 3; Some 7];
                 [Some 3; Some 2; Some 7]; [Some 4; Some 1; Some 7]]%float)
       [0; 1; 2; 3]%nat 2 1%nat = 0.33333333333333326%float
  /\ (let ds := map (reference_distance_of [0; 0]%float [0.5; 0.5]%float
                      (heap_of [[Some 1; Some 2]; [Some 2; Some 1]]%float) [0; 1]%nat)
                   [0; 1]%nat in
      distance_spread ds = 0%float
      /\ ((nth 0 ds nan - nth 1 ds nan) / distance_spread ds)%float = nan)
  /\ returns (dominate minimize_all
                (RDominanceSurvival [Minimize; Minimize] 2 [0; 0]%float [0.5; 0.5]%float
                   0.3%float)
                0%nat 1%nat [0; 1]%nat (heap_of [[Some 1; Some 2]; [Some 2; Some 1]]%float))
             false
  /\ returns (dominate minimize_all
                (RDominanceSurvival [Minimize; Minimize] 2 [0; 0]%float [0.5; 0.5]%float
                   0.3%float)
                1%nat 0%nat [0; 1]%nat (heap_of [[Some 1; Some 2]; [Some 2; Some 1]]%float))
             false.
Proof.
  repeat match goal with |- _ /\ _ => split end; try (vm_compute; reflexivity).
  - split; vm_compute; reflexivity.
  - eexists. vm_compute. reflexivity.
  - eexists. vm_compute. reflexivity.
Qed.

(** * Further properties of the code *)
(** * The comparators *)

Module FloatCases.
Import FloatOrder.

(** The three primitive tests on two floats that are not NaN, read off their
    comparison. *)
Lemma compared x y :
  is_nan x = false -> is_nan y = false ->
  exists c, cmp x y = Some c /\ cmp y x = Some (CompOpp c)
    /\ (x <? y)%float = match c with Lt => true | _ => false end
    /\ (y <? x)%float = match c with Gt => true | _ => false end
    /\ (x =? y)%float = match c with Eq => true | _ => false end
    /\ (y =? x)%float = match c with Eq => true | _ => false end.
Proof.
  intros Hx Hy. apply is_nan_cmp in Hx, Hy.
  destruct (SFcompare_some _ _ Hx Hy) as [c Hc].
  pose proof (SFcompare_antisym _ _ _ Hc) as Hc'.
  exists c. split; [exact Hc|]. split; [exact Hc'|].
  rewrite !ltb_spec, !eqb_spec. unfold SFltb, SFeqb. rewrite Hc, Hc'.
  destruct c; repeat split; reflexivity.
Qed.

Lemma nan_tests x y :
  is_nan x = true \/ is_nan y = true ->
  (x <? y)%float = false /\ (y <? x)%float = false
  /\ (x =? y)%float = false /\ (y =? x)%float = false.
Proof.
  intros H.
  assert (E : cmp x y = None /\ cmp y x = None).
  { unfold cmp. destruct H as [H|H]; apply FloatExtremes.is_nan_SF in H; rewrite H.
    - split; [reflexivity|]. destruct (Prim2SF y); reflexivity.
    - split; [|reflexivity]. destruct (Prim2SF x); reflexivity. }
  destruct E as [E1 E2]. unfold cmp in E1, E2.
  rewrite !ltb_spec, !eqb_spec. unfold SFltb, SFeqb. rewrite E1, E2. auto.
Qed.

End FloatCases.

(** What a non-negative and a negative answer of [cmp_operator] say about
    the ranks: the rank decides before the distance is looked at. *)
Lemma cmp_operator_rank self s1 s2 :
  ((cmp_operator self s1 s2 <? 0)%Z = true ->
   (NSGAIndividual.rank s2 <= NSGAIndividual.rank s1)%Z)
  /\ ((cmp_operator self s1 s2 <? 0)%Z = false ->
      (NSGAIndividual.rank s1 <= NSGAIndividual.rank s2)%Z).
Proof.
  destruct self; cbn [cmp_operator];
    unfold RankAndCrowdSort.cmp_operator, RDominance.cmp_operator;
    destruct (Z.ltb_spec (NSGAIndividual.rank s1) (NSGAIndividual.rank s2));
    destruct (Z.eqb_spec (NSGAIndividual.rank s1) (NSGAIndividual.rank s2));
    split; intros Hc; try lia; try discriminate Hc.
Qed.

Lemma cmp_operator_preorder_facts self s1 s2 s3 :
  is_nan (NSGAIndividual.distance s1) = false ->
  is_nan (NSGAIndividual.distance s2) = false ->
  is_nan (NSGAIndividual.distance s3) = false ->
  cmp_operator self s2 s1 = (- cmp_operator self s1 s2)%Z
  /\ cmp_operator self s1 s1 = 0%Z
  /\ ((0 <= cmp_operator self s1 s2)%Z -> (0 <= cmp_operator self s2 s3)%Z ->
      (0 <= cmp_operator self s1 s3)%Z).
Proof.
  intros H1 H2 H3.
  destruct (FloatCases.compared _ _ H1 H2) as (c12 & C12 & C21 & L12 & L21 & E12 & E21).
  destruct (FloatCases.compared _ _ H2 H3) as (c23 & C23 & C32 & L23 & L32 & E23 & E32).
  destruct (FloatCases.compared _ _ H1 H3) as (c13 & C13 & C31 & L13 & L31 & E13 & E31).
  destruct (FloatCases.compared _ _ H1 H1) as (c11 & C11 & _ & L11 & _ & E11 & _).
  assert (Hc11 : c11 = Eq) by (now apply FloatOrder.SFcompare_refl in C11).
  assert (Htr : forall a b c, a <> Gt -> b <> Gt -> FloatOrder.cmp (NSGAIndividual.distance s1)
              (NSGAIndividual.distance s2) = Some a ->
              FloatOrder.cmp (NSGAIndividual.distance s2) (NSGAIndividual.distance s3) = Some b ->
              FloatOrder.cmp (NSGAIndividual.distance s1) (NSGAIndividual.distance s3) = Some c ->
              c <> Gt).
  { intros a b c Ha Hb Ca Cb Cc. unfold FloatOrder.cmp in *.
    destruct a; try congruence.
    - rewrite (FloatOrder.SFcompare_eq_l _ _ _ _ Ca Cb) in Cc. congruence.
    - destruct b; try congruence.
      + rewrite (FloatOrder.SFcompare_eq_r _ _ _ _ Ca Cb) in Cc. congruence.
      + rewrite (FloatOrder.SFcompare_lt_trans _ _ _ Ca Cb) in Cc. congruence. }
  assert (Htr' : forall a b c, a <> Lt -> b <> Lt -> FloatOrder.cmp (NSGAIndividual.distance s1)
              (NSGAIndividual.distance s2) = Some a ->
              FloatOrder.cmp (NSGAIndividual.distance s2) (NSGAIndividual.distance s3) = Some b ->
              FloatOrder.cmp (NSGAIndividual.distance s1) (NSGAIndividual.distance s3) = Some c ->
              c <> Lt).
  { intros a b c Ha Hb Ca Cb Cc. unfold FloatOrder.cmp in *.
    destruct a; try congruence.
    - rewrite (FloatOrder.SFcompare_eq_l _ _ _ _ Ca Cb) in Cc. congruence.
    - destruct b; try congruence.
      + rewrite (FloatOrder.SFcompare_eq_r _ _ _ _ Ca Cb) in Cc. congruence.
      + apply FloatOrder.SFcompare_antisym in Ca, Cb, Cc. simpl in *.
        rewrite (FloatOrder.SFcompare_lt_trans _ _ _ Cb Ca) in Cc.
        destruct c; simpl in Cc; congruence. }
  pose proof (Htr c12 c23 c13) as T. pose proof (Htr' c12 c23 c13) as T'.
  destruct self; cbn [cmp_operator];
    unfold RankAndCrowdSort.cmp_operator, RDominance.cmp_operator;
    rewrite ?L12, ?L21, ?E12, ?E21, ?L23, ?L32, ?E23, ?E32, ?L13, ?L31, ?E13, ?E31,
            ?L11, ?E11, ?Hc11, !Z.ltb_irrefl, !Z.eqb_refl.
  all: split; [|split; [reflexivity|]].
  all: destruct (Z.ltb_spec (NSGAIndividual.rank s1) (NSGAIndividual.rank s2));
    destruct (Z.ltb_spec (NSGAIndividual.rank s2) (NSGAIndividual.rank s1));
    destruct (Z.eqb_spec (NSGAIndividual.rank s1) (NSGAIndividual.rank s2));
    destruct (Z.eqb_spec (NSGAIndividual.rank s2) (NSGAIndividual.rank s1));
    try lia; try reflexivity.
  all: try (destruct c12; reflexivity).
  all: destruct (Z.ltb_spec (NSGAIndividual.rank s2) (NSGAIndividual.rank s3));
    destruct (Z.ltb_spec (NSGAIndividual.rank s1) (NSGAIndividual.rank s3));
    destruct (Z.eqb_spec (NSGAIndividual.rank s2) (NSGAIndividual.rank s3));
    destruct (Z.eqb_spec (NSGAIndividual.rank s1) (NSGAIndividual.rank s3));
    try lia.
  all: destruct c12, c23, c13; intros; try lia;
    solve [exfalso; apply T; congruence | exfalso; apply T'; congruence].
Qed.

Lemma cmp_operator_flip self s1 s2 :
  is_nan (NSGAIndividual.distance s1) = false ->
  is_nan (NSGAIndividual.distance s2) = false ->
  cmp_operator self s2 s1 = (- cmp_operator self s1 s2)%Z.
Proof. intros H1 H2. exact (proj1 (cmp_operator_preorder_facts self s1 s2 s2 H1 H2 H2)). Qed.

Lemma cmp_operator_trans self s1 s2 s3 :
  is_nan (NSGAIndividual.distance s1) = false ->
  is_nan (NSGAIndividual.distance s2) = false ->
  is_nan (NSGAIndividual.distance s3) = false ->
  (0 <= cmp_operator self s1 s2)%Z -> (0 <= cmp_operator self s2 s3)%Z ->
  (0 <= cmp_operator self s1 s3)%Z.
Proof.
  intros H1 H2 H3. exact (proj2 (proj2 (cmp_operator_preorder_facts self s1 s2 s3 H1 H2 H3))).
Qed.

(** X1. [cmp_operator] of either class, on individuals whose distances are not
    NaN, is the three-way comparison of a total preorder: swapping the
    arguments negates the answer, an individual compares equal to itself, and
    "at least as good as" is transitive. *)
Theorem cmp_operator_total_preorder self s1 s2 s3 :
  is_nan (NSGAIndividual.distance s1) = false ->
  is_nan (NSGAIndividual.distance s2) = false ->
  is_nan (NSGAIndividual.distance s3) = false ->
  cmp_operator self s2 s1 = (- cmp_operator self s1 s2)%Z
  /\ cmp_operator self s1 s1 = 0%Z
  /\ ((0 <= cmp_operator self s1 s2)%Z -> (0 <= cmp_operator self s2 s3)%Z ->
      (0 <= cmp_operator self s1 s3)%Z)
  /\ (-1 <= cmp_operator self s1 s2 <= 1)%Z.
Proof.
  intros H1 H2 H3.
  destruct (cmp_operator_preorder_facts self s1 s2 s3 H1 H2 H3) as (Hflip & Hrefl & Htrans).
  split; [exact Hflip|]. split; [exact Hrefl|]. split; [exact Htrans|].
  destruct self; cbn [cmp_operator];
    unfold RankAndCrowdSort.cmp_operator, RDominance.cmp_operator;
    repeat match goal with |- context [if ?b then _ else _] => destruct b end; lia.
Qed.

(** X2. With equal ranks, [cmp_operator] of either class answers -1 in both
    argument orders as soon as one of the two distances is NaN: such an
    individual compares worse than every individual of its rank, itself
    included, and every individual of its rank compares worse than it. *)
Theorem cmp_operator_nan_loses self s1 s2 :
  NSGAIndividual.rank s1 = NSGAIndividual.rank s2 ->
  is_nan (NSGAIndividual.distance s1) = true \/ is_nan (NSGAIndividual.distance s2) = true ->
  cmp_operator self s1 s2 = (-1)%Z /\ cmp_operator self s2 s1 = (-1)%Z.
Proof.
  intros Hr Hn. destruct (FloatCases.nan_tests _ _ Hn) as (L12 & L21 & E12 & E21).
  destruct self; cbn [cmp_operator];
    unfold RankAndCrowdSort.cmp_operator, RDominance.cmp_operator;
    rewrite Hr, Z.ltb_irrefl, Z.eqb_refl, L12, L21, E12, E21; split; reflexivity.
Qed.

Lemma cmp_operator_nan_loses_witness :
  cmp_operator (RankAndCrowdSortSurvival [Minimize] 2)
    (NSGAIndividual.mk [Some 1%float] 0 [] 0 [] nan)
    (NSGAIndividual.mk [Some 1%float] 0 [] 0 [] nan) = (-1)%Z.
Proof.
  exact (proj1 (cmp_operator_nan_loses (RankAndCrowdSortSurvival [Minimize] 2)
                  (NSGAIndividual.mk [Some 1%float] 0 [] 0 [] nan)
                  (NSGAIndividual.mk [Some 1%float] 0 [] 0 [] nan)
                  eq_refl (or_introl eq_refl))).
Defined.

Lemma cmp_operator_total_preorder_witness :
  cmp_operator (RDominanceSurvival [Minimize] 2 [0%float] [1%float] 0.3%float)
    (NSGAIndividual.mk [Some 1%float] 0 [] 0 [] 0.5%float)
    (NSGAIndividual.mk [Some 2%float] 0 [] 0 [] 0.25%float)
  = (- cmp_operator (RDominanceSurvival [Minimize] 2 [0%float] [1%float] 0.3%float)
         (NSGAIndividual.mk [Some 2%float] 0 [] 0 [] 0.25%float)
         (NSGAIndividual.mk [Some 1%float] 0 [] 0 [] 0.5%float))%Z.
Proof.
  exact (proj1 (cmp_operator_total_preorder
                  (RDominanceSurvival [Minimize] 2 [0%float] [1%float] 0.3%float)
                  (NSGAIndividual.mk [Some 2%float] 0 [] 0 [] 0.25%float)
                  (NSGAIndividual.mk [Some 1%float] 0 [] 0 [] 0.5%float)
                  (NSGAIndividual.mk [Some 1%float] 0 [] 0 [] 0.5%float)
                  eq_refl eq_refl eq_refl)).
Defined.

(** * Sorting by a comparator whose first key is the rank *)

Section SortedByKey.
Context {A : Type} (lt : A -> A -> bool) (key : A -> Z).
Hypothesis lt_key : forall x y, lt x y = true -> (key y <= key x)%Z.
Hypothesis nlt_key : forall x y, lt x y = false -> (key x <= key y)%Z.

Lemma insert_sorted_In x l a : In a (insert_sorted lt x l) -> a = x \/ In a l.
Proof.
  intros H. apply (Permutation_in _ (insert_sorted_perm lt x l)) in H.
  destruct H as [<-|H]; auto.
Qed.

Lemma insert_sorted_descending x l :
  StronglySorted (fun a b => (key b <= key a)%Z) l ->
  StronglySorted (fun a b => (key b <= key a)%Z) (insert_sorted lt x l).
Proof.
  induction l as [|h t IH]; intros Hs; simpl.
  - repeat constructor.
  - inversion Hs as [|? ? Ht Hh]; subst.
    destruct (lt x h) eqn:E.
    + constructor; [exact Hs|]. constructor; [now apply lt_key|].
      apply lt_key in E. rewrite Forall_forall in *. intros b Hb.
      specialize (Hh b Hb). lia.
    + constructor; [now apply IH|]. rewrite Forall_forall in *.
      intros b Hb. apply insert_sorted_In in Hb. destruct Hb as [->|Hb]; auto.
Qed.

Lemma sorted_descending l :
  StronglySorted (fun a b => (key b <= key a)%Z) (sorted lt l).
Proof.
  unfold sorted.
  assert (H : forall l acc, StronglySorted (fun a b => (key b <= key a)%Z) acc ->
                StronglySorted (fun a b => (key b <= key a)%Z)
                               (fold_left (fun acc x => insert_sorted lt x acc) l acc)).
  { clear l. induction l as [|x l IH]; intros acc Hacc; simpl; [exact Hacc|].
    apply IH. now apply insert_sorted_descending. }
  apply H. constructor.
Qed.

Lemma StronglySorted_snoc (R : A -> A -> Prop) l x :
  StronglySorted R l -> Forall (fun a => R a x) l -> StronglySorted R (l ++ [x]).
Proof.
  induction l as [|h t IH]; intros Hs Hf; simpl.
  - repeat constructor.
  - inversion Hs; subst. inversion Hf; subst.
    constructor; [now apply IH|]. apply Forall_app. split; [assumption|].
    constructor; [assumption|constructor].
Qed.

Lemma StronglySorted_rev (R : A -> A -> Prop) l :
  StronglySorted R l -> StronglySorted (fun a b => R b a) (rev l).
Proof.
  induction l as [|h t IH]; intros Hs; simpl; [constructor|].
  inversion Hs; subst. apply StronglySorted_snoc; [now apply IH|].
  rewrite Forall_forall in *. intros a Ha. apply in_rev in Ha. auto.
Qed.

Lemma StronglySorted_split (R : A -> A -> Prop) l1 l2 a b :
  StronglySorted R (l1 ++ l2) -> In a l1 -> In b l2 -> R a b.
Proof.
  induction l1 as [|h t IH]; intros Hs Ha Hb; [destruct Ha|].
  simpl in Hs. inversion Hs as [|? ? Ht Hh]; subst.
  destruct Ha as [<-|Ha]; [|now apply IH].
  rewrite Forall_forall in Hh. apply Hh. apply in_or_app. now right.
Qed.

End SortedByKey.

(** [sorted(l, key=cmp_to_key(cmp_operator), reverse=True)] is a
    rearrangement of [l] in which ranks never decrease. *)
Lemma sorted_cmp_reverse_perm cmp st l : Permutation (sorted_cmp_reverse cmp st l) l.
Proof.
  unfold sorted_cmp_reverse. rewrite <- Permutation_rev.
  rewrite sorted_perm. now rewrite <- Permutation_rev.
Qed.

Lemma sorted_cmp_reverse_ranks self st l :
  StronglySorted (fun a b => (NSGAIndividual.rank (st a) <= NSGAIndividual.rank (st b))%Z)
                 (sorted_cmp_reverse (cmp_operator self) st l).
Proof.
  unfold sorted_cmp_reverse.
  apply (StronglySorted_rev
           (fun a b => (NSGAIndividual.rank (st b) <= NSGAIndividual.rank (st a))%Z)).
  apply (sorted_descending _ (fun a => NSGAIndividual.rank (st a))).
  - intros x y. apply (proj1 (cmp_operator_rank self (st x) (st y))).
  - intros x y. apply (proj2 (cmp_operator_rank self (st x) (st y))).
Qed.

(** Stable insertion with a comparator that is a total preorder on the
    elements met: every element is at least as small as the ones after it. *)
Section SortedByPreorder.
Context {A : Type} (lt : A -> A -> bool) (P : A -> Prop).
Hypothesis lt_flip : forall x y, P x -> P y -> lt x y = true -> lt y x = false.
Hypothesis nlt_trans : forall x y z, P x -> P y -> P z ->
  lt y x = false -> lt z y = false -> lt z x = false.

Lemma insert_sorted_preorder x l :
  P x -> Forall P l ->
  StronglySorted (fun a b => lt b a = false) l ->
  StronglySorted (fun a b => lt b a = false) (insert_sorted lt x l).
Proof.
  intros Px. induction l as [|h t IH]; intros HP Hs; simpl.
  - repeat constructor.
  - inversion Hs as [|? ? Ht Hh]; subst. inversion HP as [|? ? Ph Pt]; subst.
    destruct (lt x h) eqn:E.
    + constructor; [exact Hs|]. constructor; [now apply lt_flip|].
      rewrite Forall_forall in *. intros b Hb.
      apply (nlt_trans x h b); auto.
    + constructor; [now apply IH|]. rewrite Forall_forall in *.
      intros b Hb. apply (Permutation_in _ (insert_sorted_perm lt x t)) in Hb.
      destruct Hb as [<-|Hb]; auto.
Qed.

Lemma sorted_preorder l :
  Forall P l -> StronglySorted (fun a b => lt b a = false) (sorted lt l).
Proof.
  unfold sorted.
  assert (H : forall l acc, Forall P l -> Forall P acc ->
                StronglySorted (fun a b => lt b a = false) acc ->
                StronglySorted (fun a b => lt b a = false)
                               (fold_left (fun acc x => insert_sorted lt x acc) l acc)).
  { clear l. induction l as [|x l IH]; intros acc Hl HP Hacc; simpl; [exact Hacc|].
    inversion Hl; subst. apply IH; [assumption| |now apply insert_sorted_preorder].
    rewrite Forall_forall in *. intros b Hb.
    apply (Permutation_in _ (insert_sorted_perm lt x acc)) in Hb.
    destruct Hb as [<-|Hb]; auto. }
  intros HP. apply H; [exact HP|constructor|constructor].
Qed.

End SortedByPreorder.

(** On individuals without a NaN distance, the sort by [cmp_operator] puts
    every individual before the ones it compares at least as good as. *)
Lemma sorted_cmp_reverse_ordered self st l :
  (forall p, In p l -> is_nan (NSGAIndividual.distance (st p)) = false) ->
  StronglySorted (fun a b => (0 <= cmp_operator self (st a) (st b))%Z)
                 (sorted_cmp_reverse (cmp_operator self) st l).
Proof.
  intros Hn. unfold sorted_cmp_reverse.
  set (lt := fun a b => (cmp_operator self (st a) (st b) <? 0)%Z).
  assert (Hs : StronglySorted (fun a b => lt b a = false) (sorted lt (rev l))).
  { apply (sorted_preorder lt
             (fun p => is_nan (NSGAIndividual.distance (st p)) = false)).
    - intros x y Hx Hy H. unfold lt in *. apply Z.ltb_lt in H. apply Z.ltb_ge.
      pose proof (cmp_operator_flip self (st x) (st y) Hx Hy). lia.
    - intros x y z Hx Hy Hz H1 H2. unfold lt in *. apply Z.ltb_ge in H1, H2.
      apply Z.ltb_ge.
      apply (cmp_operator_trans self (st z) (st y) (st x)); assumption.
    - apply Forall_forall. intros p Hp. apply Hn. now apply in_rev. }
  apply StronglySorted_rev in Hs.
  eapply StronglySorted_ind with (P := fun l' =>
    StronglySorted (fun a b => (0 <= cmp_operator self (st a) (st b))%Z) l');
    [constructor| |exact Hs].
  intros a l' _ IH Hf. constructor; [exact IH|].
  rewrite Forall_forall in *. intros b Hb. specialize (Hf b Hb).
  unfold lt in Hf. now apply Z.ltb_ge in Hf.
Qed.

(** * sort_population *)

(** X3. [sort_population] of [RDominanceSurvival] returns a rearrangement of the
    population in which ranks never decrease, and reads the heap only; when no
    distance is NaN every individual compares at least as good as each one
    after it.  The base class's [sort_population] returns the empty list for
    an empty population and raises TypeError otherwise. *)
Theorem sort_population_ordered dirs size ref_point weights threshold population st :
  exists r,
    sort_population (RDominanceSurvival dirs size ref_point weights threshold) population st
    = Ok (r, st)
    /\ Permutation r population
    /\ StronglySorted
         (fun a b => (NSGAIndividual.rank (st a) <= NSGAIndividual.rank (st b))%Z) r
    /\ ((forall p, In p population -> is_nan (NSGAIndividual.distance (st p)) = false) ->
        StronglySorted
          (fun a b => (0 <= RDominance.cmp_operator (st a) (st b))%Z) r)
    /\ sort_population (RankAndCrowdSortSurvival dirs size) [] st = Ok ([], st)
    /\ (population <> [] ->
        sort_population (RankAndCrowdSortSurvival dirs size) population st = Raise TypeError).
Proof.
  eexists. split; [reflexivity|]. split; [apply sorted_cmp_reverse_perm|]. split.
  - apply (sorted_cmp_reverse_ranks
             (RDominanceSurvival dirs size ref_point weights threshold)).
  - split.
    + intros Hn.
      apply (sorted_cmp_reverse_ordered
               (RDominanceSurvival dirs size ref_point weights threshold) st population Hn).
    + split; [reflexivity|]. destruct population; [congruence|reflexivity].
Qed.

(** * update at capacity *)

(** The walk over the fronts in [update] consumes a prefix of the fronts:
    all of them, or as many as reach the population size. *)
Lemma select_fronts_prefix dirs size : forall fronts acc st,
  Forall (fun f => f <> []) fronts ->
  (forall f p, In f fronts -> In p f -> fully_scored dirs (st p) = true) ->
  exists k st',
    (k <= length fronts)%nat
    /\ select_fronts (RankAndCrowdSortSurvival dirs size) fronts acc st
       = Ok (acc ++ concat (firstn k fronts), st')
    /\ (forall r, same_but_distance (st' r) (st r))
    /\ (forall r, ~ In r (concat (firstn k fronts)) -> st' r = st r)
    /\ ((size <= Z.of_nat (length (acc ++ concat (firstn k fronts))))%Z
        \/ k = length fronts).
Proof.
  induction fronts as [|f rest IH]; intros acc st Hne Hfs.
  - exists 0%nat, st. simpl. rewrite app_nil_r.
    split; [lia|]. split; [reflexivity|].
    split; [intros; apply same_but_distance_refl|]. split; [reflexivity|now right].
  - inversion Hne as [|? ? Hf Hrest]; subst.
    assert (Hfs_f : forall p, In p f -> fully_scored dirs (st p) = true)
      by (intros p Hp; apply (Hfs f p); [now left|exact Hp]).
    destruct (crowding_spec dirs f st Hf Hfs_f) as (st1 & E1 & Hs1 & Hfr1 & _).
    cbn [select_fronts].
    replace (Nat.eqb (length f) 0) with false
      by (destruct f; [congruence|reflexivity]).
    cbn [sort_font population_size]. rewrite (bind_Ok _ _ E1).
    destruct (size <=? Z.of_nat (length (acc ++ f)))%Z eqn:Esz.
    + exists 1%nat, st1. cbn [firstn concat]. rewrite app_nil_r.
      split; [simpl; lia|]. split; [reflexivity|]. split; [exact Hs1|].
      split; [exact Hfr1|]. left. now apply Z.leb_le.
    + assert (Hfs1 : forall g p, In g rest -> In p g -> fully_scored dirs (st1 p) = true).
      { intros g p Hg Hp.
        rewrite (fully_scored_ext dirs _ _ (same_but_distance_scores _ _ (Hs1 p))).
        apply (Hfs g p); [now right|exact Hp]. }
      destruct (IH (acc ++ f) st1 Hrest Hfs1) as (k & st' & Hk & E & Hs & Hfr & Hlen).
      exists (Datatypes.S k), st'. cbn [firstn concat]. rewrite app_assoc.
      split; [simpl; lia|]. split; [exact E|]. split.
      * intros r. eapply same_but_distance_trans; [apply Hs|apply Hs1].
      * split.
        -- intros r Hr. rewrite Hfr, Hfr1; [reflexivity| |];
             intros H; apply Hr; apply in_or_app; auto.
        -- destruct Hlen as [Hlen|Hlen]; [now left|right; simpl; lia].
Qed.

Lemma in_concat_nth_error {A} (F : list (list A)) x :
  In x (concat F) -> exists j g, nth_error F j = Some g /\ In x g.
Proof.
  intros H. apply in_concat in H. destruct H as (g & Hg & Hx).
  apply In_nth_error in Hg. destruct Hg as [j Hj]. eauto.
Qed.

Lemma StronglySorted_firstn {A} (R : A -> A -> Prop) n : forall l,
  StronglySorted R l -> StronglySorted R (firstn n l).
Proof.
  induction n as [|n IH]; intros l Hs; [constructor|].
  destruct l as [|a l]; [constructor|]. inversion Hs; subst. simpl.
  constructor; [now apply IH|]. rewrite Forall_forall in *.
  intros b Hb. match goal with H : forall x, In x l -> _ |- _ => apply H end.
  rewrite <- (firstn_skipn n l). apply in_or_app. now left.
Qed.

Lemma firstn_incl_NoDup {A} (n : nat) (l : list A) :
  NoDup l -> NoDup (firstn n l) /\ incl (firstn n l) l
  /\ forall b, In b l -> ~ In b (firstn n l) -> In b (skipn n l).
Proof.
  intros Hnd. rewrite <- (firstn_skipn n l) in Hnd at 1.
  split; [now apply NoDup_app_remove_r in Hnd|]. split.
  - intros x Hx. rewrite <- (firstn_skipn n l). apply in_or_app. now left.
  - intros b Hb Hnb. rewrite <- (firstn_skipn n l) in Hb.
    apply in_app_or in Hb. tauto.
Qed.

(** [update] on a population that has reached its size. *)
Lemma update_full_spec
  (pareto_dominate_undirected : list score -> list score -> outcome bool)
  (dirs : list OptimizeDirection) (size : Z) (pop challengers : list ind_id) (st : Store) :
  (0 <= size <= Z.of_nat (length pop))%Z ->
  NoDup (pop ++ challengers) ->
  (forall p, In p (pop ++ challengers) -> fully_scored dirs (st p) = true) ->
  exists r st',
    update pareto_dominate_undirected (RankAndCrowdSortSurvival dirs size)
           pop challengers st = Ok (r, st')
    /\ Z.of_nat (length r) = size
    /\ NoDup r /\ incl r (pop ++ challengers)
    /\ (forall p, NSGAIndividual.scores (st' p) = NSGAIndividual.scores (st p))
    /\ (forall p, ~ In p (pop ++ challengers) -> st' p = st p)
    /\ (forall a b, In a r -> In b (pop ++ challengers) -> ~ In b r ->
          (NSGAIndividual.rank (st' a) <= NSGAIndividual.rank (st' b))%Z)
    /\ ((forall p, In p (pop ++ challengers) ->
           is_nan (NSGAIndividual.distance (st' p)) = false) ->
        forall a b, In a r -> In b (pop ++ challengers) -> ~ In b r ->
          (0 <= RankAndCrowdSort.cmp_operator (st' a) (st' b))%Z)
    /\ StronglySorted
         (fun a b => (NSGAIndividual.rank (st' a) <= NSGAIndividual.rank (st' b))%Z) r
    /\ ((forall p, In p (pop ++ challengers) ->
           is_nan (NSGAIndividual.distance (st' p)) = false) ->
        StronglySorted
          (fun a b => (0 <= RankAndCrowdSort.cmp_operator (st' a) (st' b))%Z) r).
Proof.
  intros Hsize Hnd Hfs. unfold update. cbn [population_size].
  replace (Z.of_nat (length pop) <? size)%Z with false by (symmetry; apply Z.ltb_ge; lia).
  set (temp_pop := pop ++ challengers) in *.
  pose proof (base_dominate_pure pareto_dominate_undirected dirs size temp_pop st Hfs)
    as Hpure.
  pose proof (pareto_rel_trans dirs temp_pop st Hfs) as Htr.
  pose proof (pareto_rel_irrefl dirs temp_pop st) as Hirr.
  destruct (sort_spec pareto_dominate_undirected (RankAndCrowdSortSurvival dirs size)
              temp_pop (pareto_rel dirs st) (fun i => NSGAIndividual.scores (st i))
              Hpure Hnd Htr Hirr st (same_scores_refl temp_pop st))
    as (F' & st1 & E & Hperm & Hrk & Hne & Hfr & Hstatic & Hnil).
  rewrite (bind_Ok _ _ E).
  set (first := first_front (pareto_rel dirs st) temp_pop) in *.
  set (F := first :: F') in *.
  assert (Hin : forall p, In p (concat F) <-> In p temp_pop).
  { intros p. split; apply Permutation_in; [exact Hperm|now apply Permutation_sym]. }
  assert (HndF : NoDup (concat F)).
  { apply (Permutation_NoDup (Permutation_sym Hperm) Hnd). }
  assert (Hsc1 : forall p, NSGAIndividual.scores (st1 p) = NSGAIndividual.scores (st p)).
  { intros p. destruct (in_dec Nat.eq_dec p temp_pop) as [Hp|Hp].
    - now destruct (Hstatic p Hp) as (Hsc & _).
    - now rewrite (Hfr p Hp). }
  assert (Hlen_pop : (size <= Z.of_nat (length temp_pop))%Z).
  { unfold temp_pop. rewrite length_app. lia. }
  assert (Hsel : exists k st2,
            select_fronts (RankAndCrowdSortSurvival dirs size) F [] st1
            = Ok (concat (firstn k F), st2)
            /\ (forall r, same_but_distance (st2 r) (st1 r))
            /\ (forall r, ~ In r (concat (firstn k F)) -> st2 r = st1 r)
            /\ ((size <= Z.of_nat (length (concat (firstn k F))))%Z
                \/ firstn k F = F)).
  { destruct first as [|p0 first'] eqn:Efirst.
    - exists 0%nat, st1. unfold F. rewrite (Hnil eq_refl).
      split; [reflexivity|]. split; [intros; apply same_but_distance_refl|].
      split; [reflexivity|]. left. simpl.
      assert (Hz : length temp_pop = 0%nat).
      { rewrite <- (Permutation_length Hperm). unfold F. now rewrite (Hnil eq_refl). }
      lia.
    - assert (Hne' : Forall (fun f => f <> []) F)
        by (constructor; [discriminate|exact Hne]).
      assert (Hfs1 : forall f p, In f F -> In p f -> fully_scored dirs (st1 p) = true).
      { intros f p Hf Hp. rewrite (fully_scored_ext dirs (st1 p) (st p) (Hsc1 p)).
        apply Hfs. apply Hin. apply in_concat. exists f. split; assumption. }
      destruct (select_fronts_prefix dirs size F [] st1 Hne' Hfs1)
        as (k & st2 & Hk & E2 & Hs2 & Hfr2 & Hlen).
      exists k, st2. split; [exact E2|]. split; [exact Hs2|]. split; [exact Hfr2|].
      destruct Hlen as [Hlen|Hlen]; [left; exact Hlen|right].
      rewrite Hlen. apply firstn_all. }
  destruct Hsel as (k & st2 & E2 & Hs2 & Hfr2 & Hlen).
  rewrite (bind_Ok _ _ E2). erewrite bind_Ok by reflexivity.
  set (sel := concat (firstn k F)) in *.
  set (L := sorted_cmp_reverse (cmp_operator (RankAndCrowdSortSurvival dirs size)) st2 sel).
  assert (HF : concat F = sel ++ concat (skipn k F)).
  { unfold sel. rewrite <- concat_app. now rewrite firstn_skipn. }
  assert (Hndsel : NoDup sel) by (rewrite HF in HndF; now apply NoDup_app_remove_r in HndF).
  assert (HpermL : Permutation L sel) by apply sorted_cmp_reverse_perm.
  assert (HndL : NoDup L) by (apply (Permutation_NoDup (Permutation_sym HpermL) Hndsel)).
  assert (Hlensel : (size <= Z.of_nat (length sel))%Z).
  { destruct Hlen as [Hlen|Hlen]; [exact Hlen|].
    unfold sel. rewrite Hlen, (Permutation_length Hperm). exact Hlen_pop. }
  assert (Hslice : py_slice_to L size = firstn (Z.to_nat size) L).
  { unfold py_slice_to. replace (size <? 0)%Z with false by (symmetry; apply Z.ltb_ge; lia).
    reflexivity. }
  destruct (firstn_incl_NoDup (Z.to_nat size) L HndL) as (Hnd_r & Hincl_r & Hrest).
  exists (py_slice_to L size), st2. split; [reflexivity|]. rewrite Hslice.
  assert (Hrank_sel : forall a, In a sel -> exists i, (i < k)%nat
            /\ NSGAIndividual.rank (st2 a) = Z.of_nat i).
  { intros a Ha. destruct (in_concat_nth_error _ _ Ha) as (i & g & Hi & Hg).
    rewrite nth_error_firstn in Hi. destruct (Nat.ltb_spec i k); [|discriminate].
    exists i. split; [assumption|].
    rewrite (same_but_distance_rank _ _ (Hs2 a)). apply (Hrk i g a Hi Hg). }
  assert (Hrank_late : forall b, In b (concat (skipn k F)) -> exists j, (k <= j)%nat
            /\ NSGAIndividual.rank (st2 b) = Z.of_nat j).
  { intros b Hb. destruct (in_concat_nth_error _ _ Hb) as (j & g & Hj & Hg).
    rewrite nth_error_skipn in Hj. exists (k + j)%nat. split; [lia|].
    rewrite (same_but_distance_rank _ _ (Hs2 b)). apply (Hrk _ g b Hj Hg). }
  assert (Hwhere : forall b, In b temp_pop -> ~ In b (firstn (Z.to_nat size) L) ->
            In b (skipn (Z.to_nat size) L) \/ In b (concat (skipn k F))).
  { intros b Hb Hnb. apply Hin in Hb. rewrite HF in Hb. apply in_app_or in Hb.
    destruct Hb as [Hb|Hb]; [left|now right].
    apply Hrest; [|exact Hnb]. apply (Permutation_in _ (Permutation_sym HpermL) Hb). }
  split.
  { rewrite firstn_length_le; [lia|].
    rewrite (Permutation_length HpermL). lia. }
  split; [exact Hnd_r|]. split.
  { intros x Hx. apply Hin. rewrite HF. apply in_or_app. left.
    apply (Permutation_in _ HpermL). now apply Hincl_r. }
  split.
  { intros p. rewrite (same_but_distance_scores _ _ (Hs2 p)). apply Hsc1. }
  split.
  { intros p Hp. rewrite Hfr2, (Hfr p Hp); [reflexivity|].
    intros H. apply Hp. apply Hin. rewrite HF. apply in_or_app. now left. }
  split; [|split; [|split]].
  - intros a b Ha Hb Hnb.
    assert (Ha' : In a sel) by (apply (Permutation_in _ HpermL); now apply Hincl_r).
    destruct (Hwhere b Hb Hnb) as [Hb'|Hb'].
    + pose proof (sorted_cmp_reverse_ranks (RankAndCrowdSortSurvival dirs size) st2 sel) as Hs.
      fold L in Hs. rewrite <- (firstn_skipn (Z.to_nat size) L) in Hs.
      exact (StronglySorted_split _ _ _ a b Hs Ha Hb').
    + destruct (Hrank_sel a Ha') as (i & Hi & ->).
      destruct (Hrank_late b Hb') as (j & Hj & ->). lia.
  - intros Hn a b Ha Hb Hnb.
    assert (Ha' : In a sel) by (apply (Permutation_in _ HpermL); now apply Hincl_r).
    destruct (Hwhere b Hb Hnb) as [Hb'|Hb'].
    + assert (Hn' : forall p, In p sel ->
                is_nan (NSGAIndividual.distance (st2 p)) = false).
      { intros p Hp. apply Hn. apply Hin. rewrite HF. apply in_or_app. now left. }
      pose proof (sorted_cmp_reverse_ordered (RankAndCrowdSortSurvival dirs size)
                    st2 sel Hn') as Hs.
      fold L in Hs. rewrite <- (firstn_skipn (Z.to_nat size) L) in Hs.
      exact (StronglySorted_split _ _ _ a b Hs Ha Hb').
    + destruct (Hrank_sel a Ha') as (i & Hi & Ea).
      destruct (Hrank_late b Hb') as (j & Hj & Eb).
      unfold RankAndCrowdSort.cmp_operator. rewrite Ea, Eb.
      replace (Z.of_nat i <? Z.of_nat j)%Z with true by (symmetry; apply Z.ltb_lt; lia).
      lia.
  - apply StronglySorted_firstn.
    apply (sorted_cmp_reverse_ranks (RankAndCrowdSortSurvival dirs size) st2 sel).
  - intros Hn. apply StronglySorted_firstn.
    apply (sorted_cmp_reverse_ordered (RankAndCrowdSortSurvival dirs size) st2 sel).
    intros p Hp. apply Hn. apply Hin. rewrite HF. apply in_or_app. now left.
Qed.

(** X4. [update] on a population that has reached [population_size] returns
    exactly [population_size] distinct individuals out of [pop] and
    [challengers]; no individual it drops has a lower rank than one it
    keeps; and when no distance is NaN afterwards, every individual it keeps
    compares, by [cmp_operator], at least as good as every one it drops. *)
Theorem update_keeps_the_best
  (pareto_dominate_undirected : list score -> list score -> outcome bool)
  (dirs : list OptimizeDirection) (size : Z) (pop challengers : list ind_id) (st : Store) :
  (0 <= size <= Z.of_nat (length pop))%Z ->
  NoDup (pop ++ challengers) ->
  (forall p, In p (pop ++ challengers) -> fully_scored dirs (st p) = true) ->
  exists r st',
    update pareto_dominate_undirected (RankAndCrowdSortSurvival dirs size)
           pop challengers st = Ok (r, st')
    /\ Z.of_nat (length r) = size
    /\ NoDup r /\ incl r (pop ++ challengers)
    /\ (forall a b, In a r -> In b (pop ++ challengers) -> ~ In b r ->
          (NSGAIndividual.rank (st' a) <= NSGAIndividual.rank (st' b))%Z)
    /\ ((forall p, In p (pop ++ challengers) ->
           is_nan (NSGAIndividual.distance (st' p)) = false) ->
        forall a b, In a r -> In b (pop ++ challengers) -> ~ In b r ->
          (0 <= RankAndCrowdSort.cmp_operator (st' a) (st' b))%Z).
Proof.
  intros Hsize Hnd Hfs.
  destruct (update_full_spec pareto_dominate_undirected dirs size pop challengers st
              Hsize Hnd Hfs) as (r & st' & E & Hlen & Hndr & Hincl & _ & _ & Hrank & Hcmp & _).
  exists r, st'. repeat split; assumption.
Qed.

Lemma update_keeps_the_best_witness :
  exists r st',
    update minimize_all (RankAndCrowdSortSurvival [Minimize; Minimize] 4)
      [0; 1; 2; 3]%nat [4]%nat
      (heap_of [[Some 1; Some 5]; [Some 2; Some 3]; [Some 2.5; Some 2.5]; [Some 5; Some 1];
                [Some 4; Some 4]]%float) = Ok (r, st')
    /\ Z.of_nat (length r) = 4%Z
    /\ forall a b, In a r -> In b ([0; 1; 2; 3] ++ [4])%nat -> ~ In b r ->
         (0 <= RankAndCrowdSort.cmp_operator (st' a) (st' b))%Z.
Proof.
  assert (Hsize : (0 <= 4 <= Z.of_nat (length [0; 1; 2; 3]%nat))%Z) by (simpl; lia).
  assert (Hnd : NoDup ([0; 1; 2; 3] ++ [4])%nat).
  { simpl. repeat constructor; simpl; intuition discriminate. }
  assert (Hfs : forall p, In p ([0; 1; 2; 3] ++ [4])%nat ->
            fully_scored [Minimize; Minimize]
              (heap_of [[Some 1; Some 5]; [Some 2; Some 3]; [Some 2.5; Some 2.5];
                        [Some 5; Some 1]; [Some 4; Some 4]]%float p) = true).
  { intros p [<-|[<-|[<-|[<-|[<-|[]]]]]]; reflexivity. }
  destruct (update_keeps_the_best minimize_all [Minimize; Minimize] 4 [0; 1; 2; 3]%nat
              [4]%nat _ Hsize Hnd Hfs) as (r & st' & E & Hlen & _ & _ & _ & Hcmp).
  exists r, st'. split; [exact E|]. split; [exact Hlen|]. apply Hcmp.
  assert (Hd : final_distances
                 (update minimize_all (RankAndCrowdSortSurvival [Minimize; Minimize] 4)
                    [0; 1; 2; 3]%nat [4]%nat
                    (heap_of [[Some 1; Some 5]; [Some 2; Some 3]; [Some 2.5; Some 2.5];
                              [Some 5; Some 1]; [Some 4; Some 4]]%float))
                 [0; 1; 2; 3; 4]%nat
               = Ok [infinity; 0; 0.25; infinity; (-1)]%float) by (vm_compute; reflexivity).
  rewrite E in Hd. cbn [final_distances map] in Hd. injection Hd as H0 H1 H2 H3 H4.
  intros p [<-|[<-|[<-|[<-|[<-|[]]]]]];
    [rewrite H0|rewrite H1|rewrite H2|rewrite H3|rewrite H4]; reflexivity.
Defined.

(** * The order of the population update returns *)



(** * update_result *)


Lemma fully_scored_init dirs result :
  fully_scored dirs (NSGAIndividual.init result) = true ->
  forall st indi p,
    fully_scored dirs (upd st indi (NSGAIndividual.init result) p)
    = if Nat.eqb p indi then true else fully_scored dirs (st p).
Proof.
  intros H st indi p. unfold upd. destruct (Nat.eqb p indi); [exact H|reflexivity].
Qed.

(** One call of [update_result] on a searcher with the base survival. *)
Lemma update_result_spec
  (pareto_dominate_undirected : list score -> list score -> outcome bool)
  dirs size (s : NSGAIISearcher) (indi : ind_id) (result : list score) (st : Store) :
  survival s = RankAndCrowdSortSurvival dirs size ->
  (0 <= size)%Z ->
  NoDup (population s) -> ~ In indi (population s) ->
  (forall p, In p (population s) -> fully_scored dirs (st p) = true) ->
  fully_scored dirs (NSGAIndividual.init result) = true ->
  exists s' st',
    update_result pareto_dominate_undirected s indi result st = Ok (s', st')
    /\ historical_individuals s' = historical_individuals s ++ [indi]
    /\ survival s' = survival s
    /\ random_state s' = random_state s
    /\ NSGAIndividual.scores (st' indi) = result
    /\ (forall p, p <> indi -> NSGAIndividual.scores (st' p) = NSGAIndividual.scores (st p))
    /\ (forall p, ~ In p (population s ++ [indi]) -> st' p = st p)
    /\ NoDup (population s') /\ incl (population s') (population s ++ [indi])
    /\ ((Z.of_nat (length (population s)) < size)%Z ->
        population s' = population s ++ [indi]
        /\ forall p, st' p = upd st indi (NSGAIndividual.init result) p)
    /\ ((size <= Z.of_nat (length (population s)))%Z ->
        Z.of_nat (length (population s')) = size
        /\ forall a b, In a (population s') -> In b (population s ++ [indi]) ->
             ~ In b (population s') ->
             (NSGAIndividual.rank (st' a) <= NSGAIndividual.rank (st' b))%Z).
Proof.
  intros Hsurv Hsize Hnd Hfresh Hfs Hres.
  set (st0 := upd st indi (NSGAIndividual.init result)).
  assert (Hnd' : NoDup (population s ++ [indi])).
  { apply NoDup_app; [exact Hnd|repeat constructor; simpl; tauto|].
    intros a Ha [<-|[]]. contradiction. }
  assert (Hfs0 : forall p, In p (population s ++ [indi]) -> fully_scored dirs (st0 p) = true).
  { intros p Hp. unfold st0. rewrite (fully_scored_init dirs result Hres).
    destruct (Nat.eqb_spec p indi) as [->|Hne]; [reflexivity|].
    apply in_app_or in Hp. destruct Hp as [Hp|[<-|[]]]; [now apply Hfs|congruence]. }
  assert (Hst0_indi : NSGAIndividual.scores (st0 indi) = result).
  { unfold st0, upd. now rewrite Nat.eqb_refl. }
  assert (Hst0_other : forall p, p <> indi -> st0 p = st p).
  { intros p Hp. unfold st0, upd. now apply Nat.eqb_neq in Hp as ->. }
  unfold update_result. unfold bind at 1. unfold modify. fold st0. rewrite Hsurv.
  destruct (Z.ltb_spec (Z.of_nat (length (population s))) size) as [Hlt|Hge].
  - assert (E : update pareto_dominate_undirected (RankAndCrowdSortSurvival dirs size)
                  (population s) [indi] st0 = Ok (population s ++ [indi], st0)).
    { unfold update. cbn [population_size].
      now replace (Z.of_nat (length (population s)) <? size)%Z with true
        by (symmetry; now apply Z.ltb_lt). }
    rewrite (bind_Ok _ _ E). eexists _, st0. split; [reflexivity|]. cbn.
    split; [reflexivity|]. split; [reflexivity|]. split; [reflexivity|].
    split; [exact Hst0_indi|]. split; [intros p Hp; now rewrite Hst0_other|].
    split.
    { intros p Hp. apply Hst0_other. intros ->. apply Hp. apply in_or_app. right. now left. }
    split; [exact Hnd'|]. split; [apply incl_refl|]. split; [intros _; split; reflexivity|].
    intros H. lia.
  - destruct (update_full_spec pareto_dominate_undirected dirs size (population s) [indi] st0
                (conj Hsize Hge) Hnd' Hfs0)
      as (r & st' & E & Hlen & Hndr & Hincl & Hsc & Hfr & Hrank & _ & _).
    rewrite (bind_Ok _ _ E). eexists _, st'. split; [reflexivity|]. cbn.
    split; [reflexivity|]. split; [reflexivity|]. split; [reflexivity|].
    split; [now rewrite Hsc|]. split.
    { intros p Hp. now rewrite Hsc, Hst0_other. }
    split.
    { intros p Hp. rewrite (Hfr p Hp). apply Hst0_other. intros ->. apply Hp.
      apply in_or_app. right. now left. }
    split; [exact Hndr|]. split; [exact Hincl|]. split; [intros H; lia|].
    intros _. split; [exact Hlen|exact Hrank].
Qed.



(** * A run of update_result calls *)

Lemma record_results_spec
  (pareto_dominate_undirected : list score -> list score -> outcome bool)
  dirs size : forall results (s : NSGAIISearcher) (st : Store),
  survival s = RankAndCrowdSortSurvival dirs size ->
  (0 <= size)%Z ->
  NoDup (historical_individuals s ++ map fst results) ->
  incl (population s) (historical_individuals s) -> NoDup (population s) ->
  (forall p, In p (population s) -> fully_scored dirs (st p) = true) ->
  (forall indi result, In (indi, result) results ->
     fully_scored dirs (NSGAIndividual.init result) = true) ->
  Z.of_nat (length (population s)) = Z.min (Z.of_nat (length (historical_individuals s))) size ->
  exists s' st',
    record_results pareto_dominate_undirected s results st = Ok (s', st')
    /\ historical_individuals s' = historical_individuals s ++ map fst results
    /\ Z.of_nat (length (population s'))
       = Z.min (Z.of_nat (length (historical_individuals s'))) size
    /\ NoDup (population s') /\ incl (population s') (historical_individuals s')
    /\ survival s' = survival s
    /\ (forall indi result, In (indi, result) results ->
          NSGAIndividual.scores (st' indi) = result)
    /\ (forall p, ~ In p (map fst results) ->
          NSGAIndividual.scores (st' p) = NSGAIndividual.scores (st p)).
Proof.
  induction results as [|[indi result] rest IH]; intros s st Hsurv Hsize Hnd Hincl Hndp Hfs Hres Hlen.
  - exists s, st. simpl. rewrite app_nil_r. repeat split; auto. intros ? ? [].
  - cbn [record_results map fst] in *.
    assert (Hfresh_h : ~ In indi (historical_individuals s)).
    { intros H. apply NoDup_remove_2 in Hnd. apply Hnd. apply in_or_app. now left. }
    assert (Hfresh : ~ In indi (population s)) by (intros H; apply Hfresh_h; now apply Hincl).
    assert (Hri : fully_scored dirs (NSGAIndividual.init result) = true)
      by (apply (Hres indi result); now left).
    destruct (update_result_spec pareto_dominate_undirected dirs size s indi result st
                Hsurv Hsize Hndp Hfresh Hfs Hri)
      as (s1 & st1 & E & Hh & Hsv & _ & Hsi & Hso & _ & Hnd1 & Hincl1 & Hlow & Hfull).
    rewrite (bind_Ok _ _ E).
    assert (Hnd' : NoDup (historical_individuals s1 ++ map fst rest)).
    { rewrite Hh, <- app_assoc. exact Hnd. }
    assert (Hincl' : incl (population s1) (historical_individuals s1)).
    { rewrite Hh. intros x Hx. apply Hincl1 in Hx. apply in_app_or in Hx.
      apply in_or_app. destruct Hx as [Hx|Hx]; [left; now apply Hincl|now right]. }
    assert (Hfs1 : forall p, In p (population s1) -> fully_scored dirs (st1 p) = true).
    { intros p Hp. destruct (Nat.eq_dec p indi) as [->|Hne].
      - rewrite (fully_scored_ext dirs (st1 indi) (NSGAIndividual.init result)); [exact Hri|].
        exact Hsi.
      - rewrite (fully_scored_ext dirs (st1 p) (st p) (Hso p Hne)).
        apply Hfs. apply Hincl1 in Hp. apply in_app_or in Hp.
        destruct Hp as [Hp|[Hp|[]]]; [exact Hp|congruence]. }
    assert (Hlen1 : Z.of_nat (length (population s1))
                    = Z.min (Z.of_nat (length (historical_individuals s1))) size).
    { rewrite Hh, length_app. simpl.
      destruct (Z.ltb_spec (Z.of_nat (length (population s))) size) as [Hlt|Hge].
      - destruct (Hlow Hlt) as [-> _]. rewrite length_app. simpl. lia.
      - destruct (Hfull Hge) as [-> _]. lia. }
    destruct (IH s1 st1 (eq_trans Hsv Hsurv) Hsize Hnd' Hincl' Hnd1 Hfs1
                (fun i r H => Hres i r (or_intror H)) Hlen1)
      as (s' & st' & E' & Hh' & Hlen' & Hndp' & Hincl'' & Hsv' & Hsc' & Hkeep).
    exists s', st'. split; [exact E'|]. split.
    { rewrite Hh', Hh, <- app_assoc. reflexivity. }
    split; [exact Hlen'|]. split; [exact Hndp'|]. split; [exact Hincl''|].
    split; [now rewrite Hsv'|]. split.
    + intros i r [Heq|Hin].
      * injection Heq as <- <-. rewrite Hkeep; [exact Hsi|].
        apply NoDup_remove_2 in Hnd. intros H. apply Hnd. apply in_or_app. now right.
      * now apply Hsc'.
    + intros p Hp. rewrite Hkeep by (intros H; apply Hp; now right).
      apply Hso. intros ->. apply Hp. now left.
Qed.

(** X7. From the searcher [__init__] builds, after any number of
    [update_result] calls on fully scored results: every call succeeds, the
    history holds every individual in the order reported, and the population
    consists of [min(number of results, population_size)] distinct individuals
    of the history, each still carrying the scores it was reported with. *)
Theorem population_bounded_over_run
  (pareto_dominate_undirected : list score -> list score -> outcome bool)
  dirs size rs (results : list (ind_id * list score)) (st : Store) :
  (0 <= size)%Z ->
  NoDup (map fst results) ->
  (forall indi result, In (indi, result) results ->
     fully_scored dirs (NSGAIndividual.init result) = true) ->
  exists s' st',
    record_results pareto_dominate_undirected (NSGAIISearcher_init dirs size rs) results st
    = Ok (s', st')
    /\ get_historical_population s' = map fst results
    /\ Z.of_nat (length (get_population s')) = Z.min (Z.of_nat (length results)) size
    /\ NoDup (get_population s')
    /\ incl (get_population s') (get_historical_population s')
    /\ (forall indi result, In (indi, result) results ->
          NSGAIndividual.scores (st' indi) = result).
Proof.
  intros Hsize Hnd Hres.
  destruct (record_results_spec pareto_dominate_undirected dirs size results
              (NSGAIISearcher_init dirs size rs) st eq_refl Hsize Hnd
              (fun x H => H) (NoDup_nil _) (fun p H => match H with end) Hres)
    as (s' & st' & E & Hh & Hlen & Hndp & Hincl & _ & Hsc & _).
  { simpl. lia. }
  exists s', st'. unfold get_historical_population, get_population.
  split; [exact E|]. split; [exact Hh|]. split.
  { rewrite Hlen, Hh. simpl. now rewrite length_map. }
  split; [exact Hndp|]. split; [exact Hincl|exact Hsc].
Qed.

Lemma population_bounded_over_run_witness :
  exists s' st',
    record_results minimize_all (NSGAIISearcher_init [Minimize; Minimize] 2 (replay []))
      [(0%nat, [Some 3; Some 3]%float); (1%nat, [Some 1; Some 2]%float);
       (2%nat, [Some 2; Some 1]%float)]
      (heap_of []) = Ok (s', st')
    /\ get_historical_population s' = [0; 1; 2]%nat
    /\ Z.of_nat (length (get_population s')) = 2%Z.
Proof.
  assert (Hnd : NoDup (map fst [(0%nat, [Some 3; Some 3]%float); (1%nat, [Some 1; Some 2]%float);
                                (2%nat, [Some 2; Some 1]%float)])).
  { simpl. repeat constructor; simpl; intuition discriminate. }
  destruct (population_bounded_over_run minimize_all [Minimize; Minimize] 2 (replay [])
              [(0%nat, [Some 3; Some 3]%float); (1%nat, [Some 1; Some 2]%float);
               (2%nat, [Some 2; Some 1]%float)]
              (heap_of []) ltac:(lia) Hnd)
    as (s' & st' & E & Hh & Hlen & _).
  { intros indi result [H|[H|[H|[]]]]; injection H as <- <-; reflexivity. }
  exists s', st'. split; [exact E|]. split; [exact Hh|exact Hlen].
Defined.

(** * The fronts as layers of the dominance order *)

Section Layers.
Variable pop : list ind_id.
Variable Rel : ind_id -> ind_id -> bool.
Hypothesis pop_nodup : NoDup pop.

Lemma pending_empty done q p :
  length (pending Rel pop done q) = 0%nat ->
  In p pop -> dominated_by Rel q p = true -> In p done.
Proof.
  intros Hz Hp Hd. apply filter_length_zero with (x := p) in Hz; [|exact Hp].
  rewrite Hd in Hz. cbn [andb] in Hz. apply negb_false_iff in Hz. now apply mem_In.
Qed.

Lemma pending_some done q :
  length (pending Rel pop done q) <> 0%nat ->
  exists p, In p pop /\ dominated_by Rel q p = true /\ ~ In p done.
Proof.
  intros Hnz. destruct (pending Rel pop done q) as [|p l] eqn:E; [contradiction|].
  assert (Hp : In p (pending Rel pop done q)) by (rewrite E; now left).
  unfold pending in Hp. apply filter_In in Hp. destruct Hp as [Hp Hc].
  apply andb_true_iff in Hc. destruct Hc as [Hd Hm].
  exists p. split; [exact Hp|]. split; [exact Hd|].
  apply negb_true_iff in Hm. now apply mem_false.
Qed.

Lemma layered_snoc Fdone cur Q st st1 :
  sort_invariant Rel pop (concat Fdone) cur st ->
  sort_invariant Rel pop (concat Fdone ++ cur) Q st1 ->
  layered Rel pop (Fdone ++ [cur]) ->
  layered Rel pop ((Fdone ++ [cur]) ++ [Q]).
Proof.
  intros Hinv Hinv1 Hlay k f q Hk Hq.
  destruct (Nat.lt_ge_cases k (length (Fdone ++ [cur]))) as [Hlt|Hge].
  - rewrite nth_error_app1 in Hk by exact Hlt.
    destruct (Hlay k f q Hk Hq) as [H1 H2]. split.
    + intros p Hp Hd. destruct (H1 p Hp Hd) as (j & g & Hj & Hg & Hin).
      exists j, g. split; [exact Hj|]. split; [|exact Hin].
      rewrite nth_error_app1; [exact Hg|lia].
    + intros k' Hk'. destruct (H2 k' Hk') as (g & p & Hg & Hin & Hd).
      exists g, p. split; [|split; assumption].
      rewrite nth_error_app1; [exact Hg|lia].
  - rewrite nth_error_app2 in Hk by exact Hge.
    destruct (k - length (Fdone ++ [cur]))%nat as [|k''] eqn:Ek;
      [|simpl in Hk; destruct k''; discriminate].
    simpl in Hk. injection Hk as <-.
    assert (Hkeq : k = length (Fdone ++ [cur])) by lia.
    destruct Hinv1 as (Hnd1 & Hincl1 & _ & Hn1 & Hseen1).
    destruct Hinv as (Hnd0 & Hincl0 & _ & Hn0 & Hseen0).
    assert (Hqpop : In q pop) by (apply Hincl1; apply in_or_app; now right).
    assert (Hz1 : length (pending Rel pop (concat Fdone ++ cur) q) = 0%nat).
    { assert (H : In q ((concat Fdone ++ cur) ++ Q)) by (apply in_or_app; now right).
      apply (Hseen1 q Hqpop) in H. rewrite (Hn1 q Hqpop) in H. lia. }
    assert (Hcat : concat (Fdone ++ [cur]) = concat Fdone ++ cur).
    { rewrite concat_app. simpl. now rewrite app_nil_r. }
    split.
    + intros p Hp Hd. pose proof (pending_empty _ q p Hz1 Hp Hd) as Hin.
      rewrite <- Hcat in Hin. destruct (in_concat_nth_error _ _ Hin) as (j & g & Hj & Hg).
      assert (Hjlt : (j < length (Fdone ++ [cur]))%nat)
        by (apply nth_error_Some; congruence).
      exists j, g. split; [lia|]. split; [|exact Hg].
      rewrite nth_error_app1; [exact Hj|exact Hjlt].
    + intros k' Hk'.
      assert (Hnq : ~ In q (concat Fdone ++ cur)).
      { intros H. apply (NoDup_app_disjoint _ _ q Hnd1 H Hq). }
      assert (Hnz : length (pending Rel pop (concat Fdone) q) <> 0%nat).
      { intros Hz. apply Hnq. apply (Hseen0 q Hqpop). rewrite (Hn0 q Hqpop). lia. }
      destruct (pending_some _ q Hnz) as (p & Hp & Hd & Hnp).
      pose proof (pending_empty _ q p Hz1 Hp Hd) as Hin.
      apply in_app_or in Hin. destruct Hin as [Hin|Hin]; [contradiction|].
      exists cur, p. split; [|split; assumption].
      assert (Hk'' : k' = length Fdone) by (rewrite length_app in Hkeq; simpl in Hkeq; lia).
      rewrite nth_error_app1 by (rewrite length_app; simpl; lia).
      rewrite nth_error_app2 by lia. now replace (k' - length Fdone)%nat with 0%nat by lia.
Qed.

Lemma peel_layered : forall fuel i Fdone cur st F st',
  sort_invariant Rel pop (concat Fdone) cur st ->
  layered Rel pop (Fdone ++ [cur]) ->
  peel fuel i (Fdone ++ [cur]) cur st = Ok (F, st') ->
  layered Rel pop F.
Proof.
  induction fuel as [|fuel IH]; intros i Fdone cur st F st' Hinv Hlay Hrun.
  - discriminate Hrun.
  - cbn [peel] in Hrun.
    destruct (next_front_spec pop Rel pop_nodup i (concat Fdone) cur st Hinv)
      as (Q & st1 & E & Hinv1 & _).
    rewrite (bind_Ok _ _ E) in Hrun.
    destruct Q as [|q0 Q'].
    + cbn [length Nat.eqb] in Hrun. injection Hrun as <- _. exact Hlay.
    + cbn [length Nat.eqb] in Hrun.
      apply (IH (i + 1)%Z (Fdone ++ [cur]) (q0 :: Q') st1 F st'); [|now apply (layered_snoc Fdone cur (q0 :: Q') st st1)|exact Hrun].
      rewrite concat_app. simpl. now rewrite app_nil_r.
Qed.

Lemma layered_first : layered Rel pop [first_front Rel pop].
Proof.
  intros k f q Hk Hq. destruct k as [|k]; [|destruct k; discriminate].
  simpl in Hk. injection Hk as <-. unfold first_front in Hq. apply filter_In in Hq.
  destruct Hq as [Hq Hz]. apply Nat.eqb_eq in Hz. split; [|discriminate].
  intros p Hp Hd. unfold dominators in Hz.
  apply filter_length_zero with (x := p) in Hz; [congruence|exact Hp].
Qed.

End Layers.

(** Everything the sort of the base class establishes, on distinct, fully
    scored individuals. *)
Lemma base_sort_spec
  (pareto_dominate_undirected : list score -> list score -> outcome bool)
  (dirs : list OptimizeDirection) (size : Z) (pop : list ind_id) (st : Store) :
  NoDup pop ->
  (forall p, In p pop -> fully_scored dirs (st p) = true) ->
  exists F' st',
    fast_non_dominated_sort pareto_dominate_undirected
      (RankAndCrowdSortSurvival dirs size) pop st
    = Ok (first_front (pareto_rel dirs st) pop :: F', st')
    /\ Permutation (concat (first_front (pareto_rel dirs st) pop :: F')) pop
    /\ ranked (first_front (pareto_rel dirs st) pop :: F') st'
    /\ Forall (fun f => f <> []) F'
    /\ (forall r, ~ In r pop -> st' r = st r)
    /\ (forall p, In p pop ->
          same_static (st' p)
            (counted (pareto_rel dirs st) pop (NSGAIndividual.scores (st p)) p))
    /\ (first_front (pareto_rel dirs st) pop = [] -> F' = [])
    /\ layered (pareto_rel dirs st) pop (first_front (pareto_rel dirs st) pop :: F').
Proof.
  intros Hnd Hfs.
  pose proof (base_dominate_pure pareto_dominate_undirected dirs size pop st Hfs) as Hpure.
  pose proof (pareto_rel_trans dirs pop st Hfs) as Htr.
  pose proof (pareto_rel_irrefl dirs pop st) as Hirr.
  destruct (sort_spec pareto_dominate_undirected (RankAndCrowdSortSurvival dirs size)
              pop (pareto_rel dirs st) (fun i => NSGAIndividual.scores (st i))
              Hpure Hnd Htr Hirr st (same_scores_refl pop st))
    as (F' & st' & E & Hperm & Hrk & Hne & Hfr & Hstatic & Hnil).
  exists F', st'. split; [exact E|]. split; [exact Hperm|]. split; [exact Hrk|].
  split; [exact Hne|]. split; [exact Hfr|]. split; [exact Hstatic|]. split; [exact Hnil|].
  destruct (first_loop_spec pareto_dominate_undirected (RankAndCrowdSortSurvival dirs size)
              pop (pareto_rel dirs st) (fun i => NSGAIndividual.scores (st i))
              Hpure st Hnd (same_scores_refl pop st))
    as (st1 & E1 & _ & _ & Hp1).
  rewrite sort_unfold, (bind_Ok _ _ E1) in E.
  destruct (counted_invariant pop (pareto_rel dirs st)
              (fun i => NSGAIndividual.scores (st i)) Hnd st1 Hp1) as [Hinv _].
  apply (peel_layered pop (pareto_rel dirs st) Hnd (Datatypes.S (length pop)) 0 []
           (first_front (pareto_rel dirs st) pop) st1 _ st' Hinv
           (layered_first pop (pareto_rel dirs st)) E).
Qed.








(** * The non-dominated set of a fully scored history *)

Lemma filter_all {A} (f : A -> bool) l :
  (forall x, In x l -> f x = true) -> filter f l = l.
Proof.
  induction l as [|a l IH]; intros H; simpl; [reflexivity|].
  rewrite (H a (or_introl eq_refl)), IH; [reflexivity|].
  intros x Hx. apply H. now right.
Qed.

Lemma first_front_In dirs st (pop : list ind_id) q :
  (forall p, In p pop -> fully_scored dirs (st p) = true) ->
  In q (first_front (pareto_rel dirs st) pop)
  <-> In q pop /\ forall p, In p pop -> pareto_rel dirs st p q = false.
Proof.
  intros Hfs. unfold first_front, dominators.
  rewrite filter_In, Nat.eqb_eq, filter_length_zero. split.
  - intros [Hq H]. split; [exact Hq|]. intros p Hp. specialize (H p Hp).
    unfold dominated_by in H. apply andb_false_iff in H. destruct H as [H|H]; [|exact H].
    apply negb_false_iff, Nat.eqb_eq in H. subst p.
    apply (pareto_rel_irrefl dirs pop st q Hq).
  - intros [Hq H]. split; [exact Hq|]. intros p Hp. unfold dominated_by.
    rewrite (H p Hp). apply andb_false_r.
Qed.

(** X11. On a history in which every individual is fully scored,
    [calc_nondominated_set] of the base class returns, in the order of the
    history and without touching the heap, exactly the individuals that no
    individual of the history dominates; applied to its own result it returns
    it unchanged. *)
Theorem calc_nondominated_set_undominated
  (pareto_dominate_undirected : list score -> list score -> outcome bool)
  dirs size (history : list ind_id) st :
  (forall p, In p history -> fully_scored dirs (st p) = true) ->
  exists ns,
    calc_nondominated_set pareto_dominate_undirected (RankAndCrowdSortSurvival dirs size)
      history st = Ok (ns, st)
    /\ ns = filter (fun q => forallb (fun p => negb (pareto_rel dirs st p q)) history) history
    /\ (forall q, In q ns <->
          In q history /\ forall p, In p history -> pareto_rel dirs st p q = false)
    /\ calc_nondominated_set pareto_dominate_undirected (RankAndCrowdSortSurvival dirs size)
         ns st = Ok (ns, st).
Proof.
  intros Hfs. set (ns := first_front (pareto_rel dirs st) history).
  assert (Hin : forall q, In q ns <->
            In q history /\ forall p, In p history -> pareto_rel dirs st p q = false)
    by (intros q; now apply first_front_In).
  exists ns. split; [now apply calc_nondominated_set_fully_scored|]. split.
  { unfold ns, first_front. apply filter_ext_in. intros q Hq.
    destruct (forallb _ history) eqn:Ef.
    - apply Nat.eqb_eq. unfold dominators. apply filter_length_zero. intros p Hp.
      rewrite forallb_forall in Ef. specialize (Ef p Hp). apply negb_true_iff in Ef.
      unfold dominated_by. rewrite Ef. apply andb_false_r.
    - apply Nat.eqb_neq. intros Hz. unfold dominators in Hz.
      rewrite filter_length_zero in Hz.
      assert (Hall : forallb (fun p => negb (pareto_rel dirs st p q)) history = true).
      { apply forallb_forall. intros p Hp. specialize (Hz p Hp).
        unfold dominated_by in Hz. apply andb_false_iff in Hz.
        destruct Hz as [Hz|Hz]; [|now rewrite Hz].
        apply negb_false_iff, Nat.eqb_eq in Hz. subst p.
        now rewrite (pareto_rel_irrefl dirs history st q Hq). }
      congruence. }
  split; [exact Hin|].
  assert (Hfs' : forall p, In p ns -> fully_scored dirs (st p) = true)
    by (intros p Hp; apply Hfs; now apply Hin).
  rewrite (calc_nondominated_set_fully_scored _ dirs size ns st Hfs'). f_equal. f_equal.
  unfold first_front. apply filter_all. intros q Hq. apply Nat.eqb_eq.
  unfold dominators. apply filter_length_zero. intros p Hp.
  unfold dominated_by. apply Hin in Hq. destruct Hq as [_ Hq].
  rewrite (Hq p); [apply andb_false_r|]. now apply Hin.
Qed.

Lemma calc_nondominated_set_undominated_witness :
  exists ns,
    calc_nondominated_set minimize_all (RankAndCrowdSortSurvival [Minimize; Minimize] 2)
      [0; 1; 2]%nat (heap_of [[Some 3; Some 3]; [Some 1; Some 2]; [Some 2; Some 1]]%float)
    = Ok (ns, heap_of [[Some 3; Some 3]; [Some 1; Some 2]; [Some 2; Some 1]]%float)
    /\ ns = [1; 2]%nat.
Proof.
  assert (Hfs : forall p, In p [0; 1; 2]%nat ->
            fully_scored [Minimize; Minimize]
              (heap_of [[Some 3; Some 3]; [Some 1; Some 2]; [Some 2; Some 1]]%float p) = true).
  { intros p [<-|[<-|[<-|[]]]]; reflexivity. }
  destruct (calc_nondominated_set_undominated minimize_all [Minimize; Minimize] 2
              [0; 1; 2]%nat _ Hfs) as (ns & E & Hns & _).
  exists ns. split; [exact E|]. rewrite Hns. vm_compute. reflexivity.
Defined.

(** X12. The non-dominated set of a history of distinct, fully scored individuals
    is front 0 of [fast_non_dominated_sort] on that history, and it is not
    empty unless the history is: [get_best] then has an individual to
    return. *)
Theorem calc_nondominated_set_is_front_zero
  (pareto_dominate_undirected : list score -> list score -> outcome bool)
  dirs size (s : NSGAIISearcher) st :
  survival s = RankAndCrowdSortSurvival dirs size ->
  NoDup (historical_individuals s) ->
  (forall p, In p (historical_individuals s) -> fully_scored dirs (st p) = true) ->
  exists ns F st',
    get_nondominated_set pareto_dominate_undirected s st = Ok (ns, st)
    /\ fast_non_dominated_sort pareto_dominate_undirected (survival s)
         (get_historical_population s) st = Ok (ns :: F, st')
    /\ (historical_individuals s <> [] -> ns <> []).
Proof.
  intros Hsurv Hnd Hfs. unfold get_nondominated_set, get_historical_population.
  rewrite Hsurv.
  destruct (base_sort_spec pareto_dominate_undirected dirs size (historical_individuals s)
              st Hnd Hfs) as (F' & st' & E & Hperm & _ & _ & _ & _ & Hnil & _).
  exists (first_front (pareto_rel dirs st) (historical_individuals s)), F', st'.
  split; [now apply calc_nondominated_set_fully_scored|]. split; [exact E|].
  intros Hne Hf. apply Hne. rewrite Hf, (Hnil Hf) in Hperm. simpl in Hperm.
  now apply Permutation_nil in Hperm.
Qed.

Lemma calc_nondominated_set_is_front_zero_witness :
  exists ns F st',
    get_nondominated_set minimize_all
      (mkSearcher [1; 2]%nat (RankAndCrowdSortSurvival [Minimize; Minimize] 2) [0; 1; 2]%nat
         (replay []))
      (heap_of [[Some 3; Some 3]; [Some 1; Some 2]; [Some 2; Some 1]]%float)
    = Ok (ns, heap_of [[Some 3; Some 3]; [Some 1; Some 2]; [Some 2; Some 1]]%float)
    /\ fast_non_dominated_sort minimize_all (RankAndCrowdSortSurvival [Minimize; Minimize] 2)
         [0; 1; 2]%nat (heap_of [[Some 3; Some 3]; [Some 1; Some 2]; [Some 2; Some 1]]%float)
       = Ok (ns :: F, st')
    /\ ns <> [].
Proof.
  assert (Hnd : NoDup [0; 1; 2]%nat) by (repeat constructor; simpl; intuition discriminate).
  assert (Hfs : forall p, In p [0; 1; 2]%nat ->
            fully_scored [Minimize; Minimize]
              (heap_of [[Some 3; Some 3]; [Some 1; Some 2]; [Some 2; Some 1]]%float p) = true).
  { intros p [<-|[<-|[<-|[]]]]; reflexivity. }
  destruct (calc_nondominated_set_is_front_zero minimize_all [Minimize; Minimize] 2
              (mkSearcher [1; 2]%nat (RankAndCrowdSortSurvival [Minimize; Minimize] 2)
                 [0; 1; 2]%nat (replay []))
              _ eq_refl Hnd Hfs) as (ns & F & st' & E1 & E2 & Hne).
  exists ns, F, st'. split; [exact E1|]. split; [exact E2|]. apply Hne. discriminate.
Defined.

(** * crowding_distance_assignment on small fronts, and what it leaves alone *)

Lemma contributions_keep_infinity_small st (I : list ind_id) M :
  (length I <= 2)%nat -> contributions_keep_infinity st I M = true.
Proof.
  intros H. unfold contributions_keep_infinity. apply forallb_forall. intros m _.
  replace (length I - 2)%nat with 0%nat by lia. reflexivity.
Qed.

(** X13. A front of one or two individuals has no interior: with at least one
    objective, [crowding_distance_assignment] gives every member the
    distance [+infinity]. *)
Theorem crowding_small_front_all_infinite dirs (I : list ind_id) st :
  (1 <= length I <= 2)%nat -> dirs <> [] ->
  (forall p, In p I -> fully_scored dirs (st p) = true) ->
  exists st',
    RankAndCrowdSort.crowding_distance_assignment I st = Ok (I, st')
    /\ forall p, In p I -> NSGAIndividual.distance (st' p) = infinity.
Proof.
  intros Hlen Hdirs Hfs.
  assert (Hne : I <> []) by (destruct I; [simpl in Hlen; lia|discriminate]).
  destruct (crowding_spec dirs I st Hne Hfs) as (st' & E & _ & _ & Hkeep & _).
  exists st'. split; [exact E|]. intros p Hp.
  assert (Hm : (0 < length dirs)%nat) by (destruct dirs; [congruence|simpl; lia]).
  destruct (Hkeep (contributions_keep_infinity_small st I (length dirs) (proj2 Hlen)) 0%nat Hm)
    as [H0 H1].
  apply (Permutation_in _ (Permutation_sym (sorted_perm (score_lt st 0) I))) in Hp.
  destruct (In_nth _ _ 0%nat Hp) as (i & Hi & Hnth).
  rewrite sorted_length in Hi. unfold ind_id in *.
  destruct i as [|[|i]]; [now rewrite <- Hnth| |lia].
  replace (length I - 1)%nat with 1%nat in H1 by lia. now rewrite <- Hnth.
Qed.

Lemma crowding_small_front_all_infinite_witness :
  exists st',
    RankAndCrowdSort.crowding_distance_assignment [0; 1]%nat
      (heap_of [[Some 1; Some 2]; [Some 2; Some 1]]%float) = Ok ([0; 1]%nat, st')
    /\ NSGAIndividual.distance (st' 0%nat) = infinity
    /\ NSGAIndividual.distance (st' 1%nat) = infinity.
Proof.
  assert (Hfs : forall p, In p [0; 1]%nat ->
            fully_scored [Minimize; Minimize]
              (heap_of [[Some 1; Some 2]; [Some 2; Some 1]]%float p) = true).
  { intros p [<-|[<-|[]]]; reflexivity. }
  destruct (crowding_small_front_all_infinite [Minimize; Minimize] [0; 1]%nat _
              ltac:(simpl; lia) ltac:(discriminate) Hfs) as (st' & E & H).
  exists st'. split; [exact E|]. split; apply H; simpl; tauto.
Defined.

(** X14. [crowding_distance_assignment] returns the front in the order it was
    given, writes no field other than [distance] and no object outside the
    front; [sort_font] of the base class is this function.  On an empty
    front it raises ValueError, the error of [np.max] on an empty array. *)
Theorem crowding_distance_assignment_frame dirs size (I : list ind_id) st :
  I <> [] ->
  (forall p, In p I -> fully_scored dirs (st p) = true) ->
  exists st',
    sort_font (RankAndCrowdSortSurvival dirs size) I st = Ok (I, st')
    /\ (forall r, st' r = NSGAIndividual.set_distance (NSGAIndividual.distance (st' r)) (st r))
    /\ (forall r, ~ In r I -> st' r = st r)
    /\ RankAndCrowdSort.crowding_distance_assignment [] st = Raise ValueError.
Proof.
  intros Hne Hfs.
  destruct (crowding_spec dirs I st Hne Hfs) as (st' & E & Hs & Hfr & _).
  exists st'. split; [exact E|]. split; [exact Hs|]. split; [exact Hfr|reflexivity].
Qed.

Lemma crowding_distance_assignment_frame_witness :
  exists st',
    sort_font (RankAndCrowdSortSurvival [Minimize; Minimize] 3) [2; 0; 1]%nat
      (heap_of [[Some 1; Some 3]; [Some 2; Some 2]; [Some 3; Some 1]; [Some 9; Some 9]]%float)
    = Ok ([2; 0; 1]%nat, st')
    /\ st' 3%nat = NSGAIndividual.init [Some 9; Some 9]%float.
Proof.
  assert (Hfs : forall p, In p [2; 0; 1]%nat ->
            fully_scored [Minimize; Minimize]
              (heap_of [[Some 1; Some 3]; [Some 2; Some 2]; [Some 3; Some 1];
                        [Some 9; Some 9]]%float p) = true).
  { intros p [<-|[<-|[<-|[]]]]; reflexivity. }
  destruct (crowding_distance_assignment_frame [Minimize; Minimize] 3 [2; 0; 1]%nat _
              ltac:(discriminate) Hfs) as (st' & E & _ & Hfr & _).
  exists st'. split; [exact E|]. rewrite Hfr; [reflexivity|].
  simpl. intuition discriminate.
Defined.

(** * binary_tournament_select: when it can return *)

(** X15. [binary_tournament_select] cannot return on a population of fewer than
    three individuals: with none or one, the first [randint] has an empty
    range and raises ValueError; with two, every draw is index 0, the retry
    loop never finds a pair without the first index and raises RuntimeError
    once [try_times] exceeds 10000. *)
Theorem binary_tournament_select_small_population self st rs :
  binary_tournament_select self [] st rs = Raise ValueError
  /\ (forall a, binary_tournament_select self [a] st rs = Raise ValueError)
  /\ (forall a b, binary_tournament_select self [a; b] st rs = Raise RuntimeError).
Proof.
  split; [reflexivity|]. split; [intros a; reflexivity|].
  intros a b. apply binary_tournament_select_of_two.
Qed.

(** X16. When [binary_tournament_select] returns, the population has at least
    three individuals and the two parents were taken from two different
    positions of it; in a population without repeated objects they are two
    different individuals. *)
Theorem binary_tournament_select_distinct self population st rs a b rs' :
  binary_tournament_select self population st rs = Ok ((a, b), rs') ->
  (3 <= length population)%nat
  /\ exists i j,
       i <> j /\ nth_error population i = Some a /\ nth_error population j = Some b
       /\ (NoDup population -> a <> b).
Proof.
  unfold binary_tournament_select.
  destruct (binary_tournament_indices self population st rs)
    as [[[i j] rs1]| |] eqn:E; try discriminate.
  cbn [obind fst snd].
  destruct (py_index population i) as [a'| |] eqn:Ea; try discriminate.
  destruct (py_index population j) as [b'| |] eqn:Eb; try discriminate.
  cbn [obind]. intros H. injection H as <- <- _.
  apply binary_tournament_indices_range in E. destruct E as (Hi & Hj & Hij).
  apply py_index_nth in Ea; [|lia]. apply py_index_nth in Eb; [|lia].
  split; [lia|].
  exists (Z.to_nat i), (Z.to_nat j).
  split; [lia|]. split; [exact Ea|]. split; [exact Eb|].
  intros Hnd Hab. rewrite NoDup_nth_error in Hnd.
  assert (Z.to_nat i = Z.to_nat j); [|lia].
  apply Hnd; [lia|congruence].
Qed.

Lemma binary_tournament_select_distinct_witness :
  binary_tournament_select (RankAndCrowdSortSurvival [Minimize; Minimize] 4)
    [0; 1; 2; 3]%nat (heap_of_ranks [0; 0; 0; 0]%Z) (replay [0; 1; 1; 2]%Z)
  = Ok ((0, 1)%nat, mkRandomState (fun i => nth i [0; 1; 1; 2]%Z 0%Z) 4)
  /\ (3 <= length [0; 1; 2; 3]%nat)%nat.
Proof.
  assert (Hrun : binary_tournament_select (RankAndCrowdSortSurvival [Minimize; Minimize] 4)
                   [0; 1; 2; 3]%nat (heap_of_ranks [0; 0; 0; 0]%Z) (replay [0; 1; 1; 2]%Z)
                 = Ok ((0, 1)%nat, mkRandomState (fun i => nth i [0; 1; 1; 2]%Z 0%Z) 4))
    by reflexivity.
  split; [exact Hrun|].
  exact (proj1 (binary_tournament_select_distinct _ _ _ _ _ _ _ Hrun)).
Defined.

(** * What RDominanceSurvival.dominate writes *)


Lemma assign_reference_distances_frame ref_point weights ext : forall pop acc st ds st',
  for_fold pop acc (fun distances indi =>
    x <- get indi ;;
    sc <- lift (np.nums (NSGAIndividual.scores x)) ;;
    d <- lift (RDominance.reference_distance ref_point weights ext sc) ;;
    modify indi (NSGAIndividual.set_distance d) ;;;
    ret (distances ++ [d])) st = Ok (ds, st') ->
  (forall r, same_but_distance (st' r) (st r))
  /\ (forall r, ~ In r pop -> st' r = st r).
Proof.
  induction pop as [|p pop IH]; intros acc st ds st' H; cbn [for_fold] in H.
  - injection H as _ <-. split; [intros; apply same_but_distance_refl|reflexivity].
  - unfold bind at 1 in H.
    match type of H with
    | match ?c with _ => _ end = _ => destruct c as [[acc1 st1]| |] eqn:E1; try discriminate
    end.
    assert (Hst1 : exists d, st1 = upd st p (NSGAIndividual.set_distance d (st p))).
    { unfold bind, get, lift, modify, ret in E1.
      destruct (np.nums (NSGAIndividual.scores (st p))) as [sc| |]; cbn [obind] in E1;
        try discriminate.
      destruct (RDominance.reference_distance ref_point weights ext sc) as [d| |];
        cbn [obind] in E1; try discriminate.
      injection E1 as _ <-. now exists d. }
    destruct Hst1 as [d ->]. apply IH in H. destruct H as [Hs Hf]. split.
    + intros r. eapply same_but_distance_trans; [apply Hs|].
      unfold upd. destruct (Nat.eqb r p) eqn:Er.
      * apply Nat.eqb_eq in Er. subst r. reflexivity.
      * apply same_but_distance_refl.
    + intros r Hr. rewrite Hf by (intros Hin; apply Hr; now right).
      unfold upd. destruct (Nat.eqb_spec r p) as [->|]; [|reflexivity].
      exfalso. apply Hr. now left.
Qed.

(** X17. Whenever [dominate] of [RDominanceSurvival] returns, it has written no
    field other than [distance] and no object outside [pop].  When
    [pareto_dominate(ind1.scores, ind2.scores, directions=None)] is true it
    answers True, when the converse is true it answers False, and in both
    cases it has written nothing at all. *)
Theorem RDominance_dominate_frame
  (pareto_dominate_undirected : list score -> list score -> outcome bool)
  dirs size ref_point weights threshold ind1 ind2 (pop : list ind_id) st b st' :
  dominate pareto_dominate_undirected
    (RDominanceSurvival dirs size ref_point weights threshold) ind1 ind2 pop st = Ok (b, st') ->
  (forall r, st' r = NSGAIndividual.set_distance (NSGAIndividual.distance (st' r)) (st r))
  /\ (forall r, ~ In r pop -> st' r = st r)
  /\ (pareto_dominate_undirected (NSGAIndividual.scores (st ind1))
        (NSGAIndividual.scores (st ind2)) = Ok true ->
      b = true /\ forall r, st' r = st r)
  /\ (pareto_dominate_undirected (NSGAIndividual.scores (st ind1))
        (NSGAIndividual.scores (st ind2)) = Ok false ->
      pareto_dominate_undirected (NSGAIndividual.scores (st ind2))
        (NSGAIndividual.scores (st ind1)) = Ok true ->
      b = false /\ forall r, st' r = st r).
Proof.
  cbn [dominate]. unfold RDominance_dominate.
  unfold bind at 1, get at 1. unfold bind at 1, get at 1.
  unfold bind at 1, lift at 1. cbn [pareto_dominate].
  destruct (pareto_dominate_undirected (NSGAIndividual.scores (st ind1))
              (NSGAIndividual.scores (st ind2))) as [[|]| |] eqn:P1;
    cbn [obind]; try discriminate.
  { intros H. injection H as <- <-.
    split; [intros; apply same_but_distance_refl|]. split; [reflexivity|].
    split; [auto|discriminate]. }
  unfold bind at 1, lift at 1.
  destruct (pareto_dominate_undirected (NSGAIndividual.scores (st ind2))
              (NSGAIndividual.scores (st ind1))) as [[|]| |] eqn:P2;
    cbn [obind]; try discriminate.
  { intros H. injection H as <- <-.
    split; [intros; apply same_but_distance_refl|]. split; [reflexivity|].
    split; [discriminate|auto]. }
  unfold bind at 1, reads at 1.
  destruct (negb (np.rectangular (map (fun p => NSGAIndividual.scores (st p)) pop)));
    [discriminate|].
  unfold bind at 1, lift at 1.
  destruct (np.all_nums (map (fun p => NSGAIndividual.scores (st p)) pop)) as [fr| |];
    cbn [obind]; try discriminate.
  unfold bind at 1, lift at 1.
  destruct (np.reduce_axis0 np.maximum fr) as [mx| |]; cbn [obind]; try discriminate.
  unfold bind at 1, lift at 1.
  destruct (np.reduce_axis0 np.minimum fr) as [mn| |]; cbn [obind]; try discriminate.
  cbv zeta. unfold bind at 1.
  destruct (assign_reference_distances ref_point weights (np.map2 sub mx mn) pop st)
    as [[ds st1]| |] eqn:Ea; try discriminate.
  apply assign_reference_distances_frame in Ea. destruct Ea as [Hs Hf].
  unfold bind at 1, lift at 1.
  destruct (np.reduce np.maximum ds) as [dmax| |]; cbn [obind]; try discriminate.
  unfold bind at 1, lift at 1.
  destruct (np.reduce np.minimum ds) as [dmin| |]; cbn [obind]; try discriminate.
  unfold bind, get, ret. intros H. injection H as _ <-.
  split; [exact Hs|]. split; [exact Hf|]. split; discriminate.
Qed.

Lemma RDominance_dominate_frame_witness :
  exists b st',
    dominate minimize_all
      (RDominanceSurvival [Minimize; Minimize] 4 [0; 0]%float [0.5; 0.5]%float 0.3%float)
      0%nat 1%nat [0; 1; 2]%nat
      (heap_of [[Some 1; Some 4]; [Some 2; Some 3]; [Some 3; Some 2]; [Some 4; Some 1]]%float)
    = Ok (b, st')
    /\ st' 3%nat = NSGAIndividual.init [Some 4; Some 1]%float
    /\ NSGAIndividual.rank (st' 0%nat) = (-1)%Z.
Proof.
  assert (Hfs : forall p, In p [0; 1; 2]%nat ->
            fully_scored [Minimize; Minimize]
              (heap_of [[Some 1; Some 4]; [Some 2; Some 3]; [Some 3; Some 2];
                        [Some 4; Some 1]]%float p) = true).
  { intros p [<-|[<-|[<-|[]]]]; reflexivity. }
  destruct (RDominance_dominate_spec minimize_all [Minimize; Minimize] 4 [0; 0]%float
              [0.5; 0.5]%float 0.3%float 0%nat 1%nat [0; 1; 2]%nat
              (heap_of [[Some 1; Some 4]; [Some 2; Some 3]; [Some 3; Some 2];
                        [Some 4; Some 1]]%float)
              ltac:(discriminate) Hfs eq_refl eq_refl
              ltac:(vm_compute; reflexivity) ltac:(vm_compute; reflexivity))
    as (st' & E & _).
  destruct (RDominance_dominate_frame _ _ _ _ _ _ _ _ _ _ _ _ E) as (Hs & Hf & _).
  eexists _, st'. split; [exact E|]. split.
  - rewrite Hf; [reflexivity|]. simpl. intuition discriminate.
  - rewrite Hs. reflexivity.
Defined.

(** * The distance of an interior individual *)

Lemma position_nth (l : list ind_id) p :
  In p l -> (position p l < length l)%nat /\ nth (position p l) l 0%nat = p.
Proof.
  induction l as [|x l IH]; intros H; [destruct H|]. simpl.
  destruct (Nat.eqb_spec x p) as [->|Hne]; [split; [lia|reflexivity]|].
  destruct H as [H|H]; [contradiction|]. destruct (IH H). split; [lia|assumption].
Qed.

Lemma NoDup_nth_inj (l : list ind_id) i j :
  NoDup l -> (i < length l)%nat -> (j < length l)%nat ->
  nth i l 0%nat = nth j l 0%nat -> i = j.
Proof. intros Hnd Hi Hj H. now apply (proj1 (NoDup_nth l 0%nat) Hnd i j Hi Hj). Qed.

Lemma interior_loop_exact dirs s m maxa mina mx mn :
  (m < length dirs)%nat -> nth m maxa None = Some mx -> nth m mina None = Some mn ->
  NoDup s ->
  forall positions st st',
    NoDup positions ->
    (forall i, In i positions -> (1 <= i /\ i + 1 < length s)%nat) ->
    (forall p, In p s -> fully_scored dirs (st p) = true) ->
    for_each positions (RankAndCrowdSort.crowd_interior s m maxa mina) st = Ok (tt, st') ->
    (forall r, ~ In r (map (fun i => nth i s 0%nat) positions) -> st' r = st r)
    /\ forall i, In i positions ->
         NSGAIndividual.distance (st' (nth i s 0%nat))
         = (NSGAIndividual.distance (st (nth i s 0%nat)) + interior_term st s m mx mn i)%float.
Proof.
  intros Hm Hmx Hmn Hnds.
  induction positions as [|i rest IH]; intros st st' Hndp Hpos Hfs Hrun.
  - cbn in Hrun. injection Hrun as <-. split; [reflexivity|intros i []].
  - destruct (Hpos i (or_introl eq_refl)) as [Hi1 Hi2].
    pose proof (crowd_interior_spec dirs s m maxa mina mx mn i st Hi1 Hi2 Hfs Hm Hmx Hmn) as E1.
    set (p := nth i s 0%nat) in *.
    set (st1 := upd st p _) in E1.
    cbn [for_each] in Hrun. rewrite (bind_Ok _ _ E1) in Hrun.
    assert (Hs1 : forall r, same_but_distance (st1 r) (st r))
      by (intros r; apply same_but_distance_upd).
    assert (Hfs1 : forall q, In q s -> fully_scored dirs (st1 q) = true)
      by (apply (fully_scored_preserved dirs st st1 s Hs1 Hfs)).
    inversion Hndp as [|? ? Hni Hndr]; subst.
    destruct (IH st1 st' Hndr (fun j Hj => Hpos j (or_intror Hj)) Hfs1 Hrun) as [Hfr Hex].
    assert (Hp_rest : ~ In p (map (fun j => nth j s 0%nat) rest)).
    { intros H. apply in_map_iff in H. destruct H as (j & Hj & Hin).
      destruct (Hpos j (or_intror Hin)).
      assert (j = i) by (apply (NoDup_nth_inj s j i Hnds); [lia|lia|exact Hj]).
      subst j. contradiction. }
    split.
    + intros r Hr. cbn [map] in Hr. rewrite Hfr by (intros H; apply Hr; now right).
      unfold st1. apply upd_other. intros ->. apply Hr. now left.
    + intros j [<-|Hj].
      * fold p. rewrite (Hfr p Hp_rest). unfold st1. rewrite upd_same. reflexivity.
      * rewrite (Hex j Hj), (interior_term_ext st st1 s m mx mn j Hs1). f_equal.
        unfold st1. rewrite upd_other; [reflexivity|]. intros Heq.
        destruct (Hpos j (or_intror Hj)).
        assert (j = i) by (apply (NoDup_nth_inj s j i Hnds); [lia|lia|exact Heq]).
        subst j. contradiction.
Qed.

Lemma crowd_objective_exact dirs I maxa mina mx mn m st st' :
  NoDup I ->
  (forall p, In p I -> fully_scored dirs (st p) = true) ->
  (m < length dirs)%nat -> nth m maxa None = Some mx -> nth m mina None = Some mn ->
  RankAndCrowdSort.crowd_objective I maxa mina m st = Ok (tt, st') ->
  forall i, In i (seq 1 (length I - 2)) ->
    NSGAIndividual.distance (st' (nth i (sorted (score_lt st m) I) 0%nat))
    = (NSGAIndividual.distance (st (nth i (sorted (score_lt st m) I) 0%nat))
       + interior_term st (sorted (score_lt st m) I) m mx mn i)%float.
Proof.
  intros Hnd Hfs Hm Hmx Hmn Hrun i Hi.
  set (s := sorted (score_lt st m) I) in *.
  assert (Hlen : length s = length I) by apply sorted_length.
  assert (Hnds : NoDup s).
  { apply (Permutation_NoDup (Permutation_sym (sorted_perm (score_lt st m) I)) Hnd). }
  assert (Hin : forall p, In p s -> In p I).
  { intros p Hp. eapply Permutation_in; [apply sorted_perm|exact Hp]. }
  assert (Hrange : forall j, In j (seq 1 (length I - 2)) -> (1 <= j /\ j + 1 < length s)%nat).
  { intros j Hj. apply in_seq in Hj. lia. }
  destruct (Hrange i Hi) as [Hi1 Hi2].
  unfold RankAndCrowdSort.crowd_objective in Hrun.
  assert (E0 : reads (fun st0 => sorted (score_lt st0 m) I) st = Ok (s, st)) by reflexivity.
  rewrite (bind_Ok _ _ E0) in Hrun.
  rewrite (bind_Ok _ _ (lift_Ok _ _ st (py_index_ok s 0%nat 0 ltac:(lia)))) in Hrun.
  erewrite bind_Ok in Hrun by reflexivity.
  set (first := nth 0 s 0%nat) in *.
  set (st1 := upd st first _) in Hrun.
  replace (Z.of_nat (length I) - 1)%Z with (Z.of_nat (length I - 1)) in Hrun by lia.
  rewrite (bind_Ok _ _ (lift_Ok _ _ st1 (py_index_ok s 0%nat (length I - 1) ltac:(lia))))
    in Hrun.
  erewrite bind_Ok in Hrun by reflexivity.
  set (last := nth (length I - 1) s 0%nat) in *.
  set (st2 := upd st1 last _) in Hrun.
  assert (Hs2 : forall r, same_but_distance (st2 r) (st r)).
  { intros r. eapply same_but_distance_trans; apply same_but_distance_upd. }
  assert (Hfs2 : forall p, In p s -> fully_scored dirs (st2 p) = true).
  { intros p Hp. apply (fully_scored_preserved dirs st st2 I Hs2 Hfs). now apply Hin. }
  destruct (interior_loop_exact dirs s m maxa mina mx mn Hm Hmx Hmn Hnds
              (seq 1 (length I - 2)) st2 st' (seq_NoDup _ _) Hrange Hfs2 Hrun) as [_ Hex].
  rewrite (Hex i Hi), (interior_term_ext st st2 s m mx mn i Hs2). f_equal.
  unfold st2, st1. rewrite !upd_other; [reflexivity| |].
  - intros Heq. assert (i = 0%nat); [|lia].
    apply (NoDup_nth_inj s i 0 Hnds); [lia|lia|exact Heq].
  - intros Heq. assert (i = (length I - 1)%nat); [|lia].
    apply (NoDup_nth_inj s i (length I - 1) Hnds); [lia|lia|exact Heq].
Qed.

Section CrowdingExact.
Variable dirs : list OptimizeDirection.
Variable I : list ind_id.
Variable st0 : Store.
Variables maxa mina : list score.
Variables mxs mns : list float.
Variable r : ind_id.

Hypothesis front_nodup : NoDup I.
Hypothesis front_nonempty : I <> [].
Hypothesis front_scored : forall p, In p I -> fully_scored dirs (st0 p) = true.
Hypothesis maxa_values : forall m, (m < length dirs)%nat -> nth m maxa None = Some (nth m mxs nan).
Hypothesis mina_values : forall m, (m < length dirs)%nat -> nth m mina None = Some (nth m mns nan).
Hypothesis r_in : In r I.

Lemma objectives_loop_exact : forall ms st st',
  (forall m, In m ms ->
     (m < length dirs)%nat
     /\ (1 <= position r (sorted (score_lt st0 m) I))%nat
     /\ (position r (sorted (score_lt st0 m) I) + 1 < length I)%nat) ->
  (forall q, same_but_distance (st q) (st0 q)) ->
  for_each ms (RankAndCrowdSort.crowd_objective I maxa mina) st = Ok (tt, st') ->
  NSGAIndividual.distance (st' r)
  = fold_left (fun d m =>
                 (d + interior_term st0 (sorted (score_lt st0 m) I) m
                        (nth m mxs nan) (nth m mns nan)
                        (position r (sorted (score_lt st0 m) I)))%float)
              ms (NSGAIndividual.distance (st r)).
Proof.
  induction ms as [|m ms IH]; intros st st' Hms Hs0 Hrun.
  - cbn in Hrun. injection Hrun as <-. reflexivity.
  - destruct (Hms m (or_introl eq_refl)) as (Hm & Hp1 & Hp2).
    assert (Hfs : forall p, In p I -> fully_scored dirs (st p) = true)
      by (apply (fully_scored_preserved dirs st0 st I Hs0 front_scored)).
    destruct (crowd_objective_spec dirs I maxa mina (nth m mxs nan) (nth m mns nan) m st
                front_nonempty Hfs Hm (maxa_values m Hm) (mina_values m Hm))
      as (st1 & E1 & Hs1 & _).
    cbn [for_each] in Hrun. rewrite (bind_Ok _ _ E1) in Hrun.
    assert (Hsort : sorted (score_lt st m) I = sorted (score_lt st0 m) I)
      by (apply sorted_ext; intros a b; now apply score_lt_ext).
    assert (Hs01 : forall q, same_but_distance (st1 q) (st0 q)).
    { intros q. eapply same_but_distance_trans; [apply Hs1|apply Hs0]. }
    rewrite (IH st1 st' (fun m' H => Hms m' (or_intror H)) Hs01 Hrun). cbn [fold_left].
    f_equal.
    assert (Hr : In r (sorted (score_lt st0 m) I)).
    { apply (Permutation_in _ (Permutation_sym (sorted_perm (score_lt st0 m) I)) r_in). }
    destruct (position_nth _ r Hr) as [_ Hnth].
    assert (Hi : In (position r (sorted (score_lt st0 m) I)) (seq 1 (length I - 2)))
      by (apply in_seq; lia).
    pose proof (crowd_objective_exact dirs I maxa mina (nth m mxs nan) (nth m mns nan) m st st1
                  front_nodup Hfs Hm (maxa_values m Hm) (mina_values m Hm) E1 _ Hi) as Hex.
    rewrite Hsort, Hnth in Hex. rewrite Hex. f_equal.
    apply interior_term_ext. exact Hs0.
Qed.

End CrowdingExact.

(** X18. [crowding_distance_assignment] does not start from zero: in a
    front whose scores hold no NaN, for an individual that is at neither end
    of the front in the order of any objective, it adds each objective's term
    [(scores[i+1] - scores[i-1]) / (max_m - min_m)], in objective order, to
    the distance the individual had before the call (-1.0 after
    [fast_non_dominated_sort]). *)
Theorem crowding_interior_distance dirs (I : list ind_id) st r :
  NoDup I -> In r I ->
  (forall p, In p I -> fully_scored dirs (st p) = true) ->
  (forall p, In p I -> no_nan_scores (st p) = true) ->
  (forall m, (m < length dirs)%nat ->
     (1 <= position r (sorted (score_lt st m) I))%nat
     /\ (position r (sorted (score_lt st m) I) + 1 < length I)%nat) ->
  exists st',
    RankAndCrowdSort.crowding_distance_assignment I st = Ok (I, st')
    /\ NSGAIndividual.distance (st' r) = accumulated_distance st I (length dirs) r.
Proof.
  intros Hnd Hr Hfs _ Hint.
  assert (Hne : I <> []) by (destruct I; [destruct Hr|discriminate]).
  destruct (crowding_spec dirs I st Hne Hfs) as (st' & E & _).
  exists st'. split; [exact E|].
  unfold RankAndCrowdSort.crowding_distance_assignment in E.
  assert (E0 : reads (fun st0 => map (fun p => NSGAIndividual.scores (st0 p)) I) st
               = Ok (map (fun p => NSGAIndividual.scores (st p)) I, st)) by reflexivity.
  rewrite (bind_Ok _ _ E0) in E.
  rewrite (rectangular_fully_scored dirs st I Hfs) in E. cbn [negb] in E.
  rewrite (bind_Ok _ _ (lift_Ok _ _ st (column_extrema_fully_scored dirs st I Hne Hfs))) in E.
  assert (Hpos : (0 < length I)%nat) by (destruct I; [congruence|simpl; lia]).
  rewrite (bind_Ok _ _ (lift_Ok _ _ st (py_index_ok I 0%nat 0 Hpos))) in E.
  unfold bind at 1 in E. unfold get at 1 in E.
  assert (Hlen0 : length (NSGAIndividual.scores (st (nth 0 I 0%nat))) = length dirs).
  { assert (H : In (nth 0 I 0%nat) I) by (now apply nth_In).
    specialize (Hfs _ H). unfold fully_scored in Hfs. apply andb_true_iff in Hfs.
    destruct Hfs as [Hl _]. now apply Nat.eqb_eq in Hl. }
  rewrite Hlen0 in E. cbn [fst snd] in E.
  set (vals := map (fun p => score_values (st p)) I) in *.
  assert (Hmax : forall m, (m < length dirs)%nat ->
            nth m (map Some (column_max vals)) None = Some (nth m (column_max vals) nan)).
  { intros m Hm. apply nth_map_Some. unfold column_max, vals.
    now rewrite (column_length np.maximum dirs st I Hne Hfs). }
  assert (Hmin : forall m, (m < length dirs)%nat ->
            nth m (map Some (column_min vals)) None = Some (nth m (column_min vals) nan)).
  { intros m Hm. apply nth_map_Some. unfold column_min, vals.
    now rewrite (column_length np.minimum dirs st I Hne Hfs). }
  unfold bind in E.
  destruct (for_each (seq 0 (length dirs))
              (RankAndCrowdSort.crowd_objective I (map Some (column_max vals))
                 (map Some (column_min vals))) st) as [[[] st1]| |] eqn:Eloop;
    try discriminate.
  injection E as <-.
  assert (Hms : forall m, In m (seq 0 (length dirs)) ->
            (m < length dirs)%nat
            /\ (1 <= position r (sorted (score_lt st m) I))%nat
            /\ (position r (sorted (score_lt st m) I) + 1 < length I)%nat).
  { intros m Hm. apply in_seq in Hm. split; [lia|]. apply Hint. lia. }
  rewrite (objectives_loop_exact dirs I st (map Some (column_max vals))
             (map Some (column_min vals)) (column_max vals) (column_min vals) r
             Hnd Hne Hfs Hmax Hmin Hr (seq 0 (length dirs)) st st1 Hms
             (fun q => same_but_distance_refl (st q)) Eloop).
  reflexivity.
Qed.

Lemma crowding_interior_distance_witness :
  exists st',
    RankAndCrowdSort.crowding_distance_assignment [0; 1; 2; 3]%nat
      (heap_of [[Some 1; Some 5]; [Some 2; Some 3]; [Some 2.5; Some 2.5]; [Some 5; Some 1]]%float)
    = Ok ([0; 1; 2; 3]%nat, st')
    /\ NSGAIndividual.distance (st' 1%nat) = 0%float.
Proof.
  assert (Hnd : NoDup [0; 1; 2; 3]%nat)
    by (repeat constructor; simpl; intuition discriminate).
  assert (Hfs : forall p, In p [0; 1; 2; 3]%nat ->
            fully_scored [Minimize; Minimize]
              (heap_of [[Some 1; Some 5]; [Some 2; Some 3]; [Some 2.5; Some 2.5];
                        [Some 5; Some 1]]%float p) = true).
  { intros p [<-|[<-|[<-|[<-|[]]]]]; reflexivity. }
  assert (Hnn : forall p, In p [0; 1; 2; 3]%nat ->
            no_nan_scores
              (heap_of [[Some 1; Some 5]; [Some 2; Some 3]; [Some 2.5; Some 2.5];
                        [Some 5; Some 1]]%float p) = true).
  { intros p [<-|[<-|[<-|[<-|[]]]]]; reflexivity. }
  destruct (crowding_interior_distance [Minimize; Minimize] [0; 1; 2; 3]%nat
              (heap_of [[Some 1; Some 5]; [Some 2; Some 3]; [Some 2.5; Some 2.5];
                        [Some 5; Some 1]]%float) 1%nat Hnd ltac:(simpl; tauto) Hfs Hnn)
    as (st' & E & Hd).
  { intros m Hm. destruct m as [|[|m]]; [vm_compute; lia|vm_compute; lia|simpl in Hm; lia]. }
  exists st'. split; [exact E|]. rewrite Hd. vm_compute. reflexivity.
Defined.

(** * The result set after a run *)

(** X19. After any run of [update_result] calls on fully scored results,
    [get_nondominated_set] returns, without touching the heap, exactly the
    reported individuals that no reported individual dominates, whether or
    not they are still in the population; it is empty only when nothing was
    reported. *)
Theorem nondominated_set_after_run
  (pareto_dominate_undirected : list score -> list score -> outcome bool)
  dirs size rs (results : list (ind_id * list score)) (st : Store) :
  (0 <= size)%Z ->
  NoDup (map fst results) ->
  (forall indi result, In (indi, result) results ->
     fully_scored dirs (NSGAIndividual.init result) = true) ->
  exists s' st' ns,
    record_results pareto_dominate_undirected (NSGAIISearcher_init dirs size rs) results st
    = Ok (s', st')
    /\ get_nondominated_set pareto_dominate_undirected s' st' = Ok (ns, st')
    /\ (forall q, In q ns <->
          In q (map fst results)
          /\ forall p, In p (map fst results) -> pareto_rel dirs st' p q = false)
    /\ (forall indi result, In (indi, result) results ->
          NSGAIndividual.scores (st' indi) = result)
    /\ (results <> [] -> ns <> []).
Proof.
  intros Hsize Hnd Hres.
  destruct (record_results_spec pareto_dominate_undirected dirs size results
              (NSGAIISearcher_init dirs size rs) st eq_refl Hsize Hnd
              (fun x H => H) (NoDup_nil _) (fun p H => match H with end) Hres)
    as (s' & st' & E & Hh & _ & _ & _ & Hsv & Hsc & _).
  { simpl. lia. }
  cbn [NSGAIISearcher_init historical_individuals survival app create_survival] in Hh, Hsv.
  assert (Hfs : forall p, In p (historical_individuals s') -> fully_scored dirs (st' p) = true).
  { intros p Hp. rewrite Hh in Hp. apply in_map_iff in Hp.
    destruct Hp as ([indi result] & <- & Hin). cbn [fst].
    rewrite (fully_scored_ext dirs (st' indi) (NSGAIndividual.init result));
      [now apply (Hres indi result)|]. now apply Hsc. }
  rewrite <- Hh in Hnd.
  destruct (base_sort_spec pareto_dominate_undirected dirs size (historical_individuals s')
              st' Hnd Hfs) as (F' & st2 & _ & Hperm & _ & _ & _ & _ & Hnil & _).
  exists s', st', (first_front (pareto_rel dirs st') (historical_individuals s')).
  split; [exact E|]. split.
  { unfold get_nondominated_set, get_historical_population. rewrite Hsv.
    now apply calc_nondominated_set_fully_scored. }
  split; [intros q; rewrite <- Hh; now apply first_front_In|]. split; [exact Hsc|].
  intros Hne Hf. rewrite Hf, (Hnil Hf) in Hperm. simpl in Hperm.
  apply Permutation_nil in Hperm. rewrite Hh in Hperm.
  destruct results; [congruence|discriminate].
Qed.

Lemma nondominated_set_after_run_witness :
  exists s' st' ns,
    record_results minimize_all (NSGAIISearcher_init [Minimize; Minimize] 2 (replay []))
      [(0%nat, [Some 3; Some 3]%float); (1%nat, [Some 1; Some 2]%float);
       (2%nat, [Some 2; Some 1]%float)]
      (heap_of []) = Ok (s', st')
    /\ get_nondominated_set minimize_all s' st' = Ok (ns, st')
    /\ ns <> [].
Proof.
  assert (Hnd : NoDup (map fst [(0%nat, [Some 3; Some 3]%float); (1%nat, [Some 1; Some 2]%float);
                                (2%nat, [Some 2; Some 1]%float)])).
  { simpl. repeat constructor; simpl; intuition discriminate. }
  destruct (nondominated_set_after_run minimize_all [Minimize; Minimize] 2 (replay [])
              [(0%nat, [Some 3; Some 3]%float); (1%nat, [Some 1; Some 2]%float);
               (2%nat, [Some 2; Some 1]%float)]
              (heap_of []) ltac:(lia) Hnd)
    as (s' & st' & ns & E & En & _ & _ & Hne).
  { intros indi result [H|[H|[H|[]]]]; injection H as <- <-; reflexivity. }
  exists s', st', ns. split; [exact E|]. split; [exact En|]. apply Hne. discriminate.
Defined.

(** * The general behaviour behind the examples *)

(** X20. For a list of distinct, fully scored individuals,
    [fast_non_dominated_sort] of [RankAndCrowdSortSurvival] returns fronts that
    partition the input exactly (their concatenation is a permutation of the
    input, without repetition), every member of front [k] ends with rank [k]
    counted from 0, and front 0 holds exactly the individuals that no
    individual of the input Pareto-dominates under the searcher's
    directions.  The bookkeeping fields are reset
    first, so a call on any heap that holds the same score vectors (in
    particular the heap an earlier sort left behind) returns the same fronts
    and leaves the same objects. *)
Theorem fast_non_dominated_sort_partitions
  (pareto_dominate_undirected : list score -> list score -> outcome bool)
  (dirs : list OptimizeDirection) (size : Z) (pop : list ind_id) (st : Store) :
  NoDup pop ->
  (forall p, In p pop -> fully_scored dirs (st p) = true) ->
  exists F st',
    fast_non_dominated_sort pareto_dominate_undirected
      (RankAndCrowdSortSurvival dirs size) pop st = Ok (F, st')
    /\ Permutation (concat F) pop
    /\ NoDup (concat F)
    /\ (forall k front q, nth_error F k = Some front -> In q front ->
          NSGAIndividual.rank (st' q) = Z.of_nat k)
    /\ (forall q, In q (nth 0 F []) <->
          In q pop /\ forall p, In p pop -> pareto_rel dirs st p q = false)
    /\ (forall st2,
          (forall p, In p pop ->
             NSGAIndividual.scores (st2 p) = NSGAIndividual.scores (st p)) ->
          exists st2',
            fast_non_dominated_sort pareto_dominate_undirected
              (RankAndCrowdSortSurvival dirs size) pop st2 = Ok (F, st2')
            /\ forall p, In p pop -> st2' p = st' p).
Proof.
  intros Hnd Hsc.
  pose proof (base_dominate_pure pareto_dominate_undirected dirs size pop st Hsc) as Hpure.
  pose proof (pareto_rel_trans dirs pop st Hsc) as Htr.
  pose proof (pareto_rel_irrefl dirs pop st) as Hirr.
  destruct (sort_spec pareto_dominate_undirected (RankAndCrowdSortSurvival dirs size)
              pop (pareto_rel dirs st) (fun i => NSGAIndividual.scores (st i))
              Hpure Hnd Htr Hirr st (same_scores_refl pop st))
    as (F' & st' & E & Hperm & Hrk & _).
  exists (first_front (pareto_rel dirs st) pop :: F'), st'.
  split; [exact E|]. split; [exact Hperm|]. split.
  { eapply Permutation_NoDup; [apply Permutation_sym; exact Hperm|exact Hnd]. }
  split; [exact Hrk|]. split.
  { intros q. cbn [nth]. apply first_front_In. exact Hsc. }
  intros st2 Hsame.
  destruct (sort_agree pareto_dominate_undirected (RankAndCrowdSortSurvival dirs size)
              pop (pareto_rel dirs st) (fun i => NSGAIndividual.scores (st i))
              Hpure Hnd st st2 _ st' (same_scores_refl pop st) Hsame E)
    as (s2 & E2 & Hag).
  exists s2. split; [exact E2|]. intros p Hp. symmetry. now apply Hag.
Qed.

Lemma fast_non_dominated_sort_partitions_witness :
  NoDup [0; 1; 2]%nat
  /\ (forall p, In p [0; 1; 2]%nat ->
        fully_scored [Minimize; Minimize]
          (heap_of [[Some 1; Some 4]; [Some 2; Some 3]; [Some 2; Some 5]]%float p) = true)
  /\ exists F st',
       fast_non_dominated_sort minimize_all
         (RankAndCrowdSortSurvival [Minimize; Minimize] 2) [0; 1; 2]%nat
         (heap_of [[Some 1; Some 4]; [Some 2; Some 3]; [Some 2; Some 5]]%float) = Ok (F, st')
       /\ Permutation (concat F) [0; 1; 2]%nat
       /\ nth 0 F [] = [0; 1]%nat.
Proof.
  assert (Hnd : NoDup [0; 1; 2]%nat).
  { repeat constructor; simpl; intuition discriminate. }
  assert (Hsc : forall p, In p [0; 1; 2]%nat ->
            fully_scored [Minimize; Minimize]
              (heap_of [[Some 1; Some 4]; [Some 2; Some 3]; [Some 2; Some 5]]%float p) = true).
  { intros p [<-|[<-|[<-|[]]]]; reflexivity. }
  split; [exact Hnd|]. split; [exact Hsc|].
  destruct (fast_non_dominated_sort_partitions minimize_all [Minimize; Minimize] 2
              [0; 1; 2]%nat _ Hnd Hsc) as (F & st' & E & Hperm & _).
  exists F, st'. split; [exact E|]. split; [exact Hperm|].
  vm_compute in E. injection E as <- _. reflexivity.
Defined.

(** X21. Neither degenerate range is replaced by a zero.  In
    [crowding_distance_assignment] on a front whose scores hold no NaN, an
    objective whose maximum over the front equals its minimum adds [0/0], a
    NaN, to every interior individual; no exception is raised, and the NaN
    stays in the
    individual's distance unless a later objective puts the individual at an
    end of its order.  In [dominate] of [RDominanceSurvival], when the largest
    reference distance of the population equals the smallest, the gap of two
    members of the population is the NaN [0/0], the test [gap < -threshold]
    fails, and [dominate] returns False without raising. *)
Theorem degenerate_ranges_yield_nan :
  (forall dirs (I : list ind_id) st m,
     I <> [] ->
     (forall p, In p I -> fully_scored dirs (st p) = true) ->
     (forall p, In p I -> no_nan_scores (st p) = true) ->
     (m < length dirs)%nat ->
     (nth m (column_max (map (fun p => score_values (st p)) I)) nan
      =? nth m (column_min (map (fun p => score_values (st p)) I)) nan)%float = true ->
     exists st',
       RankAndCrowdSort.crowding_distance_assignment I st = Ok (I, st')
       /\ (forall i, In i (seq 1 (length I - 2)) -> is_nan (contribution st I m i) = true)
       /\ (forall i, In i (seq 1 (length I - 2)) ->
             (forall m', (m < m' < length dirs)%nat ->
                nth i (sorted (score_lt st m) I) 0%nat
                <> nth 0 (sorted (score_lt st m') I) 0%nat
                /\ nth i (sorted (score_lt st m) I) 0%nat
                   <> nth (length I - 1) (sorted (score_lt st m') I) 0%nat) ->
             is_nan (NSGAIndividual.distance (st' (nth i (sorted (score_lt st m) I) 0%nat)))
             = true))
  /\ (forall (pareto_dominate_undirected : list score -> list score -> outcome bool)
        dirs size ref_point weights threshold ind1 ind2 (pop : list ind_id) st,
        pop <> [] ->
        (forall p, In p pop -> fully_scored dirs (st p) = true) ->
        length ref_point = length dirs -> length weights = length dirs ->
        pareto_dominate_undirected (NSGAIndividual.scores (st ind1))
                                   (NSGAIndividual.scores (st ind2)) = Ok false ->
        pareto_dominate_undirected (NSGAIndividual.scores (st ind2))
                                   (NSGAIndividual.scores (st ind1)) = Ok false ->
        In ind1 pop -> In ind2 pop ->
        (distances_max (map (reference_distance_of ref_point weights st pop) pop)
         =? distances_min (map (reference_distance_of ref_point weights st pop) pop))%float
        = true ->
        exists st',
          dominate pareto_dominate_undirected
            (RDominanceSurvival dirs size ref_point weights threshold) ind1 ind2 pop st
          = Ok (false, st')).
Proof.
  split.
  - intros dirs I st m Hne Hfs _ Hm E.
    destruct (crowding_spec dirs I st Hne Hfs) as (st' & E' & _ & _ & _ & Hnan).
    exists st'. split; [exact E'|]. split.
    + intros i Hi. now apply (degenerate_contribution dirs).
    + intros i Hi Hnot. apply (Hnan m i Hm Hi); [|exact Hnot].
      intros j Hj. now apply (degenerate_contribution dirs).
  - intros pdu dirs size ref_point weights threshold ind1 ind2 pop st
      Hne Hfs Href Hw H1 H2 Hi1 Hi2 E.
    destruct (RDominance_dominate_spec pdu dirs size ref_point weights threshold
                ind1 ind2 pop st Hne Hfs Href Hw H1 H2) as (st' & E' & Hst').
    exists st'. rewrite E'. f_equal. f_equal.
    rewrite !Hst'.
    rewrite (proj2 (mem_In _ _) Hi1), (proj2 (mem_In _ _) Hi2).
    unfold NSGAIndividual.set_distance. cbn [NSGAIndividual.distance].
    apply degenerate_gap; [exact E| |];
      apply (in_map (reference_distance_of ref_point weights st pop)); assumption.
Qed.

Lemma degenerate_ranges_yield_nan_witness :
  (exists st',
     RankAndCrowdSort.crowding_distance_assignment [0; 1; 2; 3]%nat
       (heap_of [[Some 1; Some 4; Some 7]; [Some 2; Some 3; Some 7];
                 [Some 3; Some 2; Some 7]; [Some 4; Some 1; Some 7]]%float)
     = Ok ([0; 1; 2; 3]%nat, st')
     /\ is_nan (NSGAIndividual.distance (st' 1%nat)) = true
     /\ is_nan (NSGAIndividual.distance (st' 2%nat)) = true)
  /\ (exists st',
        dominate minimize_all
          (RDominanceSurvival [Minimize; Minimize] 2 [0; 0]%float [0.5; 0.5]%float 0.3%float)
          0%nat 1%nat [0; 1]%nat (heap_of [[Some 1; Some 2]; [Some 2; Some 1]]%float)
        = Ok (false, st')).
Proof.
  split.
  - assert (Hne : [0; 1; 2; 3]%nat <> []) by discriminate.
    assert (Hfs : forall p, In p [0; 1; 2; 3]%nat ->
              fully_scored [Minimize; Minimize; Minimize]
                (heap_of [[Some 1; Some 4; Some 7]; [Some 2; Some 3; Some 7];
                          [Some 3; Some 2; Some 7]; [Some 4; Some 1; Some 7]]%float p) = true).
    { intros p [<-|[<-|[<-|[<-|[]]]]]; reflexivity. }
    assert (Hnn : forall p, In p [0; 1; 2; 3]%nat ->
              no_nan_scores
                (heap_of [[Some 1; Some 4; Some 7]; [Some 2; Some 3; Some 7];
                          [Some 3; Some 2; Some 7]; [Some 4; Some 1; Some 7]]%float p) = true).
    { intros p [<-|[<-|[<-|[<-|[]]]]]; reflexivity. }
    assert (Hm : (2 < length [Minimize; Minimize; Minimize])%nat) by (simpl; lia).
    destruct (proj1 degenerate_ranges_yield_nan [Minimize; Minimize; Minimize]
                [0; 1; 2; 3]%nat
                (heap_of [[Some 1; Some 4; Some 7]; [Some 2; Some 3; Some 7];
                          [Some 3; Some 2; Some 7]; [Some 4; Some 1; Some 7]]%float)
                2%nat Hne Hfs Hnn Hm eq_refl) as (st' & E & _ & Hd).
    exists st'. split; [exact E|]. split.
    + apply (Hd 1%nat); [simpl; tauto|]. intros m' Hm'. simpl in Hm'. lia.
    + apply (Hd 2%nat); [simpl; tauto|]. intros m' Hm'. simpl in Hm'. lia.
  - assert (Hne : [0; 1]%nat <> []) by discriminate.
    assert (Hfs : forall p, In p [0; 1]%nat ->
              fully_scored [Minimize; Minimize]
                (heap_of [[Some 1; Some 2]; [Some 2; Some 1]]%float p) = true).
    { intros p [<-|[<-|[]]]; reflexivity. }
    apply (proj2 degenerate_ranges_yield_nan minimize_all [Minimize; Minimize] 2%Z
             [0; 0]%float [0.5; 0.5]%float 0.3%float 0%nat 1%nat [0; 1]%nat
             (heap_of [[Some 1; Some 2]; [Some 2; Some 1]]%float)
             Hne Hfs eq_refl eq_refl);
      [vm_compute; reflexivity|vm_compute; reflexivity|simpl; tauto|simpl; tauto
      |vm_compute; reflexivity].
Defined.

(** X22. For a front of at least three fully scored individuals whose
    scores hold no NaN and in which no interior term
    [(scores[i+1] - scores[i-1]) / (max_m - min_m)] is NaN or minus infinity,
    [crowding_distance_assignment] returns the front and, for every objective,
    the first and the last individual of the front sorted by that objective
    end with distance [+infinity]: later objectives add to an infinite
    distance without changing it. *)
Theorem crowding_boundaries_infinite dirs (I : list ind_id) st :
  (3 <= length I)%nat ->
  (forall p, In p I -> fully_scored dirs (st p) = true) ->
  (forall p, In p I -> no_nan_scores (st p) = true) ->
  contributions_keep_infinity st I (length dirs) = true ->
  exists st',
    RankAndCrowdSort.crowding_distance_assignment I st = Ok (I, st')
    /\ forall m, (m < length dirs)%nat ->
         NSGAIndividual.distance (st' (nth 0 (sorted (score_lt st m) I) 0%nat)) = infinity
         /\ NSGAIndividual.distance
              (st' (nth (length I - 1) (sorted (score_lt st m) I) 0%nat)) = infinity.
Proof.
  intros Hlen Hfs _ Hc.
  assert (Hne : I <> []) by (destruct I; [simpl in Hlen; lia|discriminate]).
  destruct (crowding_spec dirs I st Hne Hfs) as (st' & E & _ & _ & Hkeep & _).
  exists st'. split; [exact E|]. exact (Hkeep Hc).
Qed.

Lemma crowding_boundaries_infinite_witness :
  (3 <= length [0; 1; 2; 3]%nat)%nat
  /\ (forall p, In p [0; 1; 2; 3]%nat ->
        fully_scored [Minimize; Minimize]
          (heap_of [[Some 1; Some 4]; [Some 2; Some 3]; [Some 3; Some 2]; [Some 4; Some 1]]%float
             p) = true)
  /\ contributions_keep_infinity
       (heap_of [[Some 1; Some 4]; [Some 2; Some 3]; [Some 3; Some 2]; [Some 4; Some 1]]%float)
       [0; 1; 2; 3]%nat 2 = true
  /\ exists st',
       RankAndCrowdSort.crowding_distance_assignment [0; 1; 2; 3]%nat
         (heap_of [[Some 1; Some 4]; [Some 2; Some 3]; [Some 3; Some 2]; [Some 4; Some 1]]%float)
       = Ok ([0; 1; 2; 3]%nat, st')
       /\ NSGAIndividual.distance (st' 0%nat) = infinity
       /\ NSGAIndividual.distance (st' 3%nat) = infinity.
Proof.
  assert (Hlen : (3 <= length [0; 1; 2; 3]%nat)%nat) by (simpl; lia).
  assert (Hfs : forall p, In p [0; 1; 2; 3]%nat ->
            fully_scored [Minimize; Minimize]
              (heap_of [[Some 1; Some 4]; [Some 2; Some 3]; [Some 3; Some 2]; [Some 4; Some 1]]%float
                 p) = true).
  { intros p [<-|[<-|[<-|[<-|[]]]]]; reflexivity. }
  assert (Hnn : forall p, In p [0; 1; 2; 3]%nat ->
            no_nan_scores
              (heap_of [[Some 1; Some 4]; [Some 2; Some 3]; [Some 3; Some 2]; [Some 4; Some 1]]%float
                 p) = true).
  { intros p [<-|[<-|[<-|[<-|[]]]]]; reflexivity. }
  assert (Hc : contributions_keep_infinity
                 (heap_of [[Some 1; Some 4]; [Some 2; Some 3]; [Some 3; Some 2];
                           [Some 4; Some 1]]%float)
                 [0; 1; 2; 3]%nat 2 = true) by (vm_compute; reflexivity).
  split; [exact Hlen|]. split; [exact Hfs|]. split; [exact Hc|].
  destruct (crowding_boundaries_infinite [Minimize; Minimize] [0; 1; 2; 3]%nat _ Hlen Hfs
              Hnn Hc)
    as (st' & E & H).
  exists st'. split; [exact E|].
  destruct (H 0%nat ltac:(simpl; lia)) as [H0 H3].
  split; [exact H0|exact H3].
Defined.

(** X23. On a pair of individuals for which [pareto_dominate], called
    without directions as [dominate] of [RDominanceSurvival] calls it, answers
    False both ways (within a non-empty population of fully scored
    individuals, with one reference coordinate and one weight per objective),
    [dominate] returns True exactly when
    [(dist(p) - dist(q)) / distance_spread < -threshold], the distances being
    the ones it has just stored: every member's weighted, normalized distance
    to the reference point. *)
Theorem r_dominance_gap_test
  (pareto_dominate_undirected : list score -> list score -> outcome bool)
  dirs size ref_point weights threshold ind1 ind2 (pop : list ind_id) st :
  pop <> [] ->
  (forall p, In p pop -> fully_scored dirs (st p) = true) ->
  length ref_point = length dirs -> length weights = length dirs ->
  pareto_dominate pareto_dominate_undirected (NSGAIndividual.scores (st ind1))
                  (NSGAIndividual.scores (st ind2)) None = Ok false ->
  pareto_dominate pareto_dominate_undirected (NSGAIndividual.scores (st ind2))
                  (NSGAIndividual.scores (st ind1)) None = Ok false ->
  exists b st',
    dominate pareto_dominate_undirected
      (RDominanceSurvival dirs size ref_point weights threshold) ind1 ind2 pop st
    = Ok (b, st')
    /\ (b = true <->
        ((NSGAIndividual.distance (st' ind1) - NSGAIndividual.distance (st' ind2))
         / distance_spread (map (fun p => NSGAIndividual.distance (st' p)) pop)
         <? - threshold)%float = true)
    /\ (forall p, In p pop ->
          NSGAIndividual.distance (st' p)
          = reference_distance_of ref_point weights st pop p).
Proof.
  intros Hne Hfs Href Hw H1 H2.
  destruct (RDominance_dominate_spec pareto_dominate_undirected dirs size ref_point weights
              threshold ind1 ind2 pop st Hne Hfs Href Hw H1 H2) as (st' & E & Hst').
  assert (Hd : forall p, In p pop ->
            NSGAIndividual.distance (st' p) = reference_distance_of ref_point weights st pop p).
  { intros p Hp. rewrite Hst'.
    now replace (mem p pop) with true by (symmetry; now apply mem_In). }
  eexists _, st'. split; [exact E|]. split; [|exact Hd].
  replace (map (fun p => NSGAIndividual.distance (st' p)) pop)
    with (map (reference_distance_of ref_point weights st pop) pop)
    by (apply map_ext_in; intros p Hp; symmetry; now apply Hd).
  unfold RDominance.gap_below. reflexivity.
Qed.

Lemma r_dominance_gap_test_witness :
  [0; 1; 2; 3]%nat <> []
  /\ (forall p, In p [0; 1; 2; 3]%nat ->
        fully_scored [Minimize; Minimize]
          (heap_of [[Some 1; Some 4]; [Some 2; Some 3]; [Some 3; Some 2]; [Some 4; Some 1]]%float
             p) = true)
  /\ pareto_dominate minimize_all [Some 1; Some 4]%float [Some 2; Some 3]%float None = Ok false
  /\ pareto_dominate minimize_all [Some 2; Some 3]%float [Some 1; Some 4]%float None = Ok false
  /\ exists b st',
       dominate minimize_all
         (RDominanceSurvival [Minimize; Minimize] 4 [0; 0]%float [0.5; 0.5]%float 0.3%float)
         0%nat 1%nat [0; 1; 2; 3]%nat
         (heap_of [[Some 1; Some 4]; [Some 2; Some 3]; [Some 3; Some 2]; [Some 4; Some 1]]%float)
       = Ok (b, st').
Proof.
  assert (Hne : [0; 1; 2; 3]%nat <> []) by discriminate.
  assert (Hfs : forall p, In p [0; 1; 2; 3]%nat ->
            fully_scored [Minimize; Minimize]
              (heap_of [[Some 1; Some 4]; [Some 2; Some 3]; [Some 3; Some 2]; [Some 4; Some 1]]%float
                 p) = true).
  { intros p [<-|[<-|[<-|[<-|[]]]]]; reflexivity. }
  assert (H1 : pareto_dominate minimize_all [Some 1; Some 4]%float [Some 2; Some 3]%float None
               = Ok false) by (vm_compute; reflexivity).
  assert (H2 : pareto_dominate minimize_all [Some 2; Some 3]%float [Some 1; Some 4]%float None
               = Ok false) by (vm_compute; reflexivity).
  split; [exact Hne|]. split; [exact Hfs|]. split; [exact H1|]. split; [exact H2|].
  destruct (r_dominance_gap_test minimize_all [Minimize; Minimize] 4 [0; 0]%float
              [0.5; 0.5]%float 0.3%float 0%nat 1%nat [0; 1; 2; 3]%nat
              (heap_of [[Some 1; Some 4]; [Some 2; Some 3]; [Some 3; Some 2];
                        [Some 4; Some 1]]%float)
              Hne Hfs eq_refl eq_refl H1 H2) as (b & st' & E & _).
  exists b, st'. exact E.
Defined.

(** X24. On a pair for which [pareto_dominate], called without directions,
    answers False both ways, [dominate] of [RDominanceSurvival] overwrites the
    [distance] of every individual of [pop], not only of the two compared,
    with that individual's weighted, normalized Euclidean distance to the
    reference point, and touches nothing else; [sort_font] then returns a
    front none of whose distances is NaN in ascending order of that field. *)
Theorem r_dominance_overwrites_distances
  (pareto_dominate_undirected : list score -> list score -> outcome bool)
  dirs size ref_point weights threshold ind1 ind2 (pop : list ind_id) st :
  pop <> [] ->
  (forall p, In p pop -> fully_scored dirs (st p) = true) ->
  length ref_point = length dirs -> length weights = length dirs ->
  pareto_dominate pareto_dominate_undirected (NSGAIndividual.scores (st ind1))
                  (NSGAIndividual.scores (st ind2)) None = Ok false ->
  pareto_dominate pareto_dominate_undirected (NSGAIndividual.scores (st ind2))
                  (NSGAIndividual.scores (st ind1)) None = Ok false ->
  exists b st',
    dominate pareto_dominate_undirected
      (RDominanceSurvival dirs size ref_point weights threshold) ind1 ind2 pop st
    = Ok (b, st')
    /\ (forall p, In p pop ->
          NSGAIndividual.distance (st' p)
          = sqrt (np.sum (np.map2 mul
                     (np.square
                        (np.map2 div (np.map2 sub (score_values (st p)) ref_point)
                           (scores_extend (map (fun q => score_values (st q)) pop))))
                     weights)))
    /\ (forall r, same_but_distance (st' r) (st r))
    /\ (forall r, ~ In r pop -> st' r = st r)
    /\ forall front,
         (forall a, In a front -> is_nan (NSGAIndividual.distance (st' a)) = false) ->
         exists sorted_front,
           sort_font (RDominanceSurvival dirs size ref_point weights threshold) front st'
           = Ok (sorted_front, st')
           /\ Permutation sorted_front front
           /\ Sorted (fun a b => (NSGAIndividual.distance (st' b)
                                  <? NSGAIndividual.distance (st' a))%float = false)
                     sorted_front.
Proof.
  intros Hne Hfs Href Hw H1 H2.
  destruct (RDominance_dominate_spec pareto_dominate_undirected dirs size ref_point weights
              threshold ind1 ind2 pop st Hne Hfs Href Hw H1 H2) as (st' & E & Hst').
  eexists _, st'. split; [exact E|]. split; [|split; [|split]].
  - intros p Hp. rewrite Hst'.
    now replace (mem p pop) with true by (symmetry; now apply mem_In).
  - intros r. rewrite Hst'. destruct (mem r pop); [reflexivity|apply same_but_distance_refl].
  - intros r Hr. rewrite Hst'.
    now replace (mem r pop) with false by (symmetry; now apply mem_false).
  - intros front _. eexists. split; [reflexivity|]. split.
    + apply sorted_perm.
    + apply (sorted_Sorted (fun a b => (NSGAIndividual.distance (st' a)
                                        <? NSGAIndividual.distance (st' b))%float)).
      intros a b. apply FloatOrder.ltb_asym.
Qed.

Lemma r_dominance_overwrites_distances_witness :
  [0; 1; 2; 3]%nat <> []
  /\ (forall p, In p [0; 1; 2; 3]%nat ->
        fully_scored [Minimize; Minimize]
          (heap_of [[Some 1; Some 4]; [Some 2; Some 3]; [Some 3; Some 2]; [Some 4; Some 1]]%float
             p) = true)
  /\ pareto_dominate minimize_all [Some 1; Some 4]%float [Some 2; Some 3]%float None = Ok false
  /\ pareto_dominate minimize_all [Some 2; Some 3]%float [Some 1; Some 4]%float None = Ok false
  /\ exists b st',
       dominate minimize_all
         (RDominanceSurvival [Minimize; Minimize] 4 [0; 0]%float [0.5; 0.5]%float 0.3%float)
         0%nat 1%nat [0; 1; 2; 3]%nat
         (heap_of [[Some 1; Some 4]; [Some 2; Some 3]; [Some 3; Some 2]; [Some 4; Some 1]]%float)
       = Ok (b, st')
       /\ forall r, ~ In r [0; 1; 2; 3]%nat ->
            st' r = heap_of [[Some 1; Some 4]; [Some 2; Some 3]; [Some 3; Some 2];
                             [Some 4; Some 1]]%float r.
Proof.
  assert (Hne : [0; 1; 2; 3]%nat <> []) by discriminate.
  assert (Hfs : forall p, In p [0; 1; 2; 3]%nat ->
            fully_scored [Minimize; Minimize]
              (heap_of [[Some 1; Some 4]; [Some 2; Some 3]; [Some 3; Some 2]; [Some 4; Some 1]]%float
                 p) = true).
  { intros p [<-|[<-|[<-|[<-|[]]]]]; reflexivity. }
  assert (H1 : pareto_dominate minimize_all [Some 1; Some 4]%float [Some 2; Some 3]%float None
               = Ok false) by (vm_compute; reflexivity).
  assert (H2 : pareto_dominate minimize_all [Some 2; Some 3]%float [Some 1; Some 4]%float None
               = Ok false) by (vm_compute; reflexivity).
  split; [exact Hne|]. split; [exact Hfs|]. split; [exact H1|]. split; [exact H2|].
  destruct (r_dominance_overwrites_distances minimize_all [Minimize; Minimize] 4 [0; 0]%float
              [0.5; 0.5]%float 0.3%float 0%nat 1%nat [0; 1; 2; 3]%nat
              (heap_of [[Some 1; Some 4]; [Some 2; Some 3]; [Some 3; Some 2];
                        [Some 4; Some 1]]%float)
              Hne Hfs eq_refl eq_refl H1 H2) as (b & st' & E & _ & _ & Hfr & _).
  exists b, st'. split; [exact E|exact Hfr].
Defined.
